(** * Hamiltonian-simulation kernel: circuit construction and mirror circuits

    A shallow embedding of
    [hamiltonian-simulation/qiskit/hamiltonian_simulation_kernel.py]:
    the two-qubit coupling blocks, the Trotter builders of the Heisenberg
    and TFIM kernels, their exact and quasi inverses, and a state-vector
    semantics of the emitted gates, followed by the properties of the
    builders. *)

From Stdlib Require Import Reals List String Arith Bool Lia Lra.
From Stdlib Require Import FunctionalExtensionality Permutation RNsatz.
Import ListNotations.

Local Open Scope string_scope.
#[local] Set Warnings "-register-all".
Local Open Scope nat_scope.
Local Open Scope list_scope.

(* ================================================================== *)
(** * Circuits *)
(* ================================================================== *)

(** One entry of [QuantumCircuit.data].  Rotation angles are Python floats,
    read here as real numbers.  [qc_append name body qargs] is
    [qc.append(sub.to_instruction(), qargs)] for a sub-circuit [sub] called
    [name] whose own instructions are [body]: qubit [k] of [sub] is wired to
    [qargs[k]]. *)
Inductive instr : Type :=
| qc_rx (theta : R) (q : nat)
| qc_ry (theta : R) (q : nat)
| qc_rz (theta : R) (q : nat)
| qc_h (q : nat)
| qc_x (q : nat)
| qc_z (q : nat)
| qc_s (q : nat)
| qc_sdg (q : nat)
| qc_cx (c t : nat)
| qc_barrier
| qc_append (name : string) (body : list instr) (qargs : list nat).

(** A circuit object: its name and its instruction list. *)
Definition QuantumCircuit : Type := (string * list instr)%type.

Definition circuit_name (c : QuantumCircuit) : string := fst c.
Definition data (c : QuantumCircuit) : list instr := snd c.

Definition to_instruction (sub : QuantumCircuit) (qargs : list nat) : instr :=
  qc_append (circuit_name sub) (data sub) qargs.

(** Python's [range(n)], [range(start, stop, step)], [reversed] and
    [enumerate]. *)
Definition range (n : nat) : list nat := seq 0 n.

Definition range3 (start stop step : nat) : list nat :=
  map (fun k => start + k * step) (seq 0 ((stop - start + (step - 1)) / step)).

Definition reversed {A : Type} (l : list A) : list A := rev l.

Definition enumerate {A : Type} (l : list A) : list (nat * A) :=
  combine (seq 0 (List.length l)) l.

(* ================================================================== *)
(** * Building a circuit: appends to [qc] and Python exceptions *)
(* ================================================================== *)

Inductive exn : Type := IndexError.

Inductive result (A : Type) : Type :=
| Ok (a : A)
| Raise (e : exn).
Arguments Ok {A} a.
Arguments Raise {A} e.

(** A builder statement runs on the instruction list of the circuit under
    construction and leaves the list as it is when the statement returns or
    raises: what was appended before an exception stays appended. *)
Definition Build (A : Type) : Type := list instr -> list instr * result A.

Definition ret {A : Type} (a : A) : Build A := fun qc => (qc, Ok a).

Definition bind {A B : Type} (m : Build A) (k : A -> Build B) : Build B :=
  fun qc =>
    match m qc with
    | (qc', Ok a) => k a qc'
    | (qc', Raise e) => (qc', Raise e)
    end.

Notation "x <- m ;; k" := (bind m (fun x => k))
  (at level 61, m at next level, right associativity).
Notation "m ;; k" := (bind m (fun _ => k))
  (at level 61, right associativity).

(** [qc.rx(...)], [qc.append(...)], ...: one more entry of [qc.data]. *)
Definition emit (g : instr) : Build unit := fun qc => (qc ++ [g], Ok tt).

(** [l[i]] for a non-negative index. *)
Definition getitem {A : Type} (l : list A) (i : nat) : Build A :=
  fun qc =>
    match nth_error l i with
    | Some v => (qc, Ok v)
    | None => (qc, Raise IndexError)
    end.

(** [for a in l: body(a)], also the list comprehensions run for their
    effect. *)
Fixpoint for_ {A : Type} (l : list A) (body : A -> Build unit) : Build unit :=
  match l with
  | [] => ret tt
  | a :: l' => body a ;; for_ l' body
  end.

(** [if c: stmt] without an else branch. *)
Definition when (c : bool) (stmt : Build unit) : Build unit :=
  if c then stmt else ret tt.

(** A method that creates a fresh [QuantumCircuit(qr, name=...)], fills it and
    returns it. *)
Definition build (name : string) (body : Build unit) : result QuantumCircuit :=
  match body [] with
  | (qc, Ok _) => Ok (name, qc)
  | (_, Raise e) => Raise e
  end.

(** The instruction list at the moment the body returned or raised. *)
Definition emitted (body : Build unit) : list instr := fst (body []).

(** The instruction list of a returned circuit (empty when the build
    raised). *)
Definition gates (r : result QuantumCircuit) : list instr :=
  match r with
  | Ok c => data c
  | Raise _ => []
  end.

(* ================================================================== *)
(** * Gate primitives *)
(* ================================================================== *)

Section GatePrimitives.
Local Open Scope R_scope.
Local Open Scope list_scope.

Definition xx_gate (tau : R) : QuantumCircuit :=
  ("XX",
   [qc_h 0; qc_h 1;
    qc_cx 0 1; qc_rz (PI * tau) 1; qc_cx 0 1;
    qc_h 0; qc_h 1]).

Definition yy_gate (tau : R) : QuantumCircuit :=
  ("YY",
   [qc_s 0; qc_s 1; qc_h 0; qc_h 1;
    qc_cx 0 1; qc_rz (PI * tau) 1; qc_cx 0 1;
    qc_h 0; qc_h 1; qc_sdg 0; qc_sdg 1]).

Definition zz_gate (tau : R) : QuantumCircuit :=
  ("ZZ", [qc_cx 0 1; qc_rz (PI * tau) 1; qc_cx 0 1]).

Definition xxyyzz_opt_gate (tau : R) : QuantumCircuit :=
  let alpha := tau in
  let beta := tau in
  let gamma := tau in
  ("XXYYZZ",
   [qc_rz (PI / 2) 1;
    qc_cx 1 0;
    qc_rz (PI * gamma - PI / 2) 0;
    qc_ry (PI / 2 - PI * alpha) 1;
    qc_cx 0 1;
    qc_ry (PI * beta - PI / 2) 1;
    qc_cx 1 0;
    qc_rz (- PI / 2) 0]).

Definition xx_gate_mirror (tau : R) : QuantumCircuit :=
  ("XX†",
   [qc_h 0; qc_h 1;
    qc_cx 0 1; qc_rz (- PI * tau) 1; qc_cx 0 1;
    qc_h 0; qc_h 1]).

Definition yy_gate_mirror (tau : R) : QuantumCircuit :=
  ("YY†",
   [qc_s 0; qc_s 1; qc_h 0; qc_h 1;
    qc_cx 0 1; qc_rz (- PI * tau) 1; qc_cx 0 1;
    qc_h 0; qc_h 1; qc_sdg 0; qc_sdg 1]).

Definition zz_gate_mirror (tau : R) : QuantumCircuit :=
  ("ZZ†", [qc_cx 0 1; qc_rz (- PI * tau) 1; qc_cx 0 1]).

Definition xxyyzz_opt_gate_mirror (tau : R) : QuantumCircuit :=
  let alpha := tau in
  let beta := tau in
  let gamma := tau in
  ("XXYYZZ†",
   [qc_rz (PI / 2) 0;
    qc_cx 1 0;
    qc_ry (- PI * beta + PI / 2) 1;
    qc_cx 0 1;
    qc_ry (- PI / 2 + PI * alpha) 1;
    qc_rz (- PI * gamma + PI / 2) 0;
    qc_cx 1 0;
    qc_rz (- PI / 2) 1]).

Definition xxyyzz_opt_gate_quasi_mirror (tau : R) (pauli1 pauli2 : string)
  : QuantumCircuit :=
  let alpha := tau in
  let beta := tau in
  let gamma := tau in
  ("XXYYZZ~Q",
   (if (pauli1 =? "x")%string
    then [qc_h 0; qc_z 0; qc_rx (PI / 2) 0; qc_h 0] else [])
   ++ (if (pauli1 =? "z")%string
       then [qc_h 0; qc_x 0; qc_rx (PI / 2) 0; qc_h 0] else [])
   ++ (if (pauli2 =? "x")%string then [qc_x 1] else [])
   ++ (if (pauli2 =? "z")%string then [qc_z 1] else [])
   ++ [qc_cx 1 0;
       qc_ry (- PI * beta + PI / 2) 1;
       qc_cx 0 1;
       qc_ry (- PI / 2 + PI * alpha) 1;
       qc_rz (- PI * gamma + PI / 2) 0;
       qc_cx 1 0;
       qc_rz (- PI / 2) 1]).

End GatePrimitives.

(* ================================================================== *)
(** * The kernel classes *)
(* ================================================================== *)

(** The attributes that [HamiltonianKernel.__init__] stores. *)
Record HamiltonianKernel : Type := {
  n_spins : nat;
  K : nat;
  t : R;
  tau : R;
  hamiltonian : string;
  w : R;
  h_x : list R;
  h_z : list R;
  use_XX_YY_ZZ_gates : bool;
  random_pauli_flag : bool;
  method : nat;
  init_state : string
}.

(** [__init__]: [self.tau = t / K]. *)
Definition init (n_spins K : nat) (t : R) (hamiltonian : string) (w : R)
    (hx hz : list R) (use_XX_YY_ZZ_gates : bool) (method : nat)
    (random_pauli_flag : bool) (init_state : string) : HamiltonianKernel :=
  {| n_spins := n_spins; K := K; t := t; tau := (t / INR K)%R;
     hamiltonian := hamiltonian; w := w; h_x := hx; h_z := hz;
     use_XX_YY_ZZ_gates := use_XX_YY_ZZ_gates;
     random_pauli_flag := random_pauli_flag;
     method := method; init_state := init_state |}.

(** [random_paulis_list]: [coin i] stands for the [i]-th call of
    [np.random.choice(["x","z"])] of the build, [true] for ["x"]. *)
Definition random_paulis_list (coin : nat -> bool) (self : HamiltonianKernel)
  : list string :=
  flat_map
    (fun i =>
       let gate := if coin i then "x" else "z" in
       (if (gate =? "x")%string then ["x"] else [])
       ++ (if (gate =? "z")%string then ["z"] else []))
    (range (n_spins self)).

(** [ResultantPauli]: reads nothing but [self.n_spins], and no statement of
    it can raise. *)
Definition ResultantPauli_body (self : HamiltonianKernel) : Build unit :=
  for_ (range (n_spins self)) (fun n => emit (qc_x n)) ;;
  emit qc_barrier.

Definition ResultantPauli (self : HamiltonianKernel) : QuantumCircuit :=
  ("ResultantPaulis", emitted (ResultantPauli_body self)).

(** The qubit pair of one coupling block, [[qr[i], qr[(i + 1) % n_spins]]]. *)
Definition pair_at (self : HamiltonianKernel) (i : nat) : list nat :=
  [i; (i + 1) mod n_spins self].

(** The doubly nested loop shared by all coupling layers in forward order:
    [for j in range(2): for i in range(j % 2, n_spins - 1, 2): qc.append(...)]. *)
Definition brick_passes (self : HamiltonianKernel) (gate : QuantumCircuit)
  : Build unit :=
  for_ (range 2) (fun j =>
    for_ (range3 (j mod 2) (n_spins self - 1) 2) (fun i =>
      emit (to_instruction gate (pair_at self i)))).

(** The same with both loops under [reversed(...)]. *)
Definition brick_passes_reversed (self : HamiltonianKernel) (gate : QuantumCircuit)
  : Build unit :=
  for_ (reversed (range 2)) (fun j =>
    for_ (reversed (range3 (j mod 2) (n_spins self - 1) 2)) (fun i =>
      emit (to_instruction gate (pair_at self i)))).

Module Heisenberg.
Section Methods.
Local Open Scope R_scope.
Variable self : HamiltonianKernel.

Definition create_hamiltonian_body : Build unit :=
  for_ (range (K self)) (fun k =>
    for_ (range (n_spins self)) (fun i =>
      hx <- getitem (h_x self) i ;;
      emit (qc_rx (2 * tau self * w self * hx) i)) ;;
    for_ (range (n_spins self)) (fun i =>
      hz <- getitem (h_z self) i ;;
      emit (qc_rz (2 * tau self * w self * hz) i)) ;;
    emit qc_barrier ;;
    (if use_XX_YY_ZZ_gates self then
       brick_passes self (xx_gate (tau self)) ;;
       brick_passes self (yy_gate (tau self)) ;;
       brick_passes self (zz_gate (tau self))
     else
       brick_passes self (xxyyzz_opt_gate (tau self))) ;;
    emit qc_barrier).

Definition create_hamiltonian : result QuantumCircuit :=
  build "Heisenberg" create_hamiltonian_body.

Definition create_inverse_hamiltonian_body : Build unit :=
  for_ (range (K self)) (fun k =>
    (if use_XX_YY_ZZ_gates self then
       brick_passes self (zz_gate_mirror (tau self)) ;;
       brick_passes_reversed self (yy_gate_mirror (tau self)) ;;
       brick_passes self (xx_gate_mirror (tau self))
     else
       brick_passes_reversed self (xxyyzz_opt_gate_mirror (tau self))) ;;
    emit qc_barrier ;;
    for_ (range (n_spins self)) (fun i =>
      hz <- getitem (h_z self) i ;;
      emit (qc_rz (-2 * tau self * w self * hz) i)) ;;
    for_ (range (n_spins self)) (fun i =>
      hx <- getitem (h_x self) i ;;
      emit (qc_rx (-2 * tau self * w self * hx) i)) ;;
    emit qc_barrier).

Definition create_inverse_hamiltonian : result QuantumCircuit :=
  build "InverseHeisenberg" create_inverse_hamiltonian_body.

(** The twirl gate of the boundary qubit [q]:
    [if pauli_list[q] == "x": qc.x(qr[q])] then
    [if pauli_list[q] == "z": qc.z(qr[q])]. *)
Definition boundary_twirl (pauli_list : list string) (q : nat) : Build unit :=
  (p <- getitem pauli_list q ;; when (p =? "x")%string (emit (qc_x q))) ;;
  (p <- getitem pauli_list q ;; when (p =? "z")%string (emit (qc_z q))).

Definition create_quasi_inverse_hamiltonian_body (coin : nat -> bool)
  : Build unit :=
  let pauli_list := random_paulis_list coin self in
  for_ (enumerate pauli_list) (fun ig =>
    let '(i, gate) := ig in
    if (gate =? "x")%string then emit (qc_x i) else emit (qc_z i)) ;;
  emit qc_barrier ;;
  let res_pauli := ResultantPauli self in
  for_ (range (K self)) (fun k =>
    (if use_XX_YY_ZZ_gates self then
       brick_passes self (zz_gate_mirror (tau self)) ;;
       brick_passes self (yy_gate_mirror (tau self)) ;;
       brick_passes self (xx_gate_mirror (tau self))
     else
       for_ (reversed (range 2)) (fun j =>
         when ((j =? 0)%nat && (k =? 0)%nat)
           (when (n_spins self mod 2 =? 1)%nat
              (boundary_twirl pauli_list 0%nat) ;;
            when (n_spins self mod 2 =? 0)%nat
              (boundary_twirl pauli_list 0%nat ;;
               boundary_twirl pauli_list (n_spins self - 1)%nat)) ;;
         for_ (reversed (range3 (j mod 2) (n_spins self - 1) 2)) (fun i =>
           if ((k =? 0)%nat && (j =? 1)%nat)%bool then
             gate_i <- getitem pauli_list i ;;
             gate_next <- getitem pauli_list ((i + 1) mod n_spins self)%nat ;;
             emit (to_instruction
                     (xxyyzz_opt_gate_quasi_mirror (tau self) gate_i gate_next)
                     (pair_at self i))
           else
             emit (to_instruction (xxyyzz_opt_gate_mirror (tau self))
                     (pair_at self i))))) ;;
    emit qc_barrier ;;
    for_ (range (n_spins self)) (fun i =>
      hz <- getitem (h_z self) i ;;
      emit (qc_rz (-2 * tau self * w self * hz) i)) ;;
    for_ (range (n_spins self)) (fun i =>
      hx <- getitem (h_x self) i ;;
      emit (qc_rx (-2 * tau self * w self * hx) i)) ;;
    emit qc_barrier) ;;
  emit (to_instruction res_pauli (range (n_spins self))).

Definition create_quasi_inverse_hamiltonian (coin : nat -> bool)
  : result QuantumCircuit :=
  build "QuasiInverseHeisenberg" (create_quasi_inverse_hamiltonian_body coin).

End Methods.
End Heisenberg.

Module Tfim.
Section Methods.
Local Open Scope R_scope.
Variable self : HamiltonianKernel.

(** [self.h = 0.2], assigned at the top of [create_hamiltonian], which
    [overall_circuit] runs before either inverse builder reads it. *)
Definition h : R := 2 / 10.

Definition create_hamiltonian_body : Build unit :=
  for_ (range (K self)) (fun k =>
    for_ (range (n_spins self)) (fun i =>
      emit (qc_rx (2 * tau self * h) i)) ;;
    emit qc_barrier ;;
    brick_passes self (zz_gate (tau self)) ;;
    emit qc_barrier).

Definition create_hamiltonian : result QuantumCircuit :=
  build "TFIM" create_hamiltonian_body.

Definition create_inverse_hamiltonian_body : Build unit :=
  for_ (range (K self)) (fun k =>
    brick_passes self (zz_gate_mirror (tau self)) ;;
    emit qc_barrier ;;
    for_ (range (n_spins self)) (fun i =>
      emit (qc_rx (-2 * tau self * h) i)) ;;
    emit qc_barrier).

Definition create_inverse_hamiltonian : result QuantumCircuit :=
  build "InverseTFIM" create_inverse_hamiltonian_body.

Definition create_quasi_inverse_hamiltonian_body : Build unit :=
  for_ (range (K self)) (fun k =>
    brick_passes self (zz_gate_mirror (tau self)) ;;
    emit qc_barrier ;;
    for_ (range (n_spins self)) (fun i =>
      emit (qc_rx (-2 * tau self * h) i)) ;;
    emit qc_barrier).

Definition create_quasi_inverse_hamiltonian : result QuantumCircuit :=
  build "QuasiInverseTFIM" create_quasi_inverse_hamiltonian_body.

End Methods.
End Tfim.

(* ================================================================== *)
(** * State-vector semantics of the gates *)
(* ================================================================== *)

(** Complex amplitudes as pairs (real part, imaginary part). *)
Definition C : Type := (R * R)%type.

Section Complex.
Local Open Scope R_scope.

Definition C0 : C := (0, 0).
Definition C1 : C := (1, 0).
Definition Cadd (a b : C) : C := (fst a + fst b, snd a + snd b).
Definition Cmul (a b : C) : C :=
  (fst a * fst b - snd a * snd b, fst a * snd b + snd a * fst b).
Definition Copp (a : C) : C := (- fst a, - snd a).
Definition Csub (a b : C) : C := Cadd a (Copp b).
(** [exp(i phi)] *)
Definition Cexp (phi : R) : C := (cos phi, sin phi).

(** A single-qubit operator, [mRC] being the entry of row [R], column [C]. *)
Record mat2 : Type := { m00 : C; m01 : C; m10 : C; m11 : C }.

Definition entry (U : mat2) (r c : bool) : C :=
  match r, c with
  | false, false => m00 U
  | false, true => m01 U
  | true, false => m10 U
  | true, true => m11 U
  end.

Definition mat_mul (U V : mat2) : mat2 :=
  {| m00 := Cadd (Cmul (m00 U) (m00 V)) (Cmul (m01 U) (m10 V));
     m01 := Cadd (Cmul (m00 U) (m01 V)) (Cmul (m01 U) (m11 V));
     m10 := Cadd (Cmul (m10 U) (m00 V)) (Cmul (m11 U) (m10 V));
     m11 := Cadd (Cmul (m10 U) (m01 V)) (Cmul (m11 U) (m11 V)) |}.

Definition mat_id : mat2 := {| m00 := C1; m01 := C0; m10 := C0; m11 := C1 |}.

(** The matrices of Qiskit's standard gates. *)
Definition RXGate (theta : R) : mat2 :=
  {| m00 := (cos (theta / 2), 0); m01 := (0, - sin (theta / 2));
     m10 := (0, - sin (theta / 2)); m11 := (cos (theta / 2), 0) |}.

Definition RYGate (theta : R) : mat2 :=
  {| m00 := (cos (theta / 2), 0); m01 := (- sin (theta / 2), 0);
     m10 := (sin (theta / 2), 0); m11 := (cos (theta / 2), 0) |}.

Definition RZGate (theta : R) : mat2 :=
  {| m00 := Cexp (- (theta / 2)); m01 := C0;
     m10 := C0; m11 := Cexp (theta / 2) |}.

Definition HGate : mat2 :=
  {| m00 := (/ sqrt 2, 0); m01 := (/ sqrt 2, 0);
     m10 := (/ sqrt 2, 0); m11 := (- / sqrt 2, 0) |}.

Definition XGate : mat2 := {| m00 := C0; m01 := C1; m10 := C1; m11 := C0 |}.
Definition ZGate : mat2 := {| m00 := C1; m01 := C0; m10 := C0; m11 := Copp C1 |}.
Definition SGate : mat2 := {| m00 := C1; m01 := C0; m10 := C0; m11 := (0, 1) |}.
Definition SdgGate : mat2 := {| m00 := C1; m01 := C0; m10 := C0; m11 := (0, -1) |}.

End Complex.

(** A computational-basis label gives the bit of every qubit; a state gives
    the amplitude of every label.  Qubits are numbered by [nat], so a register
    of any size is covered: a gate reads and changes the bits of its own
    qubits only. *)
Definition basis : Type := nat -> bool.
Definition state : Type := basis -> C.

Definition upd (b : basis) (q : nat) (v : bool) : basis :=
  fun k => if (k =? q)%nat then v else b k.

(** A single-qubit operator [U] on qubit [q]. *)
Definition apply1 (U : mat2) (q : nat) (psi : state) : state :=
  fun b =>
    Cadd (Cmul (entry U (b q) false) (psi (upd b q false)))
         (Cmul (entry U (b q) true) (psi (upd b q true))).

(** Controlled-NOT with control [c] and target [t]. *)
Definition apply_cx (c t : nat) (psi : state) : state :=
  fun b => psi (if b c then upd b t (negb (b t)) else b).

(** [decompose]: composite instructions replaced by their bodies, the
    body's qubit [k] renamed to [qargs[k]], at every depth. *)
Fixpoint inline (m : nat -> nat) (i : instr) : list instr :=
  match i with
  | qc_rx theta q => [qc_rx theta (m q)]
  | qc_ry theta q => [qc_ry theta (m q)]
  | qc_rz theta q => [qc_rz theta (m q)]
  | qc_h q => [qc_h (m q)]
  | qc_x q => [qc_x (m q)]
  | qc_z q => [qc_z (m q)]
  | qc_s q => [qc_s (m q)]
  | qc_sdg q => [qc_sdg (m q)]
  | qc_cx c t => [qc_cx (m c) (m t)]
  | qc_barrier => [qc_barrier]
  | qc_append _ body qargs =>
      flat_map (inline (fun k => m (nth k qargs 0))) body
  end.

Definition decompose (c : list instr) : list instr :=
  flat_map (inline (fun q => q)) c.

(** The operator of one elementary instruction; a barrier does nothing, and
    composite instructions are gone after [decompose]. *)
Definition gate_op (g : instr) : state -> state :=
  match g with
  | qc_rx theta q => apply1 (RXGate theta) q
  | qc_ry theta q => apply1 (RYGate theta) q
  | qc_rz theta q => apply1 (RZGate theta) q
  | qc_h q => apply1 HGate q
  | qc_x q => apply1 XGate q
  | qc_z q => apply1 ZGate q
  | qc_s q => apply1 SGate q
  | qc_sdg q => apply1 SdgGate q
  | qc_cx c t => apply_cx c t
  | qc_barrier => fun psi => psi
  | qc_append _ _ _ => fun psi => psi
  end.

(** Elementary instructions applied in list order. *)
Definition run_gates (l : list instr) (psi : state) : state :=
  fold_left (fun st g => gate_op g st) l psi.

(** The operator of a circuit. *)
Definition run (c : list instr) (psi : state) : state :=
  run_gates (decompose c) psi.

(** An operator that multiplies every state by one unit complex number. *)
Definition identity_up_to_phase (U : state -> state) : Prop :=
  exists phi : R, forall psi b, U psi b = Cmul (Cexp phi) (psi b).

(** The adjoint of an elementary instruction and of a gate list. *)
Definition dagger (g : instr) : instr :=
  match g with
  | qc_rx theta q => qc_rx (- theta) q
  | qc_ry theta q => qc_ry (- theta) q
  | qc_rz theta q => qc_rz (- theta) q
  | qc_s q => qc_sdg q
  | qc_sdg q => qc_s q
  | g => g
  end.

Definition dagger_list (l : list instr) : list instr := rev (map dagger l).

(** Elementary instructions with distinct control and target. *)
Definition elementary (g : instr) : Prop :=
  match g with
  | qc_cx c t => c <> t
  | qc_append _ _ _ => False
  | _ => True
  end.

(** The qubits an instruction acts on. *)
Definition qubits (g : instr) : list nat :=
  match g with
  | qc_rx _ q | qc_ry _ q | qc_rz _ q
  | qc_h q | qc_x q | qc_z q | qc_s q | qc_sdg q => [q]
  | qc_cx c t => [c; t]
  | qc_barrier => []
  | qc_append _ _ qargs => qargs
  end.

(** Two operators that can be applied in either order. *)
Definition commute (f g : state -> state) : Prop :=
  forall psi, f (g psi) = g (f psi).

(** [l'] undoes [l]: running [l] and then [l'] gives the state back. *)
Definition cancels (l l' : list instr) : Prop :=
  forall psi, run_gates l' (run_gates l psi) = psi.

(** A diagonal operator: every amplitude multiplied by a factor that
    depends on its label only. *)
Definition diag (d : basis -> C) (psi : state) : state :=
  fun b => Cmul (d b) (psi b).

(** The factor that [CX(a,b); Rz(theta) on b; CX(a,b)] gives a label: it
    depends on the parity of bits [a] and [b]. *)
Definition zz_phase (theta : R) (a b : nat) (x : basis) : C :=
  let p := if x a then negb (x b) else x b in
  entry (RZGate theta) p p.

(** The body of a two-qubit sub-circuit wired to qubits [a] and [b]. *)
Definition on_pair (body : list instr) (a b : nat) : list instr :=
  flat_map (inline (fun k => nth k [a; b] 0)) body.

(** The elementary gates of the coupling block appended at pair [i]. *)
Definition block (self : HamiltonianKernel) (gate : QuantumCircuit) (i : nat)
  : list instr :=
  inline (fun q => q) (to_instruction gate (pair_at self i)).

(** Hadamard on three qubits. *)
Definition hadamard3 (a b c : nat) (psi : state) : state :=
  apply1 HGate a (apply1 HGate b (apply1 HGate c psi)).

(** The operator of an XX block: the parity phase between Hadamards on both
    wires. *)
Definition xx_op (a b : nat) (theta : R) (psi : state) : state :=
  apply1 HGate b (apply1 HGate a
    (diag (zz_phase theta a b) (apply1 HGate b (apply1 HGate a psi)))).

(** Both builds return, and the forward circuit followed by the inverse
    circuit is the identity up to a global phase. *)
Definition composes_to_identity (forward inverse : result QuantumCircuit) : Prop :=
  exists fwd inv,
    forward = Ok fwd /\ inverse = Ok inv /\
    identity_up_to_phase (run (data fwd ++ data inv)).

(* ================================================================== *)
(** * What the builders emit, in closed form *)
(* ================================================================== *)

(** A statement that cannot raise and appends exactly [gs]. *)
Definition emits (stmt : Build unit) (gs : list instr) : Prop :=
  forall qc, stmt qc = (qc ++ gs, Ok tt).

(** The left qubits of the pairs of brick pass [j], in loop order. *)
Definition pass (self : HamiltonianKernel) (j : nat) : list nat :=
  range3 (j mod 2) (n_spins self - 1) 2.

(** Pass 0 then pass 1, each in ascending order. *)
Definition forward_order (self : HamiltonianKernel) : list nat :=
  pass self 0 ++ pass self 1.

(** Pass 1 then pass 0, each in descending order. *)
Definition reversed_order (self : HamiltonianKernel) : list nat :=
  rev (pass self 1) ++ rev (pass self 0).

(** One coupling block per listed pair. *)
Definition coupling_layer (self : HamiltonianKernel) (gate : QuantumCircuit)
    (order : list nat) : list instr :=
  map (fun i => to_instruction gate (pair_at self i)) order.

(** One rotation per qubit, qubit 0 first. *)
Definition rotation_layer (self : HamiltonianKernel)
    (rot : R -> nat -> instr) (angle : nat -> R) : list instr :=
  map (fun i => rot (angle i) i) (range (n_spins self)).

Section ClosedForms.
Local Open Scope R_scope.
Variable self : HamiltonianKernel.

Definition hx_at (i : nat) : R := nth i (h_x self) 0.
Definition hz_at (i : nat) : R := nth i (h_z self) 0.

Definition heisenberg_fields : list instr :=
  rotation_layer self qc_rx (fun i => 2 * tau self * w self * hx_at i)
  ++ rotation_layer self qc_rz (fun i => 2 * tau self * w self * hz_at i).

Definition heisenberg_fields_inverse : list instr :=
  rotation_layer self qc_rz (fun i => -2 * tau self * w self * hz_at i)
  ++ rotation_layer self qc_rx (fun i => -2 * tau self * w self * hx_at i).

Definition heisenberg_coupling : list instr :=
  if use_XX_YY_ZZ_gates self then
    coupling_layer self (xx_gate (tau self)) (forward_order self)
    ++ coupling_layer self (yy_gate (tau self)) (forward_order self)
    ++ coupling_layer self (zz_gate (tau self)) (forward_order self)
  else
    coupling_layer self (xxyyzz_opt_gate (tau self)) (forward_order self).

Definition heisenberg_coupling_inverse : list instr :=
  if use_XX_YY_ZZ_gates self then
    coupling_layer self (zz_gate_mirror (tau self)) (forward_order self)
    ++ coupling_layer self (yy_gate_mirror (tau self)) (reversed_order self)
    ++ coupling_layer self (xx_gate_mirror (tau self)) (forward_order self)
  else
    coupling_layer self (xxyyzz_opt_gate_mirror (tau self)) (reversed_order self).

Definition heisenberg_step : list instr :=
  heisenberg_fields ++ [qc_barrier] ++ heisenberg_coupling ++ [qc_barrier].

Definition heisenberg_inverse_step : list instr :=
  heisenberg_coupling_inverse ++ [qc_barrier]
  ++ heisenberg_fields_inverse ++ [qc_barrier].

Definition tfim_fields : list instr :=
  rotation_layer self qc_rx (fun _ => 2 * tau self * Tfim.h).

Definition tfim_fields_inverse : list instr :=
  rotation_layer self qc_rx (fun _ => -2 * tau self * Tfim.h).

Definition tfim_step : list instr :=
  tfim_fields ++ [qc_barrier]
  ++ coupling_layer self (zz_gate (tau self)) (forward_order self)
  ++ [qc_barrier].

Definition tfim_inverse_step : list instr :=
  coupling_layer self (zz_gate_mirror (tau self)) (forward_order self)
  ++ [qc_barrier] ++ tfim_fields_inverse ++ [qc_barrier].

(** [k] copies of a step, one after the other. *)
Definition steps (k : nat) (step : list instr) : list instr :=
  List.concat (repeat step k).

End ClosedForms.

(** Both field arrays cover the chain. *)
Definition fields_cover (self : HamiltonianKernel) : Prop :=
  n_spins self <= List.length (h_x self) /\ n_spins self <= List.length (h_z self).

(* ================================================================== *)
(** * The quasi-inverse of the Heisenberg kernel, in closed form *)
(* ================================================================== *)

(** The tag drawn for qubit [i], and the Pauli gate it stands for. *)
Definition tag (coin : nat -> bool) (i : nat) : string :=
  if coin i then "x" else "z".

Definition twirl_gate (coin : nat -> bool) (q : nat) : instr :=
  if coin q then qc_x q else qc_z q.

Section QuasiInverseClosedForm.
Variables (self : HamiltonianKernel) (coin : nat -> bool).

(** The random Pauli of every qubit, qubit 0 first. *)
Definition leading_twirl : list instr :=
  map (twirl_gate coin) (range (n_spins self)).

(** The twirl gates repeated on the boundary qubits: qubit 0 for an odd
    chain, qubits 0 and [n_spins - 1] for an even one. *)
Definition boundary_twirl_gates : list instr :=
  if n_spins self mod 2 =? 1 then [twirl_gate coin 0]
  else [twirl_gate coin 0; twirl_gate coin (n_spins self - 1)].

(** One quasi-mirror block per listed pair, keyed by the tags of its two
    qubits. *)
Definition quasi_mirror_layer (order : list nat) : list instr :=
  map (fun i =>
         to_instruction
           (xxyyzz_opt_gate_quasi_mirror (tau self) (tag coin i)
              (tag coin ((i + 1) mod n_spins self)))
           (pair_at self i))
      order.

(** Step [k = 0] in fused mode. *)
Definition quasi_first_step : list instr :=
  quasi_mirror_layer (rev (pass self 1))
  ++ boundary_twirl_gates
  ++ coupling_layer self (xxyyzz_opt_gate_mirror (tau self)) (rev (pass self 0))
  ++ [qc_barrier] ++ heisenberg_fields_inverse self ++ [qc_barrier].

(** Steps [k >= 1] in fused mode. *)
Definition fused_inverse_step : list instr :=
  coupling_layer self (xxyyzz_opt_gate_mirror (tau self)) (reversed_order self)
  ++ [qc_barrier] ++ heisenberg_fields_inverse self ++ [qc_barrier].

(** Every step in separate-axis mode. *)
Definition separate_quasi_step : list instr :=
  coupling_layer self (zz_gate_mirror (tau self)) (forward_order self)
  ++ coupling_layer self (yy_gate_mirror (tau self)) (forward_order self)
  ++ coupling_layer self (xx_gate_mirror (tau self)) (forward_order self)
  ++ [qc_barrier] ++ heisenberg_fields_inverse self ++ [qc_barrier].

Definition quasi_inverse_steps : list instr :=
  if use_XX_YY_ZZ_gates self then steps (K self) separate_quasi_step
  else match K self with
       | 0 => []
       | S k => quasi_first_step ++ steps k fused_inverse_step
       end.

(** The ResultantState as it is appended to the quasi-inverse circuit. *)
Definition resultant_instruction : instr :=
  to_instruction (ResultantPauli self) (range (n_spins self)).

Definition quasi_inverse_gates : list instr :=
  leading_twirl ++ [qc_barrier] ++ quasi_inverse_steps ++ [resultant_instruction].

End QuasiInverseClosedForm.

(* ================================================================== *)
(** * Statements of the specification, and sample kernels *)
(* ================================================================== *)

(** A coupling block appended on the qubit pair [{a, b}], in either order. *)
Definition is_coupling_on (a b : nat) (g : instr) : bool :=
  match g with
  | qc_append _ _ [p; q] => ((p =? a) && (q =? b)) || ((p =? b) && (q =? a))
  | _ => false
  end.

(** The specification's periodic chain: some block of the circuit joins
    qubit [n_spins - 1] to qubit 0. *)
Definition spec_wraparound_coupled (self : HamiltonianKernel) (c : list instr)
  : Prop :=
  existsb (is_coupling_on (n_spins self - 1) 0) c = true.

Section SpecExactInverse.
Variable self : HamiltonianKernel.

(** The exact inverse as the specification words it: every coupling layer in
    reverse pass order with the pair order reversed within each pass, every
    block in mirror form, then the negated field rotations in reverse axis
    order. *)
Definition spec_heisenberg_inverse_step : list instr :=
  (if use_XX_YY_ZZ_gates self then
     coupling_layer self (zz_gate_mirror (tau self)) (reversed_order self)
     ++ coupling_layer self (yy_gate_mirror (tau self)) (reversed_order self)
     ++ coupling_layer self (xx_gate_mirror (tau self)) (reversed_order self)
   else
     coupling_layer self (xxyyzz_opt_gate_mirror (tau self)) (reversed_order self))
  ++ [qc_barrier] ++ heisenberg_fields_inverse self ++ [qc_barrier].

Definition spec_tfim_inverse_step : list instr :=
  coupling_layer self (zz_gate_mirror (tau self)) (reversed_order self)
  ++ [qc_barrier] ++ tfim_fields_inverse self ++ [qc_barrier].

End SpecExactInverse.

(** The specification's error contract: a build that raises has appended
    nothing to the circuit under construction. *)
Definition spec_fails_before_any_gate (body : Build unit) : Prop :=
  forall e, snd (body []) = Raise e -> emitted body = [].

(** The specification's placement of the boundary twirl: right after the
    leading twirl, before any coupling block of the reversed steps. *)
Definition spec_boundary_twirl_before_coupling (self : HamiltonianKernel)
    (coin : nat -> bool) : Prop :=
  exists rest,
    gates (Heisenberg.create_quasi_inverse_hamiltonian self coin)
    = leading_twirl self coin ++ [qc_barrier]
      ++ boundary_twirl_gates self coin ++ rest.

(** The specification's TFIM quasi-inverse: the leading twirl, reversed steps,
    and the ResultantState appended at the end. *)
Definition spec_tfim_quasi_inverse_twirls (self : HamiltonianKernel)
    (coin : nat -> bool) : Prop :=
  exists steps_part,
    gates (Tfim.create_quasi_inverse_hamiltonian self)
    = leading_twirl self coin ++ [qc_barrier] ++ steps_part
      ++ [resultant_instruction self].

(** A Heisenberg kernel with unit time, unit coupling strength and the given
    field arrays. *)
Definition sample_kernel (n k : nat) (separate : bool) (hx hz : list R)
  : HamiltonianKernel :=
  init n k 1%R "heisenberg" 1%R hx hz separate 3 true "checkerboard".

(** Unit fields on every qubit. *)
Definition uniform_kernel (n k : nat) (separate : bool) : HamiltonianKernel :=
  sample_kernel n k separate (repeat 1%R n) (repeat 1%R n).

(** The scenario of the specification: [h_x] of length 2 on a chain of 4. *)
Definition short_hx_kernel : HamiltonianKernel :=
  sample_kernel 4 1 false [1%R; 1%R] [1%R; 1%R; 1%R; 1%R].

(** A draw that picks "x" on the even qubits and "z" on the odd ones. *)
Definition alternating_coin (i : nat) : bool := Nat.even i.

(** The appended ResultantState, recognised by the name of its circuit. *)
Definition is_resultant (g : instr) : bool :=
  match g with
  | qc_append name _ _ => (name =? "ResultantPaulis")%string
  | _ => false
  end.

(** A quasi-mirror block, recognised by the name of its circuit. *)
Definition is_quasi_mirror (g : instr) : bool :=
  match g with
  | qc_append name _ _ => (name =? "XXYYZZ~Q")%string
  | _ => false
  end.

(** A bare X or Z gate. *)
Definition is_pauli_gate (g : instr) : bool :=
  match g with
  | qc_x _ | qc_z _ => true
  | _ => false
  end.

(* ================================================================== *)
(** * The twirl and the resultant state as operators *)
(* ================================================================== *)

(** The twirl gate of every listed qubit. *)
Definition twirl_on (coin : nat -> bool) (qs : list nat) : list instr :=
  map (twirl_gate coin) qs.

(** The qubits of the listed pairs. *)
Definition pair_qubits (order : list nat) : list nat :=
  flat_map (fun i => [i; i + 1]) order.

(** The qubits that get a boundary twirl gate. *)
Definition boundary_qubits (self : HamiltonianKernel) : list nat :=
  if n_spins self mod 2 =? 1 then [0] else [0; n_spins self - 1].

(** The label with every bit below [n] flipped. *)
Definition flip_below (n : nat) (b : basis) : basis :=
  fun k => if k <? n then negb (b k) else b k.

(** Pairs [(i, i+1)] that share no qubit with one another. *)
Definition separated (order : list nat) : Prop :=
  forall i j, In i order -> In j order -> i <> j -> i + 1 < j \/ j + 1 < i.

(* ================================================================== *)
(** * The initial state and the overall circuit *)
(* ================================================================== *)

(** Python's [range(start, stop)]. *)
Definition range2 (start stop : nat) : list nat := seq start (stop - start).

(** [HamiltonianKernel.initial_state].  It reads no array, so no statement of
    it raises IndexError; Qiskit itself rejects [qc.h(0)] on an empty
    register, which is why the statements about the GHZ state take a chain
    of at least one qubit. *)
Definition initial_state_body (self : HamiltonianKernel) : Build unit :=
  if ((init_state self =? "checkerboard") || (init_state self =? "neele"))%string
  then
    for_ (range3 0 (n_spins self) 2) (fun k => emit (qc_x k))
  else if (init_state self =? "ghz")%string then
    emit (qc_h 0) ;;
    for_ (range2 1 (n_spins self)) (fun k => emit (qc_cx (k - 1) k))
  else
    ret tt.

Definition initial_state (self : HamiltonianKernel) : QuantumCircuit :=
  ("InitialState", emitted (initial_state_body self)).

(** An entry of the kernel's own circuit [self.qc]: an appended sub-circuit,
    or [qc.measure(qr[q], cr[c])]. *)
Inductive circuit_op : Type :=
| op_instr (i : instr)
| op_measure (q c : nat).

(** The two derived classes; [overall_circuit] calls their builders through
    [self]. *)
Inductive kernel_class : Type :=
| HeisenbergHamiltonianKernel
| TfimHamiltonianKernel.

Definition create_hamiltonian (cls : kernel_class) (self : HamiltonianKernel)
  : result QuantumCircuit :=
  match cls with
  | HeisenbergHamiltonianKernel => Heisenberg.create_hamiltonian self
  | TfimHamiltonianKernel => Tfim.create_hamiltonian self
  end.

Definition create_inverse_hamiltonian (cls : kernel_class)
    (self : HamiltonianKernel) : result QuantumCircuit :=
  match cls with
  | HeisenbergHamiltonianKernel => Heisenberg.create_inverse_hamiltonian self
  | TfimHamiltonianKernel => Tfim.create_inverse_hamiltonian self
  end.

Definition create_quasi_inverse_hamiltonian (cls : kernel_class)
    (coin : nat -> bool) (self : HamiltonianKernel) : result QuantumCircuit :=
  match cls with
  | HeisenbergHamiltonianKernel =>
      Heisenberg.create_quasi_inverse_hamiltonian self coin
  | TfimHamiltonianKernel => Tfim.create_quasi_inverse_hamiltonian self
  end.

(** [overall_circuit] up to its last statement: the content of [self.qc] when
    the method reaches [self.qc.decompose().decompose()] or when a builder
    raises, and which of the two happened.  The value the method returns is
    Qiskit's two-level decomposition of that circuit. *)
Definition overall_circuit (cls : kernel_class) (coin : nat -> bool)
    (self : HamiltonianKernel) : list circuit_op * result unit :=
  let qr := range (n_spins self) in
  let i_state := initial_state self in
  let qc1 := [op_instr (to_instruction i_state qr)] in
  match create_hamiltonian cls self with
  | Raise e => (qc1, Raise e)
  | Ok circuit =>
      let qc2 := qc1 ++ [op_instr (to_instruction circuit qr)] in
      let measures := map (fun i_qubit => op_measure i_qubit i_qubit) qr in
      if method self =? 3 then
        match (if random_pauli_flag self
               then create_quasi_inverse_hamiltonian cls coin self
               else create_inverse_hamiltonian cls self) with
        | Raise e => (qc2, Raise e)
        | Ok mirror_circuit =>
            (qc2 ++ [op_instr (to_instruction mirror_circuit qr)] ++ measures,
             Ok tt)
        end
      else (qc2 ++ measures, Ok tt)
  end.

(** The appended sub-circuits of [self.qc], in order: what acts on the
    register before the measurements. *)
Definition unitary_part (qc : list circuit_op) : list instr :=
  flat_map (fun o => match o with op_instr i => [i] | op_measure _ _ => [] end) qc.

(** The label with the listed bits flipped. *)
Definition flip_in (qs : list nat) (b : basis) : basis :=
  fun k => if existsb (Nat.eqb k) qs then negb (b k) else b k.

(** The label with the even bits below [n] flipped. *)
Definition flip_even_below (n : nat) (b : basis) : basis :=
  fun k => if (k <? n) && Nat.even k then negb (b k) else b k.

(** The register of [n] qubits in the state |0...0>: amplitude 1 on the
    labels whose first [n] bits are 0. *)
Definition ket0 (n : nat) : state :=
  fun b => if forallb (fun k => negb (b k)) (seq 0 n) then C1 else C0.

(** The GHZ state of [n] qubits: amplitude 1/sqrt 2 on the labels whose first
    [n] bits are all equal. *)
Definition ghz_state (n : nat) : state :=
  fun b => if forallb (fun k => Bool.eqb (b k) (b 0)) (seq 0 n)
           then (/ sqrt 2, 0)%R else C0.

(** The state during the preparation of GHZ, after the Hadamard and the
    first [m] controlled-NOTs: qubits 0 .. m equal, the others still 0. *)
Definition ghz_partial (m n : nat) : state :=
  fun b => if forallb (fun k => Bool.eqb (b k) (b 0)) (seq 0 (S m))
              && forallb (fun k => negb (b k)) (seq (S m) (n - S m))
           then (/ sqrt 2, 0)%R else C0.

(** An instruction whose qubits all lie in a register of [n] qubits. *)
Definition within (n : nat) (g : instr) : Prop :=
  forall q, In q (qubits g) -> q < n.

(** Sums and scalar multiples of states. *)
Definition state_add (psi phi : state) : state := fun b => Cadd (psi b) (phi b).
Definition state_scale (c : C) (psi : state) : state := fun b => Cmul c (psi b).

(** [S^dagger X S], the matrix that the phase gates of [yy_gate] make of X. *)
Definition SdgXS : mat2 :=
  {| m00 := C0; m01 := (0, 1)%R; m10 := (0, -1)%R; m11 := C0 |}.

(** The label [x] with bits [a] and [b] set to [v] and [w]. *)
Definition two (x : basis) (a b : nat) (v w : bool) : basis :=
  upd (upd x a v) b w.


(** An operator that commutes with flipping every bit below [n]. *)
Definition flip_equivariant (n : nat) (U : state -> state) : Prop :=
  forall psi,
    U (fun x => psi (flip_below n x)) = fun x => U psi (flip_below n x).


(* ================================================================== *)
(** * Properties *)
(* ================================================================== *)

(** ** Complex arithmetic *)

Lemma C_ring_theory : ring_theory C0 C1 Cadd Cmul Csub Copp eq.
Proof.
  constructor; intros;
    repeat match goal with a : C |- _ => destruct a end;
    unfold Csub, Cadd, Cmul, Copp, C0, C1; simpl; f_equal; ring.
Qed.

Add Ring C_ring : C_ring_theory.

Lemma C_eq (a b c d : R) : a = c -> b = d -> (a, b) = ((c, d) : C).
Proof. intros -> ->; reflexivity. Qed.

Lemma mat2_eq (U V : mat2) :
  m00 U = m00 V -> m01 U = m01 V -> m10 U = m10 V -> m11 U = m11 V -> U = V.
Proof. destruct U, V; simpl; intros -> -> -> ->; reflexivity. Qed.

Lemma half_neg (theta : R) : (- theta / 2 = - (theta / 2))%R.
Proof. lra. Qed.

Lemma cos_sin_sq (a : R) : (cos a * cos a + sin a * sin a = 1)%R.
Proof. pose proof (sin2_cos2 a) as E; unfold Rsqr in E; lra. Qed.

Lemma inv_sqrt2_sq : (/ sqrt 2 * / sqrt 2 = / 2)%R.
Proof.
  rewrite <- Rinv_mult, sqrt_sqrt by lra; reflexivity.
Qed.

Ltac mat_crunch :=
  apply mat2_eq; simpl;
  unfold Cadd, Cmul, Copp, Cexp, C0, C1; simpl; apply C_eq.

Lemma RX_cancel (theta : R) : mat_mul (RXGate (- theta)) (RXGate theta) = mat_id.
Proof.
  unfold RXGate; rewrite half_neg, cos_neg, sin_neg.
  pose proof (cos_sin_sq (theta / 2)).
  mat_crunch; lra.
Qed.

Lemma RY_cancel (theta : R) : mat_mul (RYGate (- theta)) (RYGate theta) = mat_id.
Proof.
  unfold RYGate; rewrite half_neg, cos_neg, sin_neg.
  pose proof (cos_sin_sq (theta / 2)).
  mat_crunch; lra.
Qed.

Lemma RZ_cancel (theta : R) : mat_mul (RZGate (- theta)) (RZGate theta) = mat_id.
Proof.
  unfold RZGate; rewrite half_neg, Ropp_involutive.
  unfold Cexp; rewrite cos_neg, sin_neg.
  pose proof (cos_sin_sq (theta / 2)).
  mat_crunch; lra.
Qed.

Lemma H_cancel : mat_mul HGate HGate = mat_id.
Proof.
  pose proof inv_sqrt2_sq.
  unfold HGate; mat_crunch; lra.
Qed.

Lemma X_cancel : mat_mul XGate XGate = mat_id.
Proof. unfold XGate; mat_crunch; lra. Qed.

Lemma Z_cancel : mat_mul ZGate ZGate = mat_id.
Proof. unfold ZGate; mat_crunch; lra. Qed.

Lemma S_cancel : mat_mul SdgGate SGate = mat_id.
Proof. unfold SGate, SdgGate; mat_crunch; lra. Qed.

Lemma Sdg_cancel : mat_mul SGate SdgGate = mat_id.
Proof. unfold SGate, SdgGate; mat_crunch; lra. Qed.

(** ** Basis labels *)

Lemma upd_same (b : basis) q v : upd b q v q = v.
Proof. unfold upd; rewrite Nat.eqb_refl; reflexivity. Qed.

Lemma upd_other (b : basis) q v k : k <> q -> upd b q v k = b k.
Proof. intros Hk; unfold upd; apply Nat.eqb_neq in Hk; rewrite Hk; reflexivity. Qed.

Lemma upd_upd (b : basis) q v v' : upd (upd b q v) q v' = upd b q v'.
Proof.
  apply functional_extensionality; intros k; unfold upd.
  destruct (k =? q); reflexivity.
Qed.

Lemma upd_id (b : basis) q : upd b q (b q) = b.
Proof.
  apply functional_extensionality; intros k; unfold upd.
  destruct (Nat.eqb_spec k q); subst; reflexivity.
Qed.

Lemma upd_id_eq (b : basis) q v : b q = v -> upd b q v = b.
Proof. intros <-; apply upd_id. Qed.

Lemma upd_comm (b : basis) q q' v v' :
  q <> q' -> upd (upd b q v) q' v' = upd (upd b q' v') q v.
Proof.
  intros Hq; apply functional_extensionality; intros k; unfold upd.
  destruct (Nat.eqb_spec k q), (Nat.eqb_spec k q'); subst; congruence.
Qed.

(** ** Single-qubit operators and controlled-NOT *)

Lemma apply1_compose (U V : mat2) q psi :
  apply1 U q (apply1 V q psi) = apply1 (mat_mul U V) q psi.
Proof.
  apply functional_extensionality; intros b; unfold apply1.
  rewrite !upd_same, !upd_upd.
  destruct (b q); simpl; ring.
Qed.

Lemma apply1_id q psi : apply1 mat_id q psi = psi.
Proof.
  apply functional_extensionality; intros b; unfold apply1.
  destruct (b q) eqn:E; simpl; rewrite <- E, upd_id; ring.
Qed.

Lemma apply1_cancel (U V : mat2) q psi :
  mat_mul U V = mat_id -> apply1 U q (apply1 V q psi) = psi.
Proof. intros E; rewrite apply1_compose, E; apply apply1_id. Qed.

Lemma apply1_comm (U V : mat2) q q' psi :
  q <> q' -> apply1 U q (apply1 V q' psi) = apply1 V q' (apply1 U q psi).
Proof.
  intros Hq; apply functional_extensionality; intros b; unfold apply1.
  rewrite !(upd_other _ q'), !(upd_other _ q) by congruence.
  rewrite !(upd_comm _ q q') by assumption.
  ring.
Qed.

Lemma apply1_cx_comm (U : mat2) q c t psi :
  q <> c -> q <> t ->
  apply1 U q (apply_cx c t psi) = apply_cx c t (apply1 U q psi).
Proof.
  intros Hc Ht; apply functional_extensionality; intros b.
  unfold apply1, apply_cx.
  rewrite !(upd_other _ q) by congruence.
  destruct (b c) eqn:Ec.
  - rewrite ?(upd_other _ t) by congruence.
    rewrite !(upd_comm _ q t) by assumption; reflexivity.
  - reflexivity.
Qed.

Lemma cx_cx (c t : nat) psi : c <> t -> apply_cx c t (apply_cx c t psi) = psi.
Proof.
  intros Hct; apply functional_extensionality; intros b; unfold apply_cx.
  destruct (b c) eqn:Ec.
  - rewrite upd_other, Ec by assumption.
    rewrite upd_same, upd_upd, negb_involutive, upd_id; reflexivity.
  - rewrite Ec; reflexivity.
Qed.

Lemma cx_cx_comm (c t c' t' : nat) psi :
  c <> c' -> c <> t' -> t <> c' -> t <> t' ->
  apply_cx c t (apply_cx c' t' psi) = apply_cx c' t' (apply_cx c t psi).
Proof.
  intros H1 H2 H3 H4; apply functional_extensionality; intros b.
  unfold apply_cx.
  destruct (b c) eqn:Ec, (b c') eqn:Ec';
    rewrite ?(upd_other _ t) by congruence;
    rewrite ?(upd_other _ t') by congruence;
    rewrite ?Ec, ?Ec'; try reflexivity.
  rewrite (upd_comm _ t t') by assumption; reflexivity.
Qed.

(** ** Gate lists *)

Lemma run_gates_app l1 l2 psi :
  run_gates (l1 ++ l2) psi = run_gates l2 (run_gates l1 psi).
Proof. unfold run_gates; apply fold_left_app. Qed.

Lemma run_gates_cons g l psi :
  run_gates (g :: l) psi = run_gates l (gate_op g psi).
Proof. reflexivity. Qed.

Lemma decompose_app c1 c2 : decompose (c1 ++ c2) = decompose c1 ++ decompose c2.
Proof. unfold decompose; apply flat_map_app. Qed.

Lemma run_app c1 c2 psi : run (c1 ++ c2) psi = run c2 (run c1 psi).
Proof. unfold run; rewrite decompose_app; apply run_gates_app. Qed.

Lemma gate_cancel g psi : elementary g -> gate_op (dagger g) (gate_op g psi) = psi.
Proof.
  destruct g; simpl; intros Hg; try reflexivity; try contradiction;
    try (apply apply1_cancel;
         first [ apply RX_cancel | apply RY_cancel | apply RZ_cancel
               | apply H_cancel | apply X_cancel | apply Z_cancel
               | apply S_cancel | apply Sdg_cancel ]).
  apply cx_cx; assumption.
Qed.

Lemma dagger_elementary g : elementary g -> elementary (dagger g).
Proof. destruct g; simpl; auto. Qed.

Lemma dagger_involutive g : dagger (dagger g) = g.
Proof. destruct g; simpl; rewrite ?Ropp_involutive; reflexivity. Qed.

Lemma dagger_list_involutive l : dagger_list (dagger_list l) = l.
Proof.
  unfold dagger_list; rewrite map_rev, rev_involutive, map_map.
  induction l as [|g l IH]; simpl; [reflexivity|].
  rewrite dagger_involutive, IH; reflexivity.
Qed.

Lemma dagger_list_elementary l :
  Forall elementary l -> Forall elementary (dagger_list l).
Proof.
  intros Hl; unfold dagger_list; apply Forall_rev, Forall_map.
  eapply Forall_impl; [|exact Hl]; intros g; apply dagger_elementary.
Qed.

Lemma dagger_list_app l1 l2 :
  dagger_list (l1 ++ l2) = dagger_list l2 ++ dagger_list l1.
Proof. unfold dagger_list; rewrite map_app, rev_app_distr; reflexivity. Qed.

Lemma cancels_dagger l : Forall elementary l -> cancels l (dagger_list l).
Proof.
  induction 1 as [|g l Hg Hl IH]; intros psi; [reflexivity|].
  change (g :: l) with ([g] ++ l).
  rewrite dagger_list_app, !run_gates_app, IH.
  simpl; apply gate_cancel; assumption.
Qed.

Lemma cancels_dagger_rev l : Forall elementary l -> cancels (dagger_list l) l.
Proof.
  intros Hl; rewrite <- (dagger_list_involutive l) at 2.
  apply cancels_dagger, dagger_list_elementary, Hl.
Qed.

Lemma cancels_nil : cancels [] [].
Proof. intros psi; reflexivity. Qed.

Lemma cancels_app a a' b b' :
  cancels a a' -> cancels b b' -> cancels (a ++ b) (b' ++ a').
Proof.
  intros Ha Hb psi; rewrite !run_gates_app, Hb, Ha; reflexivity.
Qed.

Lemma cancels_concat_repeat s s' n :
  cancels s s' -> cancels (List.concat (repeat s n)) (List.concat (repeat s' n)).
Proof.
  intros Hs; induction n as [|n IH]; [apply cancels_nil|].
  simpl List.concat at 1.
  replace (List.concat (repeat s' (S n))) with (List.concat (repeat s' n) ++ s').
  - apply cancels_app; assumption.
  - clear; induction n as [|n IH]; simpl; [rewrite app_nil_r; reflexivity|].
    simpl in IH; rewrite <- app_assoc, IH; reflexivity.
Qed.

(** ** Commuting operators *)

Lemma commute_sym f g : commute f g -> commute g f.
Proof. intros Hc psi; symmetry; apply Hc. Qed.

Lemma commute_run_app f l1 l2 :
  commute f (run_gates l1) -> commute f (run_gates l2) ->
  commute f (run_gates (l1 ++ l2)).
Proof.
  intros H1 H2 psi; rewrite !run_gates_app, H2, H1; reflexivity.
Qed.

Lemma commute_run_flat_map {A : Type} f (g : A -> list instr) (l : list A) :
  (forall a, In a l -> commute f (run_gates (g a))) ->
  commute f (run_gates (flat_map g l)).
Proof.
  induction l as [|a l IH]; intros Hc; simpl.
  - intros psi; reflexivity.
  - apply commute_run_app; [apply Hc; left; reflexivity|].
    apply IH; intros a' Ha'; apply Hc; right; assumption.
Qed.

Lemma commute_run_list f l :
  (forall g, In g l -> commute f (gate_op g)) -> commute f (run_gates l).
Proof.
  induction l as [|g l IH]; intros Hc psi; [reflexivity|].
  rewrite !run_gates_cons, <- Hc by (left; reflexivity).
  apply IH; intros g' Hg'; apply Hc; right; assumption.
Qed.

Lemma gate_op_disjoint_comm g g' :
  elementary g -> elementary g' ->
  (forall q, In q (qubits g) -> ~ In q (qubits g')) ->
  commute (gate_op g) (gate_op g').
Proof.
  intros Hg Hg' Hd psi.
  destruct g; destruct g'; simpl in *; try contradiction; try reflexivity;
    first [ apply apply1_comm
          | apply apply1_cx_comm
          | symmetry; apply apply1_cx_comm
          | apply cx_cx_comm ];
    intros E; subst;
    match goal with
    | H : forall q, _ -> ~ _ |- _ =>
        solve [ eapply H; [left; reflexivity | simpl; auto]
              | eapply H; [right; left; reflexivity | simpl; auto] ]
    end.
Qed.

Lemma run_gates_disjoint_comm l l' :
  Forall elementary l -> Forall elementary l' ->
  (forall g g' q, In g l -> In g' l' -> In q (qubits g) -> ~ In q (qubits g')) ->
  commute (run_gates l) (run_gates l').
Proof.
  intros Hl Hl' Hd.
  apply commute_sym, commute_run_list; intros g Hg.
  apply commute_sym, commute_run_list; intros g' Hg'.
  rewrite Forall_forall in Hl, Hl'.
  apply gate_op_disjoint_comm; auto.
  intros q; apply Hd; assumption.
Qed.

(** Two layers emitted in the same order cancel when the matching entries
    cancel and entries of different positions commute. *)
Lemma cancels_same_order {A : Type} (f f' : A -> list instr) (l : list A) :
  NoDup l ->
  (forall a, In a l -> cancels (f a) (f' a)) ->
  (forall a a', In a l -> In a' l -> a <> a' ->
                commute (run_gates (f' a)) (run_gates (f a'))) ->
  cancels (flat_map f l) (flat_map f' l).
Proof.
  induction 1 as [|a l Ha Hl IH]; intros Hc Hcomm; [apply cancels_nil|].
  intros psi; simpl; rewrite !run_gates_app.
  assert (Hswap : commute (run_gates (f' a)) (run_gates (flat_map f l))).
  { apply commute_run_flat_map; intros a' Ha'.
    apply Hcomm; [left; reflexivity | right; assumption |].
    intros ->; contradiction. }
  rewrite Hswap, Hc by (left; reflexivity).
  apply IH.
  - intros a' Ha'; apply Hc; right; assumption.
  - intros a1 a2 H1 H2; apply Hcomm; right; assumption.
Qed.

(** ** Diagonal operators *)

Lemma diag_comm d d' : commute (diag d) (diag d').
Proof.
  intros psi; apply functional_extensionality; intros b; unfold diag; ring.
Qed.

Lemma zz_core_diag theta a b psi :
  a <> b ->
  run_gates [qc_cx a b; qc_rz theta b; qc_cx a b] psi
  = diag (zz_phase theta a b) psi.
Proof.
  intros Hab; apply functional_extensionality; intros x.
  unfold run_gates; simpl; unfold apply_cx at 1, apply1, diag, zz_phase.
  destruct (x a) eqn:Ea.
  - rewrite upd_same.
    unfold apply_cx; rewrite !upd_upd.
    rewrite !(upd_other _ b _ a), Ea by assumption.
    rewrite !upd_same; simpl.
    destruct (x b) eqn:Eb; simpl;
      rewrite (upd_id_eq _ _ _ Eb); ring.
  - unfold apply_cx.
    rewrite !(upd_other _ b _ a), Ea by assumption.
    destruct (x b) eqn:Eb; simpl;
      rewrite (upd_id_eq _ _ _ Eb); ring.
Qed.

(** ** Builder statements *)

Lemma emits_ret : emits (ret tt) [].
Proof. intros qc; unfold ret; rewrite app_nil_r; reflexivity. Qed.

Lemma emits_emit g : emits (emit g) [g].
Proof. intros qc; reflexivity. Qed.

Lemma emits_bind (a : Build unit) (b : unit -> Build unit) ga gb :
  emits a ga -> emits (b tt) gb -> emits (bind a b) (ga ++ gb).
Proof.
  intros Ha Hb qc; unfold bind; rewrite Ha, Hb, app_assoc; reflexivity.
Qed.

Lemma emits_getitem {A : Type} (l : list A) i v (k : A -> Build unit) gs :
  nth_error l i = Some v -> emits (k v) gs -> emits (bind (getitem l i) k) gs.
Proof.
  intros Hv Hk qc; unfold bind, getitem; rewrite Hv; apply Hk.
Qed.

Lemma emits_for {A : Type} (l : list A) (body : A -> Build unit) g :
  (forall a, In a l -> emits (body a) (g a)) ->
  emits (for_ l body) (flat_map g l).
Proof.
  induction l as [|a l IH]; intros Hb; simpl; [apply emits_ret|].
  apply emits_bind; [apply Hb; left; reflexivity|].
  apply IH; intros a' Ha'; apply Hb; right; assumption.
Qed.

Lemma flat_map_singleton {A B : Type} (g : A -> B) (l : list A) :
  flat_map (fun a => [g a]) l = map g l.
Proof. induction l as [|a l IH]; simpl; [|rewrite IH]; reflexivity. Qed.

Lemma flat_map_const {A B : Type} (s : list B) (l : list A) :
  flat_map (fun _ => s) l = List.concat (repeat s (List.length l)).
Proof. induction l as [|a l IH]; simpl; [|rewrite IH]; reflexivity. Qed.

Lemma emits_for_map {A : Type} (l : list A) (body : A -> Build unit) g :
  (forall a, In a l -> emits (body a) [g a]) ->
  emits (for_ l body) (map g l).
Proof. intros Hb; rewrite <- flat_map_singleton; apply emits_for, Hb. Qed.

Lemma emits_for_const {A : Type} (l : list A) (body : A -> Build unit) s :
  (forall a, In a l -> emits (body a) s) ->
  emits (for_ l body) (steps (List.length l) s).
Proof.
  intros Hb; unfold steps; rewrite <- flat_map_const; apply emits_for, Hb.
Qed.

Lemma emits_eq stmt gs gs' : emits stmt gs -> gs = gs' -> emits stmt gs'.
Proof. intros Hs <-; exact Hs. Qed.

Lemma length_range n : List.length (range n) = n.
Proof. apply length_seq. Qed.

Lemma in_range i n : In i (range n) <-> i < n.
Proof. unfold range; rewrite in_seq; lia. Qed.

Lemma brick_passes_emits self gate :
  emits (brick_passes self gate) (coupling_layer self gate (forward_order self)).
Proof.
  unfold brick_passes, coupling_layer, forward_order.
  rewrite map_app; simpl for_.
  eapply emits_eq.
  - apply emits_bind; [apply emits_for_map; intros; apply emits_emit|].
    apply emits_bind; [apply emits_for_map; intros; apply emits_emit|].
    apply emits_ret.
  - rewrite app_nil_r; reflexivity.
Qed.

Lemma brick_passes_reversed_emits self gate :
  emits (brick_passes_reversed self gate)
        (coupling_layer self gate (reversed_order self)).
Proof.
  unfold brick_passes_reversed, coupling_layer, reversed_order, reversed.
  rewrite map_app; simpl for_.
  eapply emits_eq.
  - apply emits_bind; [apply emits_for_map; intros; apply emits_emit|].
    apply emits_bind; [apply emits_for_map; intros; apply emits_emit|].
    apply emits_ret.
  - rewrite app_nil_r; reflexivity.
Qed.

Lemma rotation_layer_emits self (h : list R) (rot : R -> nat -> instr)
    (f : R -> R) :
  n_spins self <= List.length h ->
  emits (for_ (range (n_spins self)) (fun i =>
           v <- getitem h i ;; emit (rot (f v) i)))
        (rotation_layer self rot (fun i => f (nth i h 0%R))).
Proof.
  intros Hlen; unfold rotation_layer.
  apply emits_for_map; intros i Hi; apply in_range in Hi.
  eapply emits_getitem; [|apply emits_emit].
  apply nth_error_nth'; lia.
Qed.

Ltac emits_seq :=
  repeat first
    [ apply emits_emit
    | apply brick_passes_emits
    | apply brick_passes_reversed_emits
    | apply emits_ret
    | apply emits_bind ].

Section BuilderShapes.
Local Open Scope R_scope.
Variable self : HamiltonianKernel.

Lemma heisenberg_coupling_emits :
  emits (if use_XX_YY_ZZ_gates self then
           brick_passes self (xx_gate (tau self)) ;;
           brick_passes self (yy_gate (tau self)) ;;
           brick_passes self (zz_gate (tau self))
         else
           brick_passes self (xxyyzz_opt_gate (tau self)))
        (heisenberg_coupling self).
Proof.
  unfold heisenberg_coupling; destruct (use_XX_YY_ZZ_gates self); emits_seq.
Qed.

Lemma heisenberg_coupling_inverse_emits :
  emits (if use_XX_YY_ZZ_gates self then
           brick_passes self (zz_gate_mirror (tau self)) ;;
           brick_passes_reversed self (yy_gate_mirror (tau self)) ;;
           brick_passes self (xx_gate_mirror (tau self))
         else
           brick_passes_reversed self (xxyyzz_opt_gate_mirror (tau self)))
        (heisenberg_coupling_inverse self).
Proof.
  unfold heisenberg_coupling_inverse; destruct (use_XX_YY_ZZ_gates self); emits_seq.
Qed.

Lemma heisenberg_create_hamiltonian_emits :
  fields_cover self ->
  emits (Heisenberg.create_hamiltonian_body self)
        (steps (K self) (heisenberg_step self)).
Proof.
  intros Hc; unfold Heisenberg.create_hamiltonian_body.
  eapply emits_eq;
    [apply emits_for_const; intros k _ | rewrite length_range; reflexivity].
  destruct Hc as [Hx Hz].
  eapply emits_eq.
  - apply emits_bind.
    { apply (rotation_layer_emits self (h_x self) qc_rx
               (fun v => 2 * tau self * w self * v) Hx). }
    apply emits_bind.
    { apply (rotation_layer_emits self (h_z self) qc_rz
               (fun v => 2 * tau self * w self * v) Hz). }
    apply emits_bind; [apply emits_emit|].
    apply emits_bind; [apply heisenberg_coupling_emits | apply emits_emit].
  - unfold heisenberg_step, heisenberg_fields, hx_at, hz_at.
    rewrite <- !app_assoc; reflexivity.
Qed.

Lemma heisenberg_create_inverse_hamiltonian_emits :
  fields_cover self ->
  emits (Heisenberg.create_inverse_hamiltonian_body self)
        (steps (K self) (heisenberg_inverse_step self)).
Proof.
  intros Hc; unfold Heisenberg.create_inverse_hamiltonian_body.
  eapply emits_eq;
    [apply emits_for_const; intros k _ | rewrite length_range; reflexivity].
  destruct Hc as [Hx Hz].
  eapply emits_eq.
  - apply emits_bind; [apply heisenberg_coupling_inverse_emits|].
    apply emits_bind; [apply emits_emit|].
    apply emits_bind.
    { apply (rotation_layer_emits self (h_z self) qc_rz
               (fun v => -2 * tau self * w self * v) Hz). }
    apply emits_bind.
    { apply (rotation_layer_emits self (h_x self) qc_rx
               (fun v => -2 * tau self * w self * v) Hx). }
    apply emits_emit.
  - unfold heisenberg_inverse_step, heisenberg_fields_inverse, hx_at, hz_at.
    rewrite <- !app_assoc; reflexivity.
Qed.

Lemma tfim_rotation_emits (angle : R) :
  emits (for_ (range (n_spins self)) (fun i => emit (qc_rx angle i)))
        (rotation_layer self qc_rx (fun _ => angle)).
Proof. apply emits_for_map; intros; apply emits_emit. Qed.

Lemma tfim_create_hamiltonian_emits :
  emits (Tfim.create_hamiltonian_body self) (steps (K self) (tfim_step self)).
Proof.
  unfold Tfim.create_hamiltonian_body.
  eapply emits_eq;
    [apply emits_for_const; intros k _ | rewrite length_range; reflexivity].
  eapply emits_eq.
  - apply emits_bind; [apply tfim_rotation_emits|].
    apply emits_bind; [apply emits_emit|].
    apply emits_bind; [apply brick_passes_emits | apply emits_emit].
  - reflexivity.
Qed.

Lemma tfim_create_inverse_hamiltonian_emits :
  emits (Tfim.create_inverse_hamiltonian_body self)
        (steps (K self) (tfim_inverse_step self)).
Proof.
  unfold Tfim.create_inverse_hamiltonian_body.
  eapply emits_eq;
    [apply emits_for_const; intros k _ | rewrite length_range; reflexivity].
  eapply emits_eq.
  - apply emits_bind; [apply brick_passes_emits|].
    apply emits_bind; [apply emits_emit|].
    apply emits_bind; [apply tfim_rotation_emits | apply emits_emit].
  - reflexivity.
Qed.

Lemma tfim_create_quasi_inverse_hamiltonian_emits :
  emits (Tfim.create_quasi_inverse_hamiltonian_body self)
        (steps (K self) (tfim_inverse_step self)).
Proof. exact tfim_create_inverse_hamiltonian_emits. Qed.

End BuilderShapes.

Lemma emits_gates name body gs : emits body gs -> build name body = Ok (name, gs).
Proof. intros H; unfold build; rewrite (H []); reflexivity. Qed.

(** ** Brick passes *)

Lemma in_range3_2 i start stop :
  In i (range3 start stop 2) ->
  start <= i /\ i < stop /\ exists k, i = start + 2 * k.
Proof.
  unfold range3; rewrite in_map_iff; intros [k [<- Hk]].
  apply in_seq in Hk.
  assert (2 * k + 2 <= stop - start + 1).
  { pose proof (Nat.div_mod_eq (stop - start + (2 - 1)) 2) as E.
    pose proof (Nat.mod_upper_bound (stop - start + (2 - 1)) 2).
    simpl Nat.sub in *. lia. }
  repeat split; try lia.
  exists k; lia.
Qed.

Lemma NoDup_map_injective {A B : Type} (f : A -> B) (l : list A) :
  (forall a a', f a = f a' -> a = a') -> NoDup l -> NoDup (map f l).
Proof.
  intros Hf; induction 1 as [|a l Ha Hl IH]; simpl; constructor; [|exact IH].
  rewrite in_map_iff; intros [a' [E Ha']].
  apply Hf in E; subst; contradiction.
Qed.

Lemma NoDup_range3_2 start stop : NoDup (range3 start stop 2).
Proof.
  unfold range3; apply NoDup_map_injective.
  - intros k k' E; lia.
  - apply seq_NoDup.
Qed.

Lemma in_pass self j i : In i (pass self j) -> i + 1 < n_spins self.
Proof. unfold pass; intros Hi; apply in_range3_2 in Hi; lia. Qed.

Lemma in_forward_order self i :
  In i (forward_order self) -> i + 1 < n_spins self.
Proof.
  unfold forward_order; rewrite in_app_iff; intros [Hi|Hi];
    eapply in_pass; eassumption.
Qed.

Lemma NoDup_forward_order self : NoDup (forward_order self).
Proof.
  unfold forward_order, pass.
  apply NoDup_app.
  - apply NoDup_range3_2.
  - apply NoDup_range3_2.
  - intros i H0 H1.
    apply in_range3_2 in H0 as (_ & _ & k0 & E0).
    apply in_range3_2 in H1 as (_ & _ & k1 & E1).
    simpl Nat.modulo in *; lia.
Qed.

Lemma reversed_order_rev self : reversed_order self = rev (forward_order self).
Proof. unfold reversed_order, forward_order; rewrite rev_app_distr; reflexivity. Qed.

Lemma pair_at_inner self i :
  i + 1 < n_spins self -> pair_at self i = [i; i + 1].
Proof. intros Hi; unfold pair_at; rewrite Nat.mod_small by lia; reflexivity. Qed.

Lemma block_on_pair self gate i :
  i + 1 < n_spins self -> block self gate i = on_pair (data gate) i (i + 1).
Proof.
  intros Hi; unfold block, to_instruction, on_pair.
  rewrite pair_at_inner by assumption; reflexivity.
Qed.

Lemma flat_map_map_comp {A B D : Type} (f : B -> list D) (g : A -> B) l :
  flat_map f (map g l) = flat_map (fun a => f (g a)) l.
Proof. induction l as [|a l IH]; simpl; [|rewrite IH]; reflexivity. Qed.

Lemma decompose_coupling_layer self gate order :
  decompose (coupling_layer self gate order) = flat_map (block self gate) order.
Proof.
  unfold decompose, coupling_layer; rewrite flat_map_map_comp; reflexivity.
Qed.

Lemma decompose_steps k step : decompose (steps k step) = steps k (decompose step).
Proof.
  unfold steps; induction k as [|k IH]; simpl; [reflexivity|].
  rewrite decompose_app, IH; reflexivity.
Qed.

Lemma cancels_reverse_order {A : Type} (f f' : A -> list instr) (l : list A) :
  (forall a, In a l -> cancels (f a) (f' a)) ->
  cancels (flat_map f l) (flat_map f' (rev l)).
Proof.
  induction l as [|a l IH]; intros Hc; [apply cancels_nil|].
  simpl; rewrite flat_map_app; simpl; rewrite app_nil_r.
  apply cancels_app; [apply Hc; left; reflexivity|].
  apply IH; intros a' Ha'; apply Hc; right; assumption.
Qed.

(** ** The coupling blocks and their mirrors *)

Ltac angles := repeat (f_equal; try lra).

Ltac all_elementary :=
  repeat constructor; simpl; auto.

Lemma cancels_single g : elementary g -> cancels [g] [dagger g].
Proof. intros Hg psi; apply gate_cancel, Hg. Qed.

Lemma cancels_two g1 g2 g1' g2' :
  cancels [g1] [g1'] -> cancels [g2] [g2'] ->
  commute (gate_op g1') (gate_op g2) ->
  cancels [g1; g2] [g1'; g2'].
Proof.
  intros H1 H2 Hc psi.
  change (gate_op g2' (gate_op g1' (gate_op g2 (gate_op g1 psi))) = psi).
  rewrite Hc; etransitivity; [apply (H2 (gate_op g1' (gate_op g1 psi)))|apply H1].
Qed.

Section Blocks.
Local Open Scope R_scope.
Variables (a b : nat) (tau : R).
Hypothesis Hab : a <> b.

Lemma zz_mirror_dagger :
  on_pair (data (zz_gate_mirror tau)) a b
  = dagger_list (on_pair (data (zz_gate tau)) a b).
Proof. unfold dagger_list; simpl; angles. Qed.

Lemma xxyyzz_mirror_dagger :
  on_pair (data (xxyyzz_opt_gate_mirror tau)) a b
  = dagger_list (on_pair (data (xxyyzz_opt_gate tau)) a b).
Proof. unfold dagger_list; simpl; angles. Qed.

Lemma zz_elementary : Forall elementary (on_pair (data (zz_gate tau)) a b).
Proof using Hab. all_elementary. Qed.

Lemma xxyyzz_elementary :
  Forall elementary (on_pair (data (xxyyzz_opt_gate tau)) a b).
Proof using Hab. all_elementary. Qed.

Lemma zz_cancels :
  cancels (on_pair (data (zz_gate tau)) a b)
          (on_pair (data (zz_gate_mirror tau)) a b).
Proof using Hab. rewrite zz_mirror_dagger; apply cancels_dagger, zz_elementary. Qed.

Lemma xxyyzz_cancels :
  cancels (on_pair (data (xxyyzz_opt_gate tau)) a b)
          (on_pair (data (xxyyzz_opt_gate_mirror tau)) a b).
Proof using Hab.
  rewrite xxyyzz_mirror_dagger; apply cancels_dagger, xxyyzz_elementary.
Qed.

Lemma xxyyzz_cancels_rev :
  cancels (on_pair (data (xxyyzz_opt_gate_mirror tau)) a b)
          (on_pair (data (xxyyzz_opt_gate tau)) a b).
Proof using Hab.
  rewrite xxyyzz_mirror_dagger; apply cancels_dagger_rev, xxyyzz_elementary.
Qed.

(** Hadamards on both wires undo themselves, and so do the phase gates. *)
Lemma hh_cancels : cancels [qc_h a; qc_h b] [qc_h a; qc_h b].
Proof using Hab.
  apply cancels_two; try (apply (cancels_single (qc_h _)); exact I).
  apply gate_op_disjoint_comm; simpl; auto.
  intros q [<-|[]] [E|[]]; congruence.
Qed.

Lemma s_sdg_cancels : cancels [qc_s a; qc_s b] [qc_sdg a; qc_sdg b].
Proof using Hab.
  apply cancels_two; try (apply (cancels_single (qc_s _)); exact I).
  apply gate_op_disjoint_comm; simpl; auto.
  intros q [<-|[]] [E|[]]; congruence.
Qed.

Lemma sdg_s_cancels : cancels [qc_sdg a; qc_sdg b] [qc_s a; qc_s b].
Proof using Hab.
  apply cancels_two; try (apply (cancels_single (qc_sdg _)); exact I).
  apply gate_op_disjoint_comm; simpl; auto.
  intros q [<-|[]] [E|[]]; congruence.
Qed.

Lemma xx_cancels :
  cancels (on_pair (data (xx_gate tau)) a b)
          (on_pair (data (xx_gate_mirror tau)) a b).
Proof using Hab.
  change (cancels ([qc_h a; qc_h b]
                   ++ on_pair (data (zz_gate tau)) a b ++ [qc_h a; qc_h b])
                  (([qc_h a; qc_h b]
                    ++ on_pair (data (zz_gate_mirror tau)) a b)
                   ++ [qc_h a; qc_h b])).
  apply cancels_app; [apply hh_cancels|].
  apply cancels_app; [apply zz_cancels | apply hh_cancels].
Qed.

Lemma yy_cancels :
  cancels (on_pair (data (yy_gate tau)) a b)
          (on_pair (data (yy_gate_mirror tau)) a b).
Proof using Hab.
  change (cancels ([qc_s a; qc_s b]
                   ++ on_pair (data (xx_gate tau)) a b ++ [qc_sdg a; qc_sdg b])
                  (([qc_s a; qc_s b]
                    ++ on_pair (data (xx_gate_mirror tau)) a b)
                   ++ [qc_sdg a; qc_sdg b])).
  apply cancels_app; [apply s_sdg_cancels|].
  apply cancels_app; [apply xx_cancels | apply sdg_s_cancels].
Qed.

Lemma zz_run psi :
  run_gates (on_pair (data (zz_gate tau)) a b) psi
  = diag (zz_phase (PI * tau) a b) psi.
Proof using Hab. apply zz_core_diag, Hab. Qed.

Lemma zz_mirror_run psi :
  run_gates (on_pair (data (zz_gate_mirror tau)) a b) psi
  = diag (zz_phase (- PI * tau) a b) psi.
Proof using Hab. apply zz_core_diag, Hab. Qed.

Lemma xx_run psi :
  run_gates (on_pair (data (xx_gate tau)) a b) psi
  = apply1 HGate b (apply1 HGate a
      (diag (zz_phase (PI * tau) a b)
         (apply1 HGate b (apply1 HGate a psi)))).
Proof using Hab.
  rewrite <- (zz_core_diag _ _ _ _ Hab); reflexivity.
Qed.

Lemma xx_mirror_run psi :
  run_gates (on_pair (data (xx_gate_mirror tau)) a b) psi
  = apply1 HGate b (apply1 HGate a
      (diag (zz_phase (- PI * tau) a b)
         (apply1 HGate b (apply1 HGate a psi)))).
Proof using Hab.
  rewrite <- (zz_core_diag _ _ _ _ Hab); reflexivity.
Qed.

End Blocks.

(** ** XX blocks on overlapping pairs commute *)

Lemma apply1_diag_comm U q d psi :
  (forall x v, d (upd x q v) = d x) ->
  apply1 U q (diag d psi) = diag d (apply1 U q psi).
Proof.
  intros Hd; apply functional_extensionality; intros x.
  unfold apply1, diag; rewrite !Hd; ring.
Qed.

Lemma zz_phase_other theta a b q x v :
  q <> a -> q <> b -> zz_phase theta a b (upd x q v) = zz_phase theta a b x.
Proof.
  intros Ha Hb; unfold zz_phase; rewrite !upd_other by congruence; reflexivity.
Qed.

Lemma hh q psi : apply1 HGate q (apply1 HGate q psi) = psi.
Proof. apply apply1_cancel, H_cancel. Qed.

Lemma hadamard3_involutive a b c psi :
  a <> b -> a <> c -> b <> c ->
  hadamard3 a b c (hadamard3 a b c psi) = psi.
Proof.
  intros Hab Hac Hbc; unfold hadamard3.
  rewrite (apply1_comm HGate HGate c a) by congruence.
  rewrite (apply1_comm HGate HGate c b) by congruence.
  rewrite hh.
  rewrite (apply1_comm HGate HGate b a) by congruence.
  rewrite !hh; reflexivity.
Qed.

(** An XX block seen from a third qubit [r]: Hadamards on all three wires
    around the same parity phase. *)
Lemma xx_op_third p q r theta psi :
  p <> q -> r <> p -> r <> q ->
  xx_op p q theta psi
  = apply1 HGate r (apply1 HGate q (apply1 HGate p
      (diag (zz_phase theta p q)
         (apply1 HGate r (apply1 HGate q (apply1 HGate p psi)))))).
Proof.
  intros Hpq Hrp Hrq; unfold xx_op.
  rewrite <- (apply1_diag_comm HGate r)
    by (intros; apply zz_phase_other; assumption).
  rewrite (apply1_comm HGate HGate p r) by congruence.
  rewrite (apply1_comm HGate HGate q r) by congruence.
  rewrite hh; reflexivity.
Qed.

Lemma xx_op_left a b c theta psi :
  a <> b -> a <> c -> b <> c ->
  xx_op a b theta psi
  = hadamard3 a b c (diag (zz_phase theta a b) (hadamard3 a b c psi)).
Proof.
  intros Hab Hac Hbc.
  rewrite (xx_op_third a b c) by congruence.
  unfold hadamard3.
  rewrite !(apply1_comm HGate HGate c b) by congruence.
  rewrite !(apply1_comm HGate HGate c a) by congruence.
  rewrite !(apply1_comm HGate HGate b a) by congruence.
  reflexivity.
Qed.

Lemma xx_op_right a b c theta psi :
  a <> b -> a <> c -> b <> c ->
  xx_op b c theta psi
  = hadamard3 a b c (diag (zz_phase theta b c) (hadamard3 a b c psi)).
Proof.
  intros Hab Hac Hbc.
  rewrite (xx_op_third b c a) by congruence.
  unfold hadamard3.
  rewrite !(apply1_comm HGate HGate c b) by congruence.
  reflexivity.
Qed.

Lemma xx_op_commute_adjacent a b c theta phi :
  a <> b -> a <> c -> b <> c ->
  commute (xx_op a b theta) (xx_op b c phi).
Proof.
  intros Hab Hac Hbc psi.
  rewrite (xx_op_left a b c theta), (xx_op_right a b c phi) by assumption.
  rewrite (xx_op_right a b c phi), (xx_op_left a b c theta) by assumption.
  rewrite !hadamard3_involutive by assumption.
  rewrite diag_comm; reflexivity.
Qed.

(** ** Layers that cancel *)

Lemma single_qubit_gates_commute g g' q q' :
  elementary g -> elementary g' -> qubits g = [q] -> qubits g' = [q'] ->
  q <> q' -> commute (run_gates [g]) (run_gates [g']).
Proof.
  intros Hg Hg' Eq Eq' Hqq.
  apply run_gates_disjoint_comm; try (repeat constructor; assumption).
  intros g1 g2 k [<-|[]] [<-|[]]; rewrite Eq, Eq'.
  intros [<-|[]] [E|[]]; congruence.
Qed.

Section Layers.
Local Open Scope R_scope.
Variable self : HamiltonianKernel.

Lemma rx_layer_cancels angle angle' :
  (forall i, angle' i = - angle i) ->
  cancels (decompose (rotation_layer self qc_rx angle))
          (decompose (rotation_layer self qc_rx angle')).
Proof.
  intros Ha; unfold decompose, rotation_layer.
  rewrite !flat_map_map_comp.
  apply cancels_same_order.
  - apply seq_NoDup.
  - intros i _; simpl; rewrite Ha.
    apply (cancels_single (qc_rx (angle i) i)); exact I.
  - intros i j _ _ Hij; simpl.
    eapply single_qubit_gates_commute; simpl; eauto.
Qed.

Lemma rz_layer_cancels angle angle' :
  (forall i, angle' i = - angle i) ->
  cancels (decompose (rotation_layer self qc_rz angle))
          (decompose (rotation_layer self qc_rz angle')).
Proof.
  intros Ha; unfold decompose, rotation_layer.
  rewrite !flat_map_map_comp.
  apply cancels_same_order.
  - apply seq_NoDup.
  - intros i _; simpl; rewrite Ha.
    apply (cancels_single (qc_rz (angle i) i)); exact I.
  - intros i j _ _ Hij; simpl.
    eapply single_qubit_gates_commute; simpl; eauto.
Qed.

Lemma zz_layer_cancels :
  cancels (decompose (coupling_layer self (zz_gate (tau self)) (forward_order self)))
          (decompose (coupling_layer self (zz_gate_mirror (tau self))
                        (forward_order self))).
Proof.
  rewrite !decompose_coupling_layer.
  apply cancels_same_order.
  - apply NoDup_forward_order.
  - intros i Hi; apply in_forward_order in Hi.
    rewrite !block_on_pair by assumption.
    apply zz_cancels; lia.
  - intros i j Hi Hj _ psi.
    apply in_forward_order in Hi; apply in_forward_order in Hj.
    rewrite !block_on_pair by assumption.
    rewrite !zz_run, !zz_mirror_run by lia.
    apply diag_comm.
Qed.

Lemma yy_layer_cancels :
  cancels (decompose (coupling_layer self (yy_gate (tau self)) (forward_order self)))
          (decompose (coupling_layer self (yy_gate_mirror (tau self))
                        (reversed_order self))).
Proof.
  rewrite !decompose_coupling_layer, reversed_order_rev.
  apply cancels_reverse_order.
  intros i Hi; apply in_forward_order in Hi.
  rewrite !block_on_pair by assumption.
  apply yy_cancels; lia.
Qed.

Lemma xxyyzz_layer_cancels :
  cancels (decompose (coupling_layer self (xxyyzz_opt_gate (tau self))
                        (forward_order self)))
          (decompose (coupling_layer self (xxyyzz_opt_gate_mirror (tau self))
                        (reversed_order self))).
Proof.
  rewrite !decompose_coupling_layer, reversed_order_rev.
  apply cancels_reverse_order.
  intros i Hi; apply in_forward_order in Hi.
  rewrite !block_on_pair by assumption.
  apply xxyyzz_cancels; lia.
Qed.

Lemma xx_blocks_disjoint_commute a b c d t1 t2 :
  a <> b -> c <> d -> a <> c -> a <> d -> b <> c -> b <> d ->
  commute (run_gates (on_pair (data (xx_gate_mirror t1)) a b))
          (run_gates (on_pair (data (xx_gate t2)) c d)).
Proof.
  intros Hab Hcd Hac Had Hbc Hbd.
  apply run_gates_disjoint_comm; try all_elementary.
  intros g g' q Hg Hg' Hq Hq'.
  assert (Hl : q = a \/ q = b).
  { simpl in Hg; repeat destruct Hg as [<-|Hg]; simpl in Hq; intuition. }
  assert (Hr : q = c \/ q = d).
  { simpl in Hg'; repeat destruct Hg' as [<-|Hg']; simpl in Hq'; intuition. }
  destruct Hl, Hr; congruence.
Qed.

Lemma xx_layer_cancels :
  cancels (decompose (coupling_layer self (xx_gate (tau self)) (forward_order self)))
          (decompose (coupling_layer self (xx_gate_mirror (tau self))
                        (forward_order self))).
Proof.
  rewrite !decompose_coupling_layer.
  apply cancels_same_order.
  - apply NoDup_forward_order.
  - intros i Hi; apply in_forward_order in Hi.
    rewrite !block_on_pair by assumption.
    apply xx_cancels; lia.
  - intros i j Hi Hj Hij psi.
    apply in_forward_order in Hi; apply in_forward_order in Hj.
    rewrite !block_on_pair by assumption.
    destruct (Nat.eq_dec j (i + 1)) as [->|Hj1];
      [|destruct (Nat.eq_dec i (j + 1)) as [->|Hi1]].
    + rewrite !xx_run, !xx_mirror_run by lia.
      apply xx_op_commute_adjacent; lia.
    + rewrite !xx_run, !xx_mirror_run by lia.
      symmetry; apply xx_op_commute_adjacent; lia.
    + apply xx_blocks_disjoint_commute; lia.
Qed.

End Layers.

(** ** One Trotter step and its inverse *)

Lemma run_barrier psi : run_gates [qc_barrier] psi = psi.
Proof. reflexivity. Qed.

Lemma cancels_around_barriers fields fields' coupling coupling' :
  cancels fields fields' -> cancels coupling coupling' ->
  cancels (fields ++ [qc_barrier] ++ coupling ++ [qc_barrier])
          (coupling' ++ [qc_barrier] ++ fields' ++ [qc_barrier]).
Proof.
  intros Hf Hc psi; rewrite !run_gates_app.
  rewrite !run_barrier, Hc, Hf; reflexivity.
Qed.

Lemma decompose_step fields coupling :
  decompose (fields ++ [qc_barrier] ++ coupling ++ [qc_barrier])
  = decompose fields ++ [qc_barrier] ++ decompose coupling ++ [qc_barrier].
Proof. rewrite !decompose_app; reflexivity. Qed.

Section Steps.
Local Open Scope R_scope.
Variable self : HamiltonianKernel.

Lemma heisenberg_fields_cancel :
  cancels (decompose (heisenberg_fields self))
          (decompose (heisenberg_fields_inverse self)).
Proof.
  unfold heisenberg_fields, heisenberg_fields_inverse.
  rewrite !decompose_app.
  apply cancels_app; [apply rx_layer_cancels | apply rz_layer_cancels];
    intros i; lra.
Qed.

Lemma heisenberg_coupling_cancel :
  cancels (decompose (heisenberg_coupling self))
          (decompose (heisenberg_coupling_inverse self)).
Proof.
  unfold heisenberg_coupling, heisenberg_coupling_inverse.
  destruct (use_XX_YY_ZZ_gates self).
  - rewrite !decompose_app.
    rewrite (app_assoc (decompose (coupling_layer self (zz_gate_mirror _) _))).
    apply cancels_app; [apply xx_layer_cancels|].
    apply cancels_app; [apply yy_layer_cancels | apply zz_layer_cancels].
  - apply xxyyzz_layer_cancels.
Qed.

Lemma heisenberg_step_cancel :
  cancels (decompose (heisenberg_step self))
          (decompose (heisenberg_inverse_step self)).
Proof.
  unfold heisenberg_step, heisenberg_inverse_step.
  rewrite !decompose_step.
  apply cancels_around_barriers;
    [apply heisenberg_fields_cancel | apply heisenberg_coupling_cancel].
Qed.

Lemma tfim_step_cancel :
  cancels (decompose (tfim_step self)) (decompose (tfim_inverse_step self)).
Proof.
  unfold tfim_step, tfim_inverse_step.
  rewrite !decompose_step.
  apply cancels_around_barriers; [|apply zz_layer_cancels].
  apply rx_layer_cancels; intros i; lra.
Qed.

Lemma steps_cancel k step step' :
  cancels (decompose step) (decompose step') ->
  forall psi, run (steps k step ++ steps k step') psi = psi.
Proof.
  intros Hs psi; rewrite run_app; unfold run; rewrite !decompose_steps.
  apply cancels_concat_repeat, Hs.
Qed.

End Steps.

Lemma identity_is_up_to_phase (U : state -> state) :
  (forall psi, U psi = psi) -> identity_up_to_phase U.
Proof.
  intros HU; exists 0%R; intros psi b; rewrite HU.
  unfold Cexp; rewrite cos_0, sin_0; fold C1; ring.
Qed.

(** Forward evolution followed by the exact inverse gives every state back
    unchanged, whatever the chain length and the number of steps. *)
Lemma heisenberg_forward_inverse_exact self :
  fields_cover self ->
  forall psi,
    run (gates (Heisenberg.create_hamiltonian self)
         ++ gates (Heisenberg.create_inverse_hamiltonian self)) psi = psi.
Proof.
  intros Hc psi.
  unfold Heisenberg.create_hamiltonian, Heisenberg.create_inverse_hamiltonian.
  rewrite (emits_gates _ _ _ (heisenberg_create_hamiltonian_emits self Hc)).
  rewrite (emits_gates _ _ _ (heisenberg_create_inverse_hamiltonian_emits self Hc)).
  apply steps_cancel, heisenberg_step_cancel.
Qed.

Lemma tfim_forward_inverse_exact self :
  forall psi,
    run (gates (Tfim.create_hamiltonian self)
         ++ gates (Tfim.create_inverse_hamiltonian self)) psi = psi.
Proof.
  intros psi.
  unfold Tfim.create_hamiltonian, Tfim.create_inverse_hamiltonian.
  rewrite (emits_gates _ _ _ (tfim_create_hamiltonian_emits self)).
  rewrite (emits_gates _ _ _ (tfim_create_inverse_hamiltonian_emits self)).
  apply steps_cancel, tfim_step_cancel.
Qed.

(** ** The quasi-inverse builder *)

Section QuasiInverseShape.
Local Open Scope R_scope.
Variables (self : HamiltonianKernel) (coin : nat -> bool).

Lemma random_paulis_list_tags :
  random_paulis_list coin self = map (tag coin) (range (n_spins self)).
Proof.
  unfold random_paulis_list.
  induction (range (n_spins self)) as [|i l IH]; simpl; [reflexivity|].
  rewrite IH; unfold tag; destruct (coin i); reflexivity.
Qed.

Lemma enumerate_map_seq {A : Type} (f : nat -> A) start len :
  combine (seq start (List.length (map f (seq start len)))) (map f (seq start len))
  = map (fun i => (i, f i)) (seq start len).
Proof.
  rewrite length_map, length_seq.
  revert start; induction len as [|len IH]; intros start; simpl;
    [|rewrite IH]; reflexivity.
Qed.

Lemma leading_twirl_emits :
  emits (for_ (enumerate (random_paulis_list coin self)) (fun ig =>
           let '(i, gate) := ig in
           if (gate =? "x")%string then emit (qc_x i) else emit (qc_z i)))
        (leading_twirl self coin).
Proof.
  rewrite random_paulis_list_tags; unfold enumerate, range.
  rewrite enumerate_map_seq; unfold leading_twirl, range.
  rewrite <- (map_map (fun i => (i, tag coin i))
                      (fun ig => twirl_gate coin (fst ig))).
  apply emits_for_map; intros [i gate] Hin.
  apply in_map_iff in Hin as [i' [E _]]; inversion E; subst.
  unfold tag, twirl_gate; simpl; destruct (coin i); apply emits_emit.
Qed.

Lemma getitem_tag i :
  (i < n_spins self)%nat ->
  nth_error (random_paulis_list coin self) i = Some (tag coin i).
Proof.
  intros Hi; rewrite random_paulis_list_tags; unfold range.
  rewrite nth_error_map, nth_error_seq.
  destruct (Nat.ltb_spec i (n_spins self)); [reflexivity | lia].
Qed.

Lemma boundary_twirl_emits q :
  (q < n_spins self)%nat ->
  emits (Heisenberg.boundary_twirl (random_paulis_list coin self) q)
        [twirl_gate coin q].
Proof.
  intros Hq; unfold Heisenberg.boundary_twirl.
  eapply emits_eq.
  - apply emits_bind.
    + eapply emits_getitem; [apply getitem_tag, Hq|].
      instantiate (1 := if coin q then [qc_x q] else []).
      unfold tag; destruct (coin q); simpl; [apply emits_emit | apply emits_ret].
    + eapply emits_getitem; [apply getitem_tag, Hq|].
      instantiate (1 := if coin q then [] else [qc_z q]).
      unfold tag; destruct (coin q); simpl; [apply emits_ret | apply emits_emit].
  - unfold twirl_gate; destruct (coin q); reflexivity.
Qed.

Lemma boundary_twirl_gates_emit :
  (1 <= n_spins self)%nat ->
  emits (when (n_spins self mod 2 =? 1)%nat
           (Heisenberg.boundary_twirl (random_paulis_list coin self) 0%nat) ;;
         when (n_spins self mod 2 =? 0)%nat
           (Heisenberg.boundary_twirl (random_paulis_list coin self) 0%nat ;;
            Heisenberg.boundary_twirl (random_paulis_list coin self)
              (n_spins self - 1)%nat))
        (boundary_twirl_gates self coin).
Proof.
  intros Hn; unfold boundary_twirl_gates.
  pose proof (Nat.mod_upper_bound (n_spins self) 2).
  destruct (Nat.eqb_spec (n_spins self mod 2) 1) as [E|E].
  - rewrite E; simpl.
    apply (emits_bind _ _ [twirl_gate coin 0%nat] []);
      [apply boundary_twirl_emits; lia | apply emits_ret].
  - replace (n_spins self mod 2)%nat with 0%nat by lia; simpl.
    apply (emits_bind _ _ [] [twirl_gate coin 0%nat; twirl_gate coin (n_spins self - 1)%nat]);
      [apply emits_ret|].
    apply (emits_bind _ _ [twirl_gate coin 0%nat] [twirl_gate coin (n_spins self - 1)%nat]);
      apply boundary_twirl_emits; lia.
Qed.

Lemma quasi_mirror_layer_emits :
  emits (for_ (reversed (range3 (1 mod 2) (n_spins self - 1) 2)) (fun i =>
           gate_i <- getitem (random_paulis_list coin self) i ;;
           gate_next <- getitem (random_paulis_list coin self)
                          ((i + 1) mod n_spins self)%nat ;;
           emit (to_instruction
                   (xxyyzz_opt_gate_quasi_mirror (tau self) gate_i gate_next)
                   (pair_at self i))))
        (quasi_mirror_layer self coin (rev (pass self 1))).
Proof.
  unfold quasi_mirror_layer, reversed.
  apply emits_for_map; intros i Hi.
  apply in_rev in Hi; apply (in_pass self 1) in Hi.
  eapply emits_getitem; [apply getitem_tag; lia|].
  eapply emits_getitem; [apply getitem_tag, Nat.mod_upper_bound; lia|].
  apply emits_emit.
Qed.

End QuasiInverseShape.

Section QuasiInverseBody.
Local Open Scope R_scope.
Variables (self : HamiltonianKernel) (coin : nat -> bool).
Hypothesis Hcover : fields_cover self.

Lemma fields_inverse_tail_emits :
  emits (emit qc_barrier ;;
         for_ (range (n_spins self)) (fun i =>
           hz <- getitem (h_z self) i ;;
           emit (qc_rz (-2 * tau self * w self * hz) i)) ;;
         for_ (range (n_spins self)) (fun i =>
           hx <- getitem (h_x self) i ;;
           emit (qc_rx (-2 * tau self * w self * hx) i)) ;;
         emit qc_barrier)
        ([qc_barrier] ++ heisenberg_fields_inverse self ++ [qc_barrier]).
Proof using Hcover.
  destruct Hcover as [Hx Hz].
  apply emits_bind; [apply emits_emit|].
  eapply emits_eq.
  - apply emits_bind.
    { apply (rotation_layer_emits self (h_z self) qc_rz
               (fun v => -2 * tau self * w self * v) Hz). }
    apply emits_bind.
    { apply (rotation_layer_emits self (h_x self) qc_rx
               (fun v => -2 * tau self * w self * v) Hx). }
    apply emits_emit.
  - unfold heisenberg_fields_inverse, hx_at, hz_at.
    rewrite <- !app_assoc; reflexivity.
Qed.

Lemma separate_quasi_coupling_emits :
  emits (brick_passes self (zz_gate_mirror (tau self)) ;;
         brick_passes self (yy_gate_mirror (tau self)) ;;
         brick_passes self (xx_gate_mirror (tau self)))
        (coupling_layer self (zz_gate_mirror (tau self)) (forward_order self)
         ++ coupling_layer self (yy_gate_mirror (tau self)) (forward_order self)
         ++ coupling_layer self (xx_gate_mirror (tau self)) (forward_order self)).
Proof. emits_seq. Qed.

(** The coupling loop of step [k = 0] in fused mode. *)
Lemma quasi_first_coupling_emits :
  (1 <= n_spins self)%nat ->
  emits (for_ (reversed (range 2)) (fun j =>
           when ((j =? 0)%nat && (0 =? 0)%nat)
             (when (n_spins self mod 2 =? 1)%nat
                (Heisenberg.boundary_twirl (random_paulis_list coin self) 0%nat) ;;
              when (n_spins self mod 2 =? 0)%nat
                (Heisenberg.boundary_twirl (random_paulis_list coin self) 0%nat ;;
                 Heisenberg.boundary_twirl (random_paulis_list coin self)
                   (n_spins self - 1)%nat)) ;;
           for_ (reversed (range3 (j mod 2) (n_spins self - 1) 2)) (fun i =>
             if ((0 =? 0)%nat && (j =? 1)%nat)%bool then
               gate_i <- getitem (random_paulis_list coin self) i ;;
               gate_next <- getitem (random_paulis_list coin self)
                              ((i + 1) mod n_spins self)%nat ;;
               emit (to_instruction
                       (xxyyzz_opt_gate_quasi_mirror (tau self) gate_i gate_next)
                       (pair_at self i))
             else
               emit (to_instruction (xxyyzz_opt_gate_mirror (tau self))
                       (pair_at self i)))))
        (quasi_mirror_layer self coin (rev (pass self 1))
         ++ boundary_twirl_gates self coin
         ++ coupling_layer self (xxyyzz_opt_gate_mirror (tau self))
              (rev (pass self 0))).
Proof.
  intros Hn.
  change (reversed (range 2)) with [1; 0]%nat.
  cbn [for_].
  eapply emits_eq.
  - apply emits_bind.
    + apply (emits_bind _ _ []); [apply emits_ret|].
      apply quasi_mirror_layer_emits.
    + apply emits_bind; [|apply emits_ret].
      apply emits_bind; [apply boundary_twirl_gates_emit, Hn|].
      apply emits_for_map; intros i _; apply emits_emit.
  - simpl; rewrite app_nil_r; reflexivity.
Qed.

(** The coupling loop of the steps [k >= 1] in fused mode. *)
Lemma quasi_later_coupling_emits k :
  emits (for_ (reversed (range 2)) (fun j =>
           when ((j =? 0)%nat && (S k =? 0)%nat)
             (when (n_spins self mod 2 =? 1)%nat
                (Heisenberg.boundary_twirl (random_paulis_list coin self) 0%nat) ;;
              when (n_spins self mod 2 =? 0)%nat
                (Heisenberg.boundary_twirl (random_paulis_list coin self) 0%nat ;;
                 Heisenberg.boundary_twirl (random_paulis_list coin self)
                   (n_spins self - 1)%nat)) ;;
           for_ (reversed (range3 (j mod 2) (n_spins self - 1) 2)) (fun i =>
             if ((S k =? 0)%nat && (j =? 1)%nat)%bool then
               gate_i <- getitem (random_paulis_list coin self) i ;;
               gate_next <- getitem (random_paulis_list coin self)
                              ((i + 1) mod n_spins self)%nat ;;
               emit (to_instruction
                       (xxyyzz_opt_gate_quasi_mirror (tau self) gate_i gate_next)
                       (pair_at self i))
             else
               emit (to_instruction (xxyyzz_opt_gate_mirror (tau self))
                       (pair_at self i)))))
        (coupling_layer self (xxyyzz_opt_gate_mirror (tau self))
           (reversed_order self)).
Proof.
  change (reversed (range 2)) with [1; 0]%nat.
  cbn [for_].
  eapply emits_eq.
  - apply emits_bind.
    + apply (emits_bind _ _ []); [apply emits_ret|].
      apply emits_for_map; intros i _; apply emits_emit.
    + apply emits_bind; [|apply emits_ret].
      apply (emits_bind _ _ []); [apply emits_ret|].
      apply emits_for_map; intros i _; apply emits_emit.
  - unfold coupling_layer, reversed_order, reversed, pass.
    simpl; rewrite app_nil_r, map_app; reflexivity.
Qed.

Lemma quasi_inverse_emits :
  (use_XX_YY_ZZ_gates self = false -> 1 <= n_spins self)%nat ->
  emits (Heisenberg.create_quasi_inverse_hamiltonian_body self coin)
        (quasi_inverse_gates self coin).
Proof using Hcover.
  intros Hn; unfold Heisenberg.create_quasi_inverse_hamiltonian_body.
  unfold quasi_inverse_gates.
  apply emits_bind; [apply leading_twirl_emits|].
  apply emits_bind; [apply emits_emit|].
  apply emits_bind; [|apply emits_emit].
  unfold quasi_inverse_steps.
  destruct (use_XX_YY_ZZ_gates self); [|specialize (Hn eq_refl)].
  - eapply emits_eq;
      [apply emits_for_const; intros k _ | rewrite length_range; reflexivity].
    unfold separate_quasi_step.
    rewrite 2!app_assoc.
    apply emits_bind; [|apply fields_inverse_tail_emits].
    rewrite <- app_assoc; apply separate_quasi_coupling_emits.
  - unfold range; destruct (K self) as [|k]; [apply emits_ret|].
    cbn [seq for_].
    apply emits_bind.
    + unfold quasi_first_step.
      rewrite 2!app_assoc.
      apply emits_bind; [|apply fields_inverse_tail_emits].
      rewrite <- app_assoc; apply quasi_first_coupling_emits, Hn.
    + eapply emits_eq;
        [apply emits_for_const | rewrite length_seq; reflexivity].
      intros k' Hk'; apply in_seq in Hk'.
      destruct k' as [|k']; [lia|].
      unfold fused_inverse_step.
      apply emits_bind; [|apply fields_inverse_tail_emits].
      apply quasi_later_coupling_emits.
Qed.

End QuasiInverseBody.

(** ** Which pairs a brick pass covers *)

Lemma range3_2_complete i start stop :
  start <= i -> i < stop -> (exists k, i = start + 2 * k) ->
  In i (range3 start stop 2).
Proof.
  intros Hs He [k ->]; unfold range3; apply in_map_iff.
  exists k; split; [lia|].
  apply in_seq; split; [lia|].
  simpl Nat.sub.
  pose proof (Nat.div_mod_eq (stop - start + 1) 2) as E.
  pose proof (Nat.mod_upper_bound (stop - start + 1) 2).
  lia.
Qed.

Lemma in_pass_0 self i :
  In i (pass self 0) <-> i + 1 < n_spins self /\ Nat.even i = true.
Proof.
  unfold pass; simpl Nat.modulo; split.
  - intros Hi; apply in_range3_2 in Hi as (_ & Hlt & k & ->).
    split; [lia|]. rewrite Nat.even_add_mul_2; reflexivity.
  - intros [Hlt Hev]; apply Nat.even_spec in Hev as [k ->].
    apply range3_2_complete; try lia. exists k; lia.
Qed.

Lemma in_pass_1 self i :
  In i (pass self 1) <-> i + 1 < n_spins self /\ Nat.odd i = true.
Proof.
  unfold pass; simpl Nat.modulo; split.
  - intros Hi; apply in_range3_2 in Hi as (_ & Hlt & k & ->).
    split; [lia|]. rewrite Nat.odd_add_mul_2; reflexivity.
  - intros [Hlt Hod]; apply Nat.odd_spec in Hod as [k ->].
    apply range3_2_complete; try lia. exists k; lia.
Qed.

Lemma in_forward_order_iff self i :
  In i (forward_order self) <-> i + 1 < n_spins self.
Proof.
  unfold forward_order; rewrite in_app_iff, in_pass_0, in_pass_1.
  rewrite <- Nat.negb_even; destruct (Nat.even i); simpl; intuition congruence.
Qed.

(** ** No block joins the two ends of the chain *)

Lemma existsb_steps (p : instr -> bool) k step :
  existsb p step = false -> existsb p (steps k step) = false.
Proof.
  intros Hs; unfold steps; induction k as [|k IH]; simpl; [reflexivity|].
  rewrite existsb_app, Hs, IH; reflexivity.
Qed.

Lemma existsb_rotation_layer self a b rot angle :
  (forall theta q, is_coupling_on a b (rot theta q) = false) ->
  existsb (is_coupling_on a b) (rotation_layer self rot angle) = false.
Proof.
  intros Hrot; unfold rotation_layer.
  induction (range (n_spins self)) as [|i l IH]; simpl; [reflexivity|].
  rewrite Hrot, IH; reflexivity.
Qed.

Lemma is_coupling_on_inner self gate i :
  3 <= n_spins self -> i + 1 < n_spins self ->
  is_coupling_on (n_spins self - 1) 0 (to_instruction gate (pair_at self i))
  = false.
Proof.
  intros Hn Hi; rewrite pair_at_inner by assumption.
  unfold to_instruction, is_coupling_on.
  destruct (Nat.eqb_spec i (n_spins self - 1)); [lia|].
  destruct (Nat.eqb_spec (i + 1) (n_spins self - 1)); [|rewrite andb_false_r; reflexivity].
  destruct (Nat.eqb_spec i 0); [lia | reflexivity].
Qed.

Lemma existsb_coupling_layer self gate :
  3 <= n_spins self ->
  existsb (is_coupling_on (n_spins self - 1) 0)
          (coupling_layer self gate (forward_order self)) = false.
Proof.
  intros Hn; unfold coupling_layer.
  assert (Hin : forall i, In i (forward_order self) -> i + 1 < n_spins self)
    by (intros i; apply in_forward_order).
  induction (forward_order self) as [|i l IH]; cbn [map existsb]; [reflexivity|].
  rewrite IH by (intros j Hj; apply Hin; right; exact Hj).
  rewrite is_coupling_on_inner; auto.
  apply Hin; left; reflexivity.
Qed.

(** ** Loops that raise *)

Lemma for_raises {A : Type} (l1 l2 : list A) (a : A) (body : A -> Build unit)
    (g : A -> list instr) (e : exn) :
  (forall x, In x l1 -> emits (body x) (g x)) ->
  (forall qc, body a qc = (qc, Raise e)) ->
  forall qc, for_ (l1 ++ a :: l2) body qc = (qc ++ flat_map g l1, Raise e).
Proof.
  induction l1 as [|x l1 IH]; intros Hok Hraise qc; simpl.
  - unfold bind; rewrite Hraise, app_nil_r; reflexivity.
  - unfold bind at 1; rewrite (Hok x (or_introl eq_refl)).
    rewrite (IH (fun y Hy => Hok y (or_intror Hy)) Hraise).
    rewrite app_assoc; reflexivity.
Qed.

Lemma range_split m n : m < n -> range n = range m ++ m :: seq (S m) (n - S m).
Proof.
  intros Hm; unfold range.
  replace n with (m + S (n - S m)) at 1 by lia.
  rewrite seq_app; reflexivity.
Qed.

Lemma rotation_loop_raises self (h : list R) (rot : R -> nat -> instr)
    (f : R -> R) qc :
  List.length h < n_spins self ->
  for_ (range (n_spins self)) (fun i => v <- getitem h i ;; emit (rot (f v) i)) qc
  = (qc ++ map (fun i => rot (f (nth i h 0%R)) i) (range (List.length h)),
     Raise IndexError).
Proof.
  intros Hlen; rewrite (range_split _ _ Hlen), <- flat_map_singleton.
  apply for_raises.
  - intros i Hi; apply in_range in Hi.
    eapply emits_getitem; [apply nth_error_nth'; lia | apply emits_emit].
  - intros qc'; unfold bind, getitem.
    replace (nth_error h (List.length h)) with (@None R); [reflexivity|].
    symmetry; apply nth_error_None; lia.
Qed.

(** ** The resultant Pauli circuit *)

Lemma ResultantPauli_gates self :
  data (ResultantPauli self) = map qc_x (range (n_spins self)) ++ [qc_barrier].
Proof.
  unfold ResultantPauli, data, emitted; simpl snd.
  assert (He : emits (ResultantPauli_body self)
                 (map qc_x (range (n_spins self)) ++ [qc_barrier])).
  { apply emits_bind; [|apply emits_emit].
    apply emits_for_map; intros; apply emits_emit. }
  rewrite (He []); reflexivity.
Qed.

Lemma heisenberg_forward_no_wraparound self :
  3 <= n_spins self ->
  existsb (is_coupling_on (n_spins self - 1) 0)
          (steps (K self) (heisenberg_step self)) = false.
Proof.
  intros Hn; apply existsb_steps.
  unfold heisenberg_step, heisenberg_fields, heisenberg_coupling.
  rewrite !existsb_app, !existsb_rotation_layer by reflexivity.
  destruct (use_XX_YY_ZZ_gates self);
    rewrite ?existsb_app, !existsb_coupling_layer by assumption; reflexivity.
Qed.

Lemma tfim_forward_no_wraparound self :
  3 <= n_spins self ->
  existsb (is_coupling_on (n_spins self - 1) 0)
          (steps (K self) (tfim_step self)) = false.
Proof.
  intros Hn; apply existsb_steps.
  unfold tfim_step, tfim_fields.
  rewrite !existsb_app, !existsb_rotation_layer by reflexivity.
  rewrite !existsb_coupling_layer by assumption; reflexivity.
Qed.

(** ** Field arrays shorter than the chain *)

Section ShortFields.
Local Open Scope R_scope.
Variable self : HamiltonianKernel.

Lemma heisenberg_short_hx qc :
  (1 <= K self)%nat -> (List.length (h_x self) < n_spins self)%nat ->
  Heisenberg.create_hamiltonian_body self qc
  = (qc ++ map (fun i => qc_rx (2 * tau self * w self * hx_at self i) i)
             (range (List.length (h_x self))),
     Raise IndexError).
Proof.
  intros HK Hx; unfold Heisenberg.create_hamiltonian_body, range at 1.
  destruct (K self) as [|k]; [lia|].
  cbn [seq for_]; unfold bind at 1 2.
  rewrite (rotation_loop_raises self (h_x self) qc_rx
             (fun v => 2 * tau self * w self * v) qc Hx).
  reflexivity.
Qed.

Lemma heisenberg_short_hz qc :
  (1 <= K self)%nat -> (n_spins self <= List.length (h_x self))%nat ->
  (List.length (h_z self) < n_spins self)%nat ->
  Heisenberg.create_hamiltonian_body self qc
  = (qc ++ rotation_layer self qc_rx (fun i => 2 * tau self * w self * hx_at self i)
        ++ map (fun i => qc_rz (2 * tau self * w self * hz_at self i) i)
             (range (List.length (h_z self))),
     Raise IndexError).
Proof.
  intros HK Hx Hz; unfold Heisenberg.create_hamiltonian_body, range at 1.
  destruct (K self) as [|k]; [lia|].
  cbn [seq for_]; unfold bind at 1 2.
  rewrite (rotation_layer_emits self (h_x self) qc_rx
             (fun v => 2 * tau self * w self * v) Hx qc).
  unfold bind at 1.
  rewrite (rotation_loop_raises self (h_z self) qc_rz
             (fun v => 2 * tau self * w self * v) _ Hz).
  rewrite <- app_assoc; reflexivity.
Qed.

End ShortFields.

(** ** Which kinds of instruction a layer holds *)

Lemma existsb_map_false {A : Type} (p : instr -> bool) (f : A -> instr) l :
  (forall a, p (f a) = false) -> existsb p (map f l) = false.
Proof.
  intros Hp; induction l as [|a l IH]; simpl; [|rewrite Hp, IH]; reflexivity.
Qed.

Lemma filter_map_none {A : Type} (p : instr -> bool) (f : A -> instr) l :
  (forall a, p (f a) = false) -> filter p (map f l) = [].
Proof.
  intros Hp; induction l as [|a l IH]; simpl; [|rewrite Hp, IH]; reflexivity.
Qed.

Lemma filter_map_all {A : Type} (p : instr -> bool) (f : A -> instr) l :
  (forall a, p (f a) = true) -> filter p (map f l) = map f l.
Proof.
  intros Hp; induction l as [|a l IH]; simpl; [|rewrite Hp, IH]; reflexivity.
Qed.

Lemma filter_steps (p : instr -> bool) k step :
  filter p step = [] -> filter p (steps k step) = [].
Proof.
  intros Hs; unfold steps; induction k as [|k IH]; simpl; [reflexivity|].
  rewrite filter_app, Hs, IH; reflexivity.
Qed.

Lemma separate_quasi_step_no_quasi_mirror self :
  existsb is_quasi_mirror (separate_quasi_step self) = false.
Proof.
  unfold separate_quasi_step, heisenberg_fields_inverse, coupling_layer,
    rotation_layer.
  rewrite !existsb_app, !existsb_map_false by reflexivity; reflexivity.
Qed.

Lemma separate_quasi_step_no_pauli self :
  filter is_pauli_gate (separate_quasi_step self) = [].
Proof.
  unfold separate_quasi_step, heisenberg_fields_inverse, coupling_layer,
    rotation_layer.
  rewrite !filter_app, !filter_map_none by reflexivity; reflexivity.
Qed.

Lemma leading_twirl_all_pauli self coin :
  filter is_pauli_gate (leading_twirl self coin) = leading_twirl self coin.
Proof.
  apply filter_map_all; intros q; unfold twirl_gate; destruct (coin q); reflexivity.
Qed.

Lemma leading_twirl_no_quasi_mirror self coin :
  existsb is_quasi_mirror (leading_twirl self coin) = false.
Proof.
  apply existsb_map_false; intros q; unfold twirl_gate; destruct (coin q); reflexivity.
Qed.

(** ** The X gate flips its qubit *)

Lemma x_gate_flips q psi b : run [qc_x q] psi b = psi (upd b q (negb (b q))).
Proof.
  unfold run, run_gates; simpl; unfold apply1.
  destruct (b q); simpl; ring.
Qed.

(** ** The quasi-mirror block is a Pauli on each wire, then the mirror block *)

Lemma mat_mul_assoc U V W : mat_mul (mat_mul U V) W = mat_mul U (mat_mul V W).
Proof. apply mat2_eq; simpl; ring. Qed.

Lemma H_Z_H : mat_mul HGate (mat_mul ZGate HGate) = XGate.
Proof.
  pose proof inv_sqrt2_sq.
  unfold HGate, ZGate, XGate; mat_crunch; lra.
Qed.

Lemma H_X_H : mat_mul HGate (mat_mul XGate HGate) = ZGate.
Proof.
  pose proof inv_sqrt2_sq.
  unfold HGate, ZGate, XGate; mat_crunch; lra.
Qed.

Lemma H_RX_H theta : mat_mul HGate (mat_mul (RXGate theta) HGate) = RZGate theta.
Proof.
  pose proof inv_sqrt2_sq as Hr.
  unfold HGate, RXGate, RZGate, Cexp; rewrite cos_neg, sin_neg.
  generalize dependent (/ sqrt 2)%R; intros r Hr.
  generalize (cos (theta / 2)) (sin (theta / 2)); intros c s.
  assert (Hc : (r * r * c = c / 2)%R) by (rewrite Hr; lra).
  assert (Hs : (r * r * s = s / 2)%R) by (rewrite Hr; lra).
  mat_crunch; lra.
Qed.

Ltac half_angle_crunch theta :=
  let r := fresh "r" in
  let Hr := fresh "Hr" in
  let c := fresh "c" in
  let s := fresh "s" in
  pose proof inv_sqrt2_sq as Hr;
  unfold HGate, XGate, ZGate, RXGate, RZGate, Cexp;
  rewrite ?cos_neg, ?sin_neg;
  generalize dependent (/ sqrt 2)%R; intros r Hr;
  generalize (cos (theta / 2)) (sin (theta / 2)); intros c s;
  assert (r * r * c = c / 2)%R by (rewrite Hr; lra);
  assert (r * r * s = s / 2)%R by (rewrite Hr; lra);
  mat_crunch; lra.

(** [H; Z; Rx(theta); H] on one wire is X followed by Rz(theta), and
    [H; X; Rx(theta); H] is Z followed by Rz(theta). *)
Lemma quasi_prefix_x q theta psi :
  apply1 HGate q (apply1 (RXGate theta) q (apply1 ZGate q (apply1 HGate q psi)))
  = apply1 (RZGate theta) q (apply1 XGate q psi).
Proof.
  rewrite !apply1_compose; f_equal.
  half_angle_crunch theta.
Qed.

Lemma quasi_prefix_z q theta psi :
  apply1 HGate q (apply1 (RXGate theta) q (apply1 XGate q (apply1 HGate q psi)))
  = apply1 (RZGate theta) q (apply1 ZGate q psi).
Proof.
  rewrite !apply1_compose; f_equal.
  half_angle_crunch theta.
Qed.

Lemma quasi_block_run coin a b tau psi :
  a <> b ->
  run_gates (on_pair (data (xxyyzz_opt_gate_quasi_mirror tau (tag coin a) (tag coin b)))
               a b) psi
  = run_gates (on_pair (data (xxyyzz_opt_gate_mirror tau)) a b)
      (run_gates (twirl_on coin [a; b]) psi).
Proof.
  intros Hab; unfold tag, twirl_on, twirl_gate; cbn [map].
  destruct (coin a), (coin b); unfold run_gates; simpl;
    rewrite ?quasi_prefix_x, ?quasi_prefix_z;
    rewrite (apply1_comm _ (RZGate (PI / 2)) b a) by congruence;
    reflexivity.
Qed.

(** ** The twirl gates *)

Lemma twirl_gate_elementary coin q : elementary (twirl_gate coin q).
Proof. unfold twirl_gate; destruct (coin q); exact I. Qed.

Lemma twirl_gate_qubits coin q : qubits (twirl_gate coin q) = [q].
Proof. unfold twirl_gate; destruct (coin q); reflexivity. Qed.

Lemma twirl_on_elementary coin qs : Forall elementary (twirl_on coin qs).
Proof.
  unfold twirl_on; apply Forall_map, Forall_forall; intros q _.
  apply twirl_gate_elementary.
Qed.

Lemma twirl_gate_cancels coin q : cancels [twirl_gate coin q] [twirl_gate coin q].
Proof.
  unfold twirl_gate; destruct (coin q).
  - apply (cancels_single (qc_x q)); exact I.
  - apply (cancels_single (qc_z q)); exact I.
Qed.

Lemma twirl_gates_commute coin q q' :
  commute (run_gates [twirl_gate coin q]) (run_gates [twirl_gate coin q']).
Proof.
  destruct (Nat.eq_dec q q') as [->|Hq]; [intros psi; reflexivity|].
  eapply single_qubit_gates_commute; eauto using twirl_gate_elementary,
    twirl_gate_qubits.
Qed.

Lemma twirl_twice coin qs : NoDup qs -> cancels (twirl_on coin qs) (twirl_on coin qs).
Proof.
  intros Hnd; unfold twirl_on; rewrite <- flat_map_singleton.
  apply cancels_same_order; [exact Hnd | |].
  - intros q _; apply twirl_gate_cancels.
  - intros q q' _ _ _; apply twirl_gates_commute.
Qed.

Lemma twirl_permutation coin qs qs' :
  Permutation qs qs' ->
  forall psi, run_gates (twirl_on coin qs) psi = run_gates (twirl_on coin qs') psi.
Proof.
  induction 1 as [|q l l' _ IH|q q' l|l l' l'' _ IH1 _ IH2]; intros psi.
  - reflexivity.
  - unfold twirl_on; simpl map; rewrite !run_gates_cons; apply IH.
  - unfold twirl_on; simpl map; rewrite !run_gates_cons.
    f_equal; apply (twirl_gates_commute coin q q' psi).
  - rewrite IH1; apply IH2.
Qed.

Lemma twirl_on_app coin l1 l2 : twirl_on coin (l1 ++ l2) = twirl_on coin l1 ++ twirl_on coin l2.
Proof. apply map_app. Qed.

Lemma in_pair_qubits q order :
  In q (pair_qubits order) <-> exists i, In i order /\ (q = i \/ q = i + 1).
Proof.
  unfold pair_qubits; rewrite in_flat_map; split; intros [i [Hi Hq]]; exists i;
    simpl in *; intuition.
Qed.

Lemma mirror_block_elementary a b tau :
  a <> b -> Forall elementary (on_pair (data (xxyyzz_opt_gate_mirror tau)) a b).
Proof. intros Hab; all_elementary. Qed.

Lemma mirror_block_qubits a b tau g q :
  In g (on_pair (data (xxyyzz_opt_gate_mirror tau)) a b) -> In q (qubits g) ->
  q = a \/ q = b.
Proof.
  intros Hg Hq; simpl in Hg.
  repeat destruct Hg as [<-|Hg]; simpl in Hq; intuition.
Qed.

(** Twirl gates commute with a mirror block on other qubits. *)
Lemma twirl_commutes_with_block coin qs a b tau :
  a <> b -> (forall q, In q qs -> q <> a /\ q <> b) ->
  commute (run_gates (twirl_on coin qs))
          (run_gates (on_pair (data (xxyyzz_opt_gate_mirror tau)) a b)).
Proof.
  intros Hab Hqs.
  apply run_gates_disjoint_comm.
  - apply twirl_on_elementary.
  - apply mirror_block_elementary, Hab.
  - intros g g' q Hg Hg' Hq Hq'.
    unfold twirl_on in Hg; apply in_map_iff in Hg as [q0 [<- Hq0]].
    rewrite twirl_gate_qubits in Hq; destruct Hq as [<-|[]].
    destruct (Hqs _ Hq0) as [Ha Hb].
    destruct (mirror_block_qubits _ _ _ _ _ Hg' Hq'); congruence.
Qed.

(** ** A quasi-mirror layer is the twirl of its qubits, then the mirror layer *)

Lemma quasi_block_on_pair self coin i :
  i + 1 < n_spins self ->
  inline (fun q => q)
    (to_instruction
       (xxyyzz_opt_gate_quasi_mirror (tau self) (tag coin i)
          (tag coin ((i + 1) mod n_spins self)))
       (pair_at self i))
  = on_pair (data (xxyyzz_opt_gate_quasi_mirror (tau self) (tag coin i)
                     (tag coin (i + 1)))) i (i + 1).
Proof.
  intros Hi; unfold to_instruction, on_pair.
  rewrite pair_at_inner by assumption.
  rewrite Nat.mod_small by assumption; reflexivity.
Qed.

Lemma decompose_quasi_mirror_layer self coin order :
  decompose (quasi_mirror_layer self coin order)
  = flat_map (fun i =>
      inline (fun q => q)
        (to_instruction
           (xxyyzz_opt_gate_quasi_mirror (tau self) (tag coin i)
              (tag coin ((i + 1) mod n_spins self)))
           (pair_at self i))) order.
Proof.
  unfold decompose, quasi_mirror_layer; rewrite flat_map_map_comp; reflexivity.
Qed.

Lemma quasi_layer_run self coin order :
  NoDup order -> separated order ->
  (forall i, In i order -> i + 1 < n_spins self) ->
  forall psi,
    run_gates (decompose (quasi_mirror_layer self coin order)) psi
    = run_gates (decompose (coupling_layer self (xxyyzz_opt_gate_mirror (tau self))
                              order))
        (run_gates (twirl_on coin (pair_qubits order)) psi).
Proof.
  rewrite decompose_quasi_mirror_layer, decompose_coupling_layer.
  induction 1 as [|i rest Hi Hnd IH]; intros Hsep Hin psi; [reflexivity|].
  assert (Hi1 : i + 1 < n_spins self) by (apply Hin; left; reflexivity).
  cbn [flat_map pair_qubits].
  change (flat_map (fun i0 => [i0; i0 + 1]) rest) with (pair_qubits rest).
  rewrite !run_gates_app, quasi_block_on_pair, block_on_pair by assumption.
  rewrite quasi_block_run by lia.
  rewrite IH.
  - change ([i; i + 1] ++ pair_qubits rest) with (i :: (i + 1) :: pair_qubits rest).
    unfold twirl_on at 3; cbn [map]; rewrite !run_gates_cons.
    fold (twirl_on coin (pair_qubits rest)).
    rewrite (twirl_commutes_with_block coin (pair_qubits rest) i (i + 1)); [| lia |].
    + reflexivity.
    + intros q Hq; apply in_pair_qubits in Hq as [j [Hj Hq]].
      assert (Hij : i <> j) by (intros ->; contradiction).
      destruct (Hsep i j (or_introl eq_refl) (or_intror Hj) Hij); lia.
  - intros j j' Hj Hj'; apply Hsep; right; assumption.
  - intros j Hj; apply Hin; right; assumption.
Qed.

(** ** The qubits of pass 1 and the boundary qubits make up the chain *)

Lemma NoDup_pair_qubits order :
  NoDup order -> separated order -> NoDup (pair_qubits order).
Proof.
  induction 1 as [|i rest Hi Hnd IH]; intros Hsep; [constructor|].
  cbn [pair_qubits flat_map app].
  change (flat_map (fun i0 => [i0; i0 + 1]) rest) with (pair_qubits rest).
  assert (Hfar : forall q, In q (pair_qubits rest) -> q <> i /\ q <> i + 1).
  { intros q Hq; apply in_pair_qubits in Hq as [j [Hj Hq]].
    assert (Hij : i <> j) by (intros ->; contradiction).
    destruct (Hsep i j (or_introl eq_refl) (or_intror Hj) Hij); lia. }
  constructor; [|constructor].
  - intros [E|Hq]; [lia | apply Hfar in Hq; lia].
  - intros Hq; apply Hfar in Hq; lia.
  - apply IH; intros j j' Hj Hj'; apply Hsep; right; assumption.
Qed.

Lemma pass_separated self j : separated (pass self j).
Proof.
  intros i i' Hi Hi' Hne; unfold pass in *.
  apply in_range3_2 in Hi as (_ & _ & k & ->).
  apply in_range3_2 in Hi' as (_ & _ & k' & ->).
  lia.
Qed.

Lemma separated_rev order : separated order -> separated (rev order).
Proof.
  intros Hsep i j Hi Hj; apply Hsep; apply in_rev; assumption.
Qed.

Lemma NoDup_pass self j : NoDup (pass self j).
Proof. apply NoDup_range3_2. Qed.

Lemma boundary_twirl_gates_twirl_on self coin :
  boundary_twirl_gates self coin = twirl_on coin (boundary_qubits self).
Proof.
  unfold boundary_twirl_gates, boundary_qubits.
  destruct (n_spins self mod 2 =? 1); reflexivity.
Qed.

Lemma twirled_qubits_cover_chain self :
  1 <= n_spins self ->
  Permutation (range (n_spins self))
              (pair_qubits (rev (pass self 1)) ++ boundary_qubits self).
Proof.
  intros Hn.
  pose proof (Nat.mod_upper_bound (n_spins self) 2) as Hmod.
  pose proof (Nat.div_mod_eq (n_spins self) 2) as Hdiv.
  assert (Hcov : forall q, In q (pair_qubits (rev (pass self 1))) <->
                           exists k, (q = 1 + 2 * k \/ q = 2 + 2 * k)
                                     /\ 2 + 2 * k < n_spins self).
  { intros q; rewrite in_pair_qubits; split.
    - intros [i [Hi Hq]]; apply in_rev in Hi.
      unfold pass in Hi; apply in_range3_2 in Hi as (_ & Hlt & k & ->).
      simpl Nat.modulo in *; exists k; lia.
    - intros [k [Hq Hk]]; exists (1 + 2 * k); split; [|lia].
      apply in_rev; rewrite rev_involutive; unfold pass; simpl Nat.modulo.
      apply range3_2_complete; try lia. exists k; reflexivity. }
  apply NoDup_Permutation.
  - apply seq_NoDup.
  - apply NoDup_app.
    + apply NoDup_pair_qubits;
        [apply NoDup_rev, NoDup_pass | apply separated_rev, pass_separated].
    + unfold boundary_qubits.
      destruct (Nat.eqb_spec (n_spins self mod 2) 1).
      * repeat constructor; simpl; tauto.
      * repeat constructor; simpl; intuition lia.
    + intros q Hq Hb; apply Hcov in Hq as [k [Hq Hk]].
      unfold boundary_qubits in Hb.
      destruct (Nat.eqb_spec (n_spins self mod 2) 1); simpl in Hb; lia.
  - intros q; rewrite in_range, in_app_iff, Hcov; unfold boundary_qubits.
    split.
    + intros Hq.
      pose proof (Nat.div_mod_eq q 2) as Hqd.
      pose proof (Nat.mod_upper_bound q 2) as Hqm.
      destruct (Nat.eq_dec q 0) as [->|Hq0].
      { right; destruct (n_spins self mod 2 =? 1); left; reflexivity. }
      destruct (Nat.eq_dec (q mod 2) 0) as [Hev|Hod].
      * left; exists (q / 2 - 1); lia.
      * destruct (Nat.eq_dec (q + 1) (n_spins self)) as [Hlast|Hin].
        { right; destruct (Nat.eqb_spec (n_spins self mod 2) 1); simpl; lia. }
        left; exists (q / 2); lia.
    + intros [[k [Hq Hk]]|Hb]; [lia|].
      destruct (Nat.eqb_spec (n_spins self mod 2) 1); simpl in Hb; lia.
Qed.

(** ** The resultant Pauli circuit flips every qubit of the chain *)

Lemma decompose_elementary l : Forall elementary l -> decompose l = l.
Proof.
  induction 1 as [|g l Hg _ IH]; [reflexivity|].
  unfold decompose in *; simpl; rewrite IH.
  destruct g; simpl in *; try reflexivity; contradiction.
Qed.

Lemma flip_below_S n b :
  flip_below n (upd b n (negb (b n))) = flip_below (S n) b.
Proof.
  apply functional_extensionality; intros k; unfold flip_below, upd.
  destruct (Nat.eqb_spec k n) as [->|Hk].
  - rewrite Nat.ltb_irrefl.
    destruct (Nat.ltb_spec n (S n)); [reflexivity | lia].
  - destruct (Nat.ltb_spec k n), (Nat.ltb_spec k (S n)); try reflexivity; lia.
Qed.

Lemma x_layer_flips n psi :
  run_gates (map qc_x (seq 0 n)) psi = fun b => psi (flip_below n b).
Proof.
  induction n as [|n IH].
  - apply functional_extensionality; intros b; simpl.
    f_equal; apply functional_extensionality; intros k; reflexivity.
  - rewrite seq_S, map_app, run_gates_app, IH; simpl.
    apply functional_extensionality; intros b; unfold apply1.
    rewrite <- flip_below_S.
    destruct (b n) eqn:En; simpl; ring.
Qed.

Lemma decompose_resultant self :
  decompose [resultant_instruction self]
  = map qc_x (seq 0 (n_spins self)) ++ [qc_barrier].
Proof.
  unfold decompose, resultant_instruction, to_instruction.
  cbn [flat_map inline]; rewrite app_nil_r, ResultantPauli_gates, flat_map_app.
  rewrite flat_map_map_comp; cbn [inline flat_map app].
  rewrite flat_map_singleton; f_equal.
  apply map_ext_in; intros k Hk; apply in_range in Hk.
  unfold range; rewrite seq_nth by assumption; reflexivity.
Qed.

Lemma resultant_run self psi :
  run [resultant_instruction self] psi = fun b => psi (flip_below (n_spins self) b).
Proof.
  unfold run; rewrite decompose_resultant, run_gates_app, run_barrier.
  apply x_layer_flips.
Qed.

(** ** The first reversed step of the fused quasi-inverse undoes the twirl *)

Section TwirlUndone.
Variables (self : HamiltonianKernel) (coin : nat -> bool).
Hypothesis Hn : 1 <= n_spins self.

Lemma boundary_qubits_off_pass_1 i q :
  In i (pass self 1) -> In q (boundary_qubits self) -> q <> i /\ q <> i + 1.
Proof using Hn.
  intros Hi Hq; unfold pass in Hi.
  apply in_range3_2 in Hi as (_ & Hlt & k & ->); simpl Nat.modulo in *.
  pose proof (Nat.mod_upper_bound (n_spins self) 2).
  pose proof (Nat.div_mod_eq (n_spins self) 2).
  unfold boundary_qubits in Hq.
  destruct (Nat.eqb_spec (n_spins self mod 2) 1); simpl in Hq; lia.
Qed.

Lemma quasi_first_step_run psi :
  run (leading_twirl self coin ++ [qc_barrier] ++ quasi_first_step self coin) psi
  = run (fused_inverse_step self) psi.
Proof using Hn.
  unfold quasi_first_step, fused_inverse_step, reversed_order, run.
  unfold coupling_layer at 2; rewrite map_app.
  fold (coupling_layer self (xxyyzz_opt_gate_mirror (tau self)) (rev (pass self 1))).
  fold (coupling_layer self (xxyyzz_opt_gate_mirror (tau self)) (rev (pass self 0))).
  rewrite !decompose_app, <- !app_assoc, !run_gates_app.
  change (decompose [qc_barrier]) with [qc_barrier]; rewrite !run_barrier.
  do 2 f_equal.
  rewrite boundary_twirl_gates_twirl_on.
  change (leading_twirl self coin) with (twirl_on coin (range (n_spins self))).
  rewrite !(decompose_elementary (twirl_on _ _)) by apply twirl_on_elementary.
  rewrite quasi_layer_run.
  - assert (Hswap : commute (run_gates (twirl_on coin (boundary_qubits self)))
                      (run_gates (decompose
                         (coupling_layer self (xxyyzz_opt_gate_mirror (tau self))
                            (rev (pass self 1)))))).
    { rewrite decompose_coupling_layer.
      apply commute_run_flat_map; intros i Hi; apply in_rev in Hi.
      rewrite block_on_pair by (eapply in_pass; eassumption).
      apply twirl_commutes_with_block; [lia|].
      intros q Hq; eapply boundary_qubits_off_pass_1; eassumption. }
    rewrite Hswap; f_equal.
    rewrite <- run_gates_app, <- twirl_on_app.
    rewrite <- (twirl_permutation coin _ _ (twirled_qubits_cover_chain self Hn)).
    apply twirl_twice, seq_NoDup.
  - apply NoDup_rev, NoDup_pass.
  - apply separated_rev, pass_separated.
  - intros i Hi; apply in_rev in Hi; eapply in_pass; eassumption.
Qed.

Lemma fused_quasi_inverse_run psi :
  use_XX_YY_ZZ_gates self = false -> 1 <= K self ->
  run (quasi_inverse_gates self coin) psi
  = run [resultant_instruction self]
      (run (steps (K self) (heisenberg_inverse_step self)) psi).
Proof using Hn.
  intros Hfused HK.
  unfold quasi_inverse_gates, quasi_inverse_steps; rewrite Hfused.
  destruct (K self) as [|k]; [lia|].
  assert (Estep : heisenberg_inverse_step self = fused_inverse_step self).
  { unfold heisenberg_inverse_step, fused_inverse_step, heisenberg_coupling_inverse.
    rewrite Hfused; reflexivity. }
  rewrite Estep.
  change (steps (S k) (fused_inverse_step self))
    with (fused_inverse_step self ++ steps k (fused_inverse_step self)).
  replace (leading_twirl self coin ++ [qc_barrier]
           ++ (quasi_first_step self coin ++ steps k (fused_inverse_step self))
           ++ [resultant_instruction self])
    with ((leading_twirl self coin ++ [qc_barrier] ++ quasi_first_step self coin)
          ++ steps k (fused_inverse_step self) ++ [resultant_instruction self])
    by (rewrite <- !app_assoc; reflexivity).
  rewrite (run_app (leading_twirl self coin ++ [qc_barrier]
                    ++ quasi_first_step self coin)).
  rewrite quasi_first_step_run, !run_app; reflexivity.
Qed.

End TwirlUndone.

(** ** The initial state *)

Lemma initial_state_gates self :
  data (initial_state self)
  = if ((init_state self =? "checkerboard") || (init_state self =? "neele"))%string
    then map qc_x (range3 0 (n_spins self) 2)
    else if (init_state self =? "ghz")%string
         then qc_h 0 :: map (fun k => qc_cx (k - 1) k) (range2 1 (n_spins self))
         else [].
Proof.
  unfold initial_state, data, emitted, initial_state_body; cbn [snd].
  destruct ((init_state self =? "checkerboard") || (init_state self =? "neele"))%string.
  - assert (He : emits (for_ (range3 0 (n_spins self) 2) (fun k => emit (qc_x k)))
                   (map qc_x (range3 0 (n_spins self) 2)))
      by (apply emits_for_map; intros; apply emits_emit).
    rewrite (He []); reflexivity.
  - destruct (init_state self =? "ghz")%string; [|reflexivity].
    assert (He : emits (emit (qc_h 0) ;;
                        for_ (range2 1 (n_spins self)) (fun k => emit (qc_cx (k - 1) k)))
                   ([qc_h 0] ++ map (fun k => qc_cx (k - 1) k) (range2 1 (n_spins self)))).
    { apply emits_bind; [apply emits_emit|].
      apply emits_for_map; intros; apply emits_emit. }
    rewrite (He []); reflexivity.
Qed.

Lemma x_gates_flip qs psi :
  NoDup qs -> run_gates (map qc_x qs) psi = fun b => psi (flip_in qs b).
Proof.
  intros Hnd; revert psi; induction Hnd as [|q qs Hq Hnd IH]; intros psi.
  - apply functional_extensionality; intros b; simpl.
    f_equal; apply functional_extensionality; intros k; reflexivity.
  - simpl map; rewrite run_gates_cons, IH; simpl.
    apply functional_extensionality; intros b; unfold apply1.
    assert (Hsame : flip_in qs b q = b q).
    { unfold flip_in.
      replace (existsb (Nat.eqb q) qs) with false; [reflexivity|].
      symmetry; apply not_true_is_false; intros He.
      apply existsb_exists in He as [q' [Hq' E]].
      apply Nat.eqb_eq in E; subst; contradiction. }
    assert (Hflip : upd (flip_in qs b) q (negb (b q)) = flip_in (q :: qs) b).
    { apply functional_extensionality; intros k; unfold upd, flip_in; simpl.
      destruct (Nat.eqb_spec k q) as [->|Hk]; reflexivity. }
    rewrite Hsame, <- Hflip.
    destruct (b q); simpl; ring.
Qed.

Lemma flip_in_checkerboard n :
  flip_in (range3 0 n 2) = flip_even_below n.
Proof.
  apply functional_extensionality; intros b.
  apply functional_extensionality; intros k; unfold flip_in, flip_even_below.
  replace (existsb (Nat.eqb k) (range3 0 n 2)) with ((k <? n) && Nat.even k);
    [reflexivity|].
  apply eq_true_iff_eq.
  rewrite andb_true_iff, Nat.ltb_lt, existsb_exists; split.
  - intros [Hk Hev]; exists k; split; [|apply Nat.eqb_refl].
    apply Nat.even_spec in Hev as [j ->].
    apply range3_2_complete; try lia. exists j; lia.
  - intros [k' [Hin E]]; apply Nat.eqb_eq in E; subst k'.
    apply in_range3_2 in Hin as (_ & Hlt & j & ->).
    split; [exact Hlt|]. rewrite Nat.even_add_mul_2; reflexivity.
Qed.

Lemma forallb_ext_in {A : Type} (f g : A -> bool) l :
  (forall a, In a l -> f a = g a) -> forallb f l = forallb g l.
Proof.
  induction l as [|a l IH]; intros Hfg; simpl; [reflexivity|].
  rewrite (Hfg a (or_introl eq_refl)), IH; [reflexivity|].
  intros a' Ha'; apply Hfg; right; exact Ha'.
Qed.

Lemma ghz_after_hadamard n :
  1 <= n -> run_gates [qc_h 0] (ket0 n) = ghz_partial 0 n.
Proof.
  intros Hn; destruct n as [|n]; [lia|].
  apply functional_extensionality; intros b.
  unfold run_gates; simpl fold_left; unfold gate_op, apply1, ket0, ghz_partial.
  cbn [seq forallb]; rewrite !upd_same; cbn [negb andb].
  rewrite Nat.sub_succ, Nat.sub_0_r, eqb_reflx; cbn [andb].
  rewrite (forallb_ext_in (fun k => negb (upd b 0 false k)) (fun k => negb (b k)))
    by (intros k Hk; apply in_seq in Hk; rewrite upd_other by lia; reflexivity).
  destruct (forallb (fun k => negb (b k)) (seq 1 n)), (b 0); simpl;
    unfold Cadd, Cmul, C0, C1; simpl; apply C_eq; lra.
Qed.

Lemma ghz_after_cx m n :
  m + 2 <= n -> apply_cx m (S m) (ghz_partial m n) = ghz_partial (S m) n.
Proof.
  intros Hm; apply functional_extensionality; intros b.
  unfold apply_cx, ghz_partial.
  set (b' := if b m then upd b (S m) (negb (b (S m))) else b).
  assert (Hlow : forall k, k <> S m -> b' k = b k).
  { intros k Hk; unfold b'; destruct (b m); [apply upd_other; exact Hk | reflexivity]. }
  assert (Hat : b' (S m) = if b m then negb (b (S m)) else b (S m)).
  { unfold b'; destruct (b m); [apply upd_same | reflexivity]. }
  replace (seq (S m) (n - S m)) with (S m :: seq (S (S m)) (n - S (S m)))
    by (replace (n - S m) with (S (n - S (S m))) by lia; reflexivity).
  rewrite (seq_S (S m) 0), forallb_app; cbn [forallb Nat.add].
  rewrite (forallb_ext_in (fun k => Bool.eqb (b' k) (b' 0))
                          (fun k => Bool.eqb (b k) (b 0)))
    by (intros k Hk; apply in_seq in Hk; rewrite !Hlow by lia; reflexivity).
  rewrite (forallb_ext_in (fun k => negb (b' k)) (fun k => negb (b k)))
    by (intros k Hk; apply in_seq in Hk; rewrite Hlow by lia; reflexivity).
  rewrite Hat, andb_true_r.
  destruct (forallb (fun k => Bool.eqb (b k) (b 0)) (seq 0 (S m))) eqn:HA;
    [|reflexivity].
  assert (Hm0 : b m = b 0).
  { rewrite forallb_forall in HA; apply eqb_prop, HA, in_seq; lia. }
  rewrite Hm0; cbn [andb].
  destruct (b 0), (b (S m)); reflexivity.
Qed.

Lemma ghz_prefix m n :
  m + 1 <= n ->
  run_gates (qc_h 0 :: map (fun k => qc_cx (k - 1) k) (seq 1 m)) (ket0 n)
  = ghz_partial m n.
Proof.
  induction m as [|m IH]; intros Hm; [apply ghz_after_hadamard; lia|].
  rewrite seq_S, map_app, app_comm_cons, run_gates_app, IH by lia.
  cbn [map Nat.add]; rewrite run_gates_cons; cbn [gate_op run_gates fold_left].
  replace (S m - 1) with m by lia.
  apply ghz_after_cx; lia.
Qed.

Lemma ghz_partial_full n : 1 <= n -> ghz_partial (n - 1) n = ghz_state n.
Proof.
  intros Hn; apply functional_extensionality; intros b.
  unfold ghz_partial, ghz_state.
  replace (S (n - 1)) with n by lia.
  rewrite Nat.sub_diag; cbn [seq forallb]; rewrite andb_true_r; reflexivity.
Qed.

(** ** Appending a circuit on all qubits of the register *)

Lemma nth_range_fix n q : q < n \/ q = 0 -> nth q (range n) 0 = q.
Proof.
  intros [Hq| ->]; unfold range.
  - rewrite seq_nth by assumption; reflexivity.
  - destruct n; reflexivity.
Qed.

Lemma inline_on_register n g :
  within n g -> inline (fun k => nth k (range n) 0) g = inline (fun q => q) g.
Proof.
  intros Hg; unfold within in Hg.
  destruct g; simpl in *; rewrite ?nth_range_fix by auto; try reflexivity.
  do 2 f_equal; apply functional_extensionality; intros k.
  apply nth_range_fix.
  destruct (nth_in_or_default k qargs 0) as [Hin| ->]; auto.
Qed.

Lemma decompose_on_register sub n :
  Forall (within n) (data sub) ->
  decompose [to_instruction sub (range n)] = decompose (data sub).
Proof.
  unfold decompose, to_instruction; cbn [flat_map inline]; rewrite app_nil_r.
  induction 1 as [|g l Hg _ IH]; [reflexivity|].
  cbn [flat_map]; rewrite IH, inline_on_register by assumption; reflexivity.
Qed.

Lemma Forall_steps (P : instr -> Prop) k step :
  Forall P step -> Forall P (steps k step).
Proof.
  intros Hs; unfold steps; induction k as [|k IH]; simpl; [constructor|].
  apply Forall_app; split; assumption.
Qed.

Lemma within_barrier n : Forall (within n) [qc_barrier].
Proof. repeat constructor; intros q []. Qed.

Lemma within_rotation_layer self rot angle :
  (forall theta q, qubits (rot theta q) = [q]) ->
  Forall (within (n_spins self)) (rotation_layer self rot angle).
Proof.
  intros Hrot; unfold rotation_layer; apply Forall_map, Forall_forall.
  intros i Hi q; rewrite Hrot; intros [<-|[]]; apply in_range, Hi.
Qed.

Lemma within_pair_at self i q :
  i + 1 < n_spins self -> In q (pair_at self i) -> q < n_spins self.
Proof.
  intros Hi; rewrite pair_at_inner by assumption; intros [<-|[<-|[]]]; lia.
Qed.

Lemma within_coupling_layer self gate order :
  (forall i, In i order -> i + 1 < n_spins self) ->
  Forall (within (n_spins self)) (coupling_layer self gate order).
Proof.
  intros Hin; unfold coupling_layer; apply Forall_map, Forall_forall.
  intros i Hi q; apply within_pair_at, Hin, Hi.
Qed.

Lemma within_quasi_mirror_layer self coin order :
  (forall i, In i order -> i + 1 < n_spins self) ->
  Forall (within (n_spins self)) (quasi_mirror_layer self coin order).
Proof.
  intros Hin; unfold quasi_mirror_layer; apply Forall_map, Forall_forall.
  intros i Hi q; apply within_pair_at, Hin, Hi.
Qed.

Lemma within_twirl_on n coin qs :
  (forall q, In q qs -> q < n) -> Forall (within n) (twirl_on coin qs).
Proof.
  intros Hqs; unfold twirl_on; apply Forall_map, Forall_forall.
  intros q Hq q'; rewrite twirl_gate_qubits; intros [<-|[]]; apply Hqs, Hq.
Qed.

Lemma in_reversed_order self i :
  In i (reversed_order self) -> i + 1 < n_spins self.
Proof.
  rewrite reversed_order_rev; intros Hi; apply in_rev in Hi.
  apply in_forward_order, Hi.
Qed.

Ltac within_parts :=
  repeat first
    [ apply within_barrier
    | apply within_rotation_layer; reflexivity
    | apply within_coupling_layer; intros ? ?;
      first [ eapply in_forward_order; eassumption
            | eapply in_reversed_order; eassumption ]
    | apply Forall_app; split ].

Lemma within_heisenberg_fields_inverse self :
  Forall (within (n_spins self)) (heisenberg_fields_inverse self).
Proof. unfold heisenberg_fields_inverse; within_parts. Qed.

Lemma within_heisenberg_step self :
  Forall (within (n_spins self)) (heisenberg_step self).
Proof.
  unfold heisenberg_step, heisenberg_fields, heisenberg_coupling.
  destruct (use_XX_YY_ZZ_gates self); within_parts.
Qed.

Lemma within_heisenberg_inverse_step self :
  Forall (within (n_spins self)) (heisenberg_inverse_step self).
Proof.
  unfold heisenberg_inverse_step, heisenberg_fields_inverse,
    heisenberg_coupling_inverse.
  destruct (use_XX_YY_ZZ_gates self); within_parts.
Qed.

Lemma within_tfim_step self : Forall (within (n_spins self)) (tfim_step self).
Proof. unfold tfim_step, tfim_fields; within_parts. Qed.

Lemma within_tfim_inverse_step self :
  Forall (within (n_spins self)) (tfim_inverse_step self).
Proof. unfold tfim_inverse_step, tfim_fields_inverse; within_parts. Qed.

Lemma within_resultant_instruction self :
  within (n_spins self) (resultant_instruction self).
Proof. intros q Hq; apply in_range, Hq. Qed.

Lemma within_quasi_inverse_gates self coin :
  1 <= n_spins self ->
  Forall (within (n_spins self)) (quasi_inverse_gates self coin).
Proof.
  intros Hn; unfold quasi_inverse_gates.
  apply Forall_app; split;
    [apply within_twirl_on; intros q Hq; apply in_range, Hq|].
  apply Forall_app; split; [apply within_barrier|].
  apply Forall_app; split;
    [|repeat constructor; apply within_resultant_instruction].
  unfold quasi_inverse_steps.
  destruct (use_XX_YY_ZZ_gates self).
  - apply Forall_steps; unfold separate_quasi_step, heisenberg_fields_inverse.
    within_parts.
  - destruct (K self) as [|k]; [constructor|].
    apply Forall_app; split.
    + unfold quasi_first_step, heisenberg_fields_inverse.
      apply Forall_app; split.
      { apply within_quasi_mirror_layer; intros i Hi; apply in_rev in Hi.
        eapply in_pass; eassumption. }
      apply Forall_app; split.
      { rewrite boundary_twirl_gates_twirl_on; apply within_twirl_on.
        intros q Hq; unfold boundary_qubits in Hq.
        destruct (n_spins self mod 2 =? 1); simpl in Hq; lia. }
      apply Forall_app; split.
      { apply within_coupling_layer; intros i Hi; apply in_rev in Hi.
        eapply in_pass; eassumption. }
      within_parts.
    + apply Forall_steps; unfold fused_inverse_step, heisenberg_fields_inverse.
      within_parts.
Qed.

Lemma within_initial_state self :
  1 <= n_spins self -> Forall (within (n_spins self)) (data (initial_state self)).
Proof.
  intros Hn; rewrite initial_state_gates.
  destruct ((init_state self =? "checkerboard") || (init_state self =? "neele"))%string.
  - apply Forall_map, Forall_forall; intros k Hk q [<-|[]].
    apply in_range3_2 in Hk; lia.
  - destruct (init_state self =? "ghz")%string; [|constructor].
    constructor; [intros q [<-|[]]; lia|].
    apply Forall_map, Forall_forall; intros k Hk q Hq.
    unfold range2 in Hk; apply in_seq in Hk.
    destruct Hq as [<-|[<-|[]]]; lia.
Qed.

(** ** The kernel's own circuit *)

Lemma run_on_register sub n psi :
  Forall (within n) (data sub) ->
  run [to_instruction sub (range n)] psi = run (data sub) psi.
Proof. intros Hw; unfold run; rewrite decompose_on_register by assumption; reflexivity. Qed.

Lemma run_cons g c psi : run (g :: c) psi = run c (run [g] psi).
Proof. apply (run_app [g] c). Qed.

Lemma run_nil psi : run [] psi = psi.
Proof. reflexivity. Qed.

Lemma unitary_part_app qc qc' :
  unitary_part (qc ++ qc') = unitary_part qc ++ unitary_part qc'.
Proof. apply flat_map_app. Qed.

Lemma unitary_part_measures qs :
  unitary_part (map (fun i_qubit => op_measure i_qubit i_qubit) qs) = [].
Proof. induction qs as [|q qs IH]; [reflexivity | exact IH]. Qed.

Lemma forward_inverse_built cls self :
  fields_cover self ->
  exists fwd inv,
    create_hamiltonian cls self = Ok fwd
    /\ create_inverse_hamiltonian cls self = Ok inv
    /\ Forall (within (n_spins self)) (data fwd)
    /\ Forall (within (n_spins self)) (data inv)
    /\ forall psi, run (data inv) (run (data fwd) psi) = psi.
Proof.
  intros Hc; destruct cls; simpl.
  - exists ("Heisenberg", steps (K self) (heisenberg_step self)).
    exists ("InverseHeisenberg", steps (K self) (heisenberg_inverse_step self)).
    split; [apply emits_gates, heisenberg_create_hamiltonian_emits, Hc|].
    split; [apply emits_gates, heisenberg_create_inverse_hamiltonian_emits, Hc|].
    split; [apply Forall_steps, within_heisenberg_step|].
    split; [apply Forall_steps, within_heisenberg_inverse_step|].
    intros psi; rewrite <- run_app.
    apply steps_cancel, heisenberg_step_cancel.
  - exists ("TFIM", steps (K self) (tfim_step self)).
    exists ("InverseTFIM", steps (K self) (tfim_inverse_step self)).
    split; [apply emits_gates, tfim_create_hamiltonian_emits|].
    split; [apply emits_gates, tfim_create_inverse_hamiltonian_emits|].
    split; [apply Forall_steps, within_tfim_step|].
    split; [apply Forall_steps, within_tfim_inverse_step|].
    intros psi; rewrite <- run_app.
    apply steps_cancel, tfim_step_cancel.
Qed.

Lemma heisenberg_forward_raises self :
  1 <= K self ->
  List.length (h_x self) < n_spins self \/ List.length (h_z self) < n_spins self ->
  Heisenberg.create_hamiltonian self = Raise IndexError.
Proof.
  intros HK Hshort; unfold Heisenberg.create_hamiltonian, build.
  destruct (Nat.ltb_spec (List.length (h_x self)) (n_spins self)) as [Hx|Hx].
  - rewrite (heisenberg_short_hx self [] HK Hx); reflexivity.
  - destruct Hshort as [Hx'|Hz]; [lia|].
    rewrite (heisenberg_short_hz self [] HK Hx Hz); reflexivity.
Qed.

(** ** What the separate-axis blocks do *)

Lemma apply1_state_add U q psi phi :
  apply1 U q (state_add psi phi) = state_add (apply1 U q psi) (apply1 U q phi).
Proof.
  apply functional_extensionality; intros b; unfold apply1, state_add; ring.
Qed.

Lemma apply1_state_scale U q c psi :
  apply1 U q (state_scale c psi) = state_scale c (apply1 U q psi).
Proof.
  apply functional_extensionality; intros b; unfold apply1, state_scale; ring.
Qed.

Lemma apply1_Z q psi :
  apply1 ZGate q psi = diag (fun x => if x q then Copp C1 else C1) psi.
Proof.
  apply functional_extensionality; intros x; unfold apply1, diag.
  destruct (x q) eqn:E; simpl; rewrite (upd_id_eq _ _ _ E); ring.
Qed.

Lemma apply1_antidiagonal U q psi x :
  m00 U = C0 -> m11 U = C0 ->
  apply1 U q psi x
  = Cmul (entry U (x q) (negb (x q))) (psi (upd x q (negb (x q)))).
Proof.
  intros H0 H1; unfold apply1.
  destruct (x q); simpl; rewrite ?H0, ?H1; ring.
Qed.

Lemma flip_in_pair a b x :
  a <> b ->
  upd (upd x b (negb (x b))) a (negb (x a)) = flip_in [a; b] x.
Proof.
  intros Hab; apply functional_extensionality; intros k; unfold upd, flip_in.
  simpl; destruct (Nat.eqb_spec k a), (Nat.eqb_spec k b); subst;
    try reflexivity; congruence.
Qed.

(** The parity phase is [cos - i sin Z Z]. *)
Lemma zz_phase_split theta a b psi :
  diag (zz_phase theta a b) psi
  = state_add (state_scale (cos (theta / 2), 0)%R psi)
      (state_scale (0, - sin (theta / 2))%R
         (apply1 ZGate b (apply1 ZGate a psi))).
Proof.
  rewrite !apply1_Z.
  apply functional_extensionality; intros x.
  unfold diag, zz_phase, state_add, state_scale.
  destruct (x a), (x b); simpl; unfold Cexp; rewrite ?cos_neg, ?sin_neg;
    destruct (psi x) as [re im];
    unfold Cadd, Cmul, Copp, C1; simpl; apply C_eq; ring.
Qed.

Lemma hzh q psi :
  apply1 HGate q (apply1 ZGate q (apply1 HGate q psi)) = apply1 XGate q psi.
Proof. rewrite (apply1_compose ZGate HGate), apply1_compose, H_Z_H; reflexivity. Qed.

(** An XX block is [cos - i sin X X]. *)
Lemma xx_op_split a b theta psi :
  a <> b ->
  xx_op a b theta psi
  = state_add (state_scale (cos (theta / 2), 0)%R psi)
      (state_scale (0, - sin (theta / 2))%R
         (apply1 XGate b (apply1 XGate a psi))).
Proof.
  intros Hab; unfold xx_op.
  rewrite zz_phase_split, !apply1_state_add, !apply1_state_scale.
  f_equal; f_equal.
  - rewrite (apply1_comm HGate HGate a b) by assumption.
    rewrite hh, hh; reflexivity.
  - rewrite (apply1_comm HGate ZGate a b) by assumption.
    rewrite (apply1_comm HGate HGate b a) by congruence.
    rewrite hzh.
    rewrite (apply1_comm ZGate XGate b a) by congruence.
    rewrite (apply1_comm HGate XGate b a) by congruence.
    rewrite hzh.
    apply apply1_comm; assumption.
Qed.

Lemma xx_pointwise a b psi x :
  a <> b ->
  apply1 XGate b (apply1 XGate a psi) x = psi (flip_in [a; b] x).
Proof.
  intros Hab.
  rewrite apply1_antidiagonal by reflexivity.
  rewrite apply1_antidiagonal by reflexivity.
  rewrite upd_other by assumption.
  rewrite flip_in_pair by assumption.
  destruct (x a), (x b); simpl; ring.
Qed.

Lemma sdg_x_s q psi :
  apply1 SdgGate q (apply1 XGate q (apply1 SGate q psi)) = apply1 SdgXS q psi.
Proof.
  rewrite (apply1_compose XGate SGate), apply1_compose; f_equal.
  unfold SdgGate, XGate, SGate, SdgXS; mat_crunch; lra.
Qed.

Lemma sdg_s q psi : apply1 SdgGate q (apply1 SGate q psi) = psi.
Proof. apply apply1_cancel, S_cancel. Qed.

Lemma yy_pointwise a b psi x :
  a <> b ->
  apply1 SdgXS b (apply1 SdgXS a psi) x
  = Cmul (if xorb (x a) (x b) then C1 else Copp C1) (psi (flip_in [a; b] x)).
Proof.
  intros Hab.
  rewrite apply1_antidiagonal by reflexivity.
  rewrite apply1_antidiagonal by reflexivity.
  rewrite upd_other by assumption.
  rewrite flip_in_pair by assumption.
  destruct (x a), (x b); simpl;
    destruct (psi (flip_in [a; b] x)) as [re im];
    unfold Cmul, Copp, C1; simpl; apply C_eq; ring.
Qed.

Lemma yy_run a b tau psi :
  a <> b ->
  run_gates (on_pair (data (yy_gate tau)) a b) psi
  = state_add (state_scale (cos (PI * tau / 2), 0)%R psi)
      (state_scale (0, - sin (PI * tau / 2))%R
         (apply1 SdgXS b (apply1 SdgXS a psi))).
Proof.
  intros Hab.
  change (on_pair (data (yy_gate tau)) a b)
    with ([qc_s a; qc_s b] ++ on_pair (data (xx_gate tau)) a b
          ++ [qc_sdg a; qc_sdg b]).
  rewrite !run_gates_app, xx_run by assumption.
  fold (xx_op a b (PI * tau) (run_gates [qc_s a; qc_s b] psi)).
  rewrite xx_op_split by assumption.
  change (run_gates [qc_s a; qc_s b] psi) with (apply1 SGate b (apply1 SGate a psi)).
  change (run_gates [qc_sdg a; qc_sdg b] ?phi)
    with (apply1 SdgGate b (apply1 SdgGate a phi)).
  rewrite !apply1_state_add, !apply1_state_scale.
  f_equal; f_equal.
  - rewrite (apply1_comm SdgGate SGate a b) by assumption.
    rewrite !sdg_s; reflexivity.
  - rewrite (apply1_comm XGate SGate a b) by assumption.
    rewrite (apply1_comm SdgGate XGate a b) by assumption.
    rewrite (apply1_comm SdgGate SGate a b) by assumption.
    rewrite !sdg_x_s; reflexivity.
Qed.

(** ** The fused block and the three axes in sequence *)

(** Rewrites the quarter-turn angles of the fused block to polynomials in
    [cos t], [sin t] and [/ sqrt 2]. *)
Ltac quarter_turns t :=
  unfold Cexp, Cmul, Cadd, C1; cbn [fst snd];
  rewrite ?cos_minus, ?sin_minus, ?cos_plus, ?sin_plus, ?cos_2a, ?sin_2a,
    ?cos_neg, ?sin_neg, ?cos_PI4, ?sin_PI4;
  replace (1 / sqrt 2)%R with (/ sqrt 2)%R by lra;
  pose proof (cos_sin_sq t);
  assert (2 * (/ sqrt 2 * / sqrt 2) = 1)%R by (pose proof inv_sqrt2_sq; lra);
  generalize dependent (/ sqrt 2)%R; generalize dependent (cos t);
  generalize dependent (sin t).

Section TwoQubitLabels.
Local Open Scope R_scope.

Lemma two_id x a b : two x a b (x a) (x b) = x.
Proof.
  unfold two. rewrite (upd_id x a). apply upd_id.
Qed.

Lemma apply1_two_fst U a b phi x v w : a <> b ->
  apply1 U a phi (two x a b v w)
  = Cadd (Cmul (entry U v false) (phi (two x a b false w)))
         (Cmul (entry U v true) (phi (two x a b true w))).
Proof.
  intros Hab; unfold apply1, two.
  rewrite (upd_other _ b) by assumption. rewrite upd_same.
  rewrite !(upd_comm (upd x a v) b a) by congruence.
  rewrite !upd_upd.
  rewrite !(upd_comm _ a b) by congruence. reflexivity.
Qed.

Lemma apply1_two_snd U a b phi x v w :
  apply1 U b phi (two x a b v w)
  = Cadd (Cmul (entry U w false) (phi (two x a b v false)))
         (Cmul (entry U w true) (phi (two x a b v true))).
Proof.
  unfold apply1, two. rewrite upd_same, !upd_upd. reflexivity.
Qed.

Lemma rz_two_fst theta a b phi x v w : a <> b ->
  apply1 (RZGate theta) a phi (two x a b v w)
  = Cmul (entry (RZGate theta) v v) (phi (two x a b v w)).
Proof.
  intros Hab; rewrite apply1_two_fst by assumption.
  destruct v; simpl; ring.
Qed.

Lemma rz_two_snd theta a b phi x v w :
  apply1 (RZGate theta) b phi (two x a b v w)
  = Cmul (entry (RZGate theta) w w) (phi (two x a b v w)).
Proof.
  rewrite apply1_two_snd.
  destruct w; simpl; ring.
Qed.

Lemma cx_two_fst a b phi x v w : a <> b ->
  apply_cx a b phi (two x a b v w) = phi (two x a b v (xorb v w)).
Proof.
  intros Hab; unfold apply_cx, two.
  rewrite (upd_other _ b) by assumption. rewrite !upd_same.
  destruct v; simpl; rewrite ?upd_upd; reflexivity.
Qed.

Lemma cx_two_snd a b phi x v w : a <> b ->
  apply_cx b a phi (two x a b v w) = phi (two x a b (xorb w v) w).
Proof.
  intros Hab; unfold apply_cx, two.
  rewrite !upd_same, (upd_other _ b _ a) by assumption. rewrite upd_same.
  destruct w; simpl; [|reflexivity].
  rewrite (upd_comm (upd x a v) b a) by congruence.
  rewrite upd_upd; destruct v; reflexivity.
Qed.

Lemma fused_run_two a b tau psi x v w : a <> b ->
  run_gates (on_pair (data (xxyyzz_opt_gate tau)) a b) psi (two x a b v w)
  = if Bool.eqb v w
    then Cmul (Cexp (PI / 4 - PI * tau / 2)) (psi (two x a b v w))
    else Cmul (Cexp (PI / 4 + PI * tau / 2))
           (Cadd (Cmul (- cos (PI * tau), 0) (psi (two x a b v w)))
                 (Cmul (0, - sin (PI * tau)) (psi (two x a b (negb v) (negb w))))).
Proof.
  intros Hab.
  change (on_pair (data (xxyyzz_opt_gate tau)) a b)
    with [qc_rz (PI / 2) b; qc_cx b a; qc_rz (PI * tau - PI / 2) a;
          qc_ry (PI / 2 - PI * tau) b; qc_cx a b; qc_ry (PI * tau - PI / 2) b;
          qc_cx b a; qc_rz (- PI / 2) a].
  unfold run_gates; cbn [fold_left gate_op].
  destruct v, w; cbn [Bool.eqb negb];
  repeat first
    [ rewrite rz_two_fst by assumption
    | rewrite rz_two_snd
    | rewrite cx_two_fst by assumption
    | rewrite cx_two_snd by assumption
    | rewrite apply1_two_snd
    | progress cbn [xorb entry RZGate RYGate m00 m01 m10 m11] ].
  all: set (p00 := psi (two x a b false false));
       set (p01 := psi (two x a b false true));
       set (p10 := psi (two x a b true false));
       set (p11 := psi (two x a b true true)).
  all: pose (th := PI * tau / 2 - PI / 4);
       replace (- PI / 2 / 2) with (- (PI / 4)) by lra;
       replace (PI / 2 / 2) with (PI / 4) by lra;
       replace ((PI * tau - PI / 2) / 2) with th by (unfold th; lra);
       replace ((PI / 2 - PI * tau) / 2) with (- th) by (unfold th; lra);
       replace (PI / 4 - PI * tau / 2) with (- th) by (unfold th; lra);
       replace (PI / 4 + PI * tau / 2) with (th + PI / 2) by (unfold th; lra);
       replace (PI * tau) with (2 * th + PI / 2) by (unfold th; lra);
       unfold Cexp;
       rewrite ?cos_plus, ?sin_plus, ?cos_PI2, ?sin_PI2, ?cos_2a, ?sin_2a,
         ?Ropp_involutive, ?cos_neg, ?sin_neg, ?cos_PI4, ?sin_PI4;
       pose proof (cos_sin_sq th) as Hcs;
       pose proof inv_sqrt2_sq as Hr;
       generalize dependent (cos th); generalize dependent (sin th);
       intros s c Hcs; clearbody p00 p01 p10 p11; clear th.
  all: replace (1 / sqrt 2) with (/ sqrt 2) by lra;
       assert (Hr2 : 2 * (/ sqrt 2 * / sqrt 2) = 1) by lra; clear Hr;
       generalize dependent (/ sqrt 2); intros r Hr;
       destruct p00 as [a0 b0], p01 as [a1 b1], p10 as [a2 b2], p11 as [a3 b3];
       unfold Cmul, Cadd; cbn [fst snd]; apply C_eq.
  all: nsatz.
Qed.

Lemma flip_in_involutive qs x : flip_in qs (flip_in qs x) = x.
Proof.
  apply functional_extensionality; intros k; unfold flip_in.
  destruct (existsb (Nat.eqb k) qs); [apply negb_involutive | reflexivity].
Qed.

Lemma flip_in_two a b x :
  a <> b -> flip_in [a; b] x = two x a b (negb (x a)) (negb (x b)).
Proof.
  intros Hab; rewrite <- flip_in_pair by assumption; unfold two.
  apply upd_comm; congruence.
Qed.

(** The fused block, at any label. *)
Lemma fused_run a b tau psi x :
  a <> b ->
  run_gates (on_pair (data (xxyyzz_opt_gate tau)) a b) psi x
  = if Bool.eqb (x a) (x b)
    then Cmul (Cexp (PI / 4 - PI * tau / 2)) (psi x)
    else Cmul (Cexp (PI / 4 + PI * tau / 2))
           (Cadd (Cmul (- cos (PI * tau), 0) (psi x))
                 (Cmul (0, - sin (PI * tau)) (psi (flip_in [a; b] x)))).
Proof.
  intros Hab.
  rewrite flip_in_two by assumption.
  pose proof (fused_run_two a b tau psi x (x a) (x b) Hab) as H.
  rewrite two_id in H; exact H.
Qed.

(** XX, YY and ZZ one after the other on one pair. *)
Lemma xx_yy_zz_run a b tau psi x :
  a <> b ->
  run_gates (on_pair (data (xx_gate tau)) a b
             ++ on_pair (data (yy_gate tau)) a b
             ++ on_pair (data (zz_gate tau)) a b) psi x
  = if Bool.eqb (x a) (x b)
    then Cmul (Cexp (- (PI * tau / 2))) (psi x)
    else Cmul (Cexp (PI * tau / 2))
           (Cadd (Cmul (cos (PI * tau), 0) (psi x))
                 (Cmul (0, - sin (PI * tau)) (psi (flip_in [a; b] x)))).
Proof.
  intros Hab.
  rewrite !run_gates_app, zz_run, yy_run, xx_run by assumption.
  fold (xx_op a b (PI * tau) psi).
  rewrite xx_op_split by assumption.
  unfold diag, state_add, state_scale.
  rewrite yy_pointwise by assumption.
  unfold state_add, state_scale.
  rewrite !xx_pointwise by assumption.
  rewrite flip_in_involutive.
  unfold zz_phase.
  set (t := PI * tau / 2).
  replace (PI * tau) with (2 * t) by (unfold t; lra).
  clearbody t.
  generalize (psi x) (psi (flip_in [a; b] x)); intros [p1 p2] [q1 q2].
  pose proof (cos_sin_sq t) as Hcs.
  destruct (x a), (x b); cbn [Bool.eqb negb xorb entry RZGate m00 m11];
    unfold Cexp, Cmul, Cadd, Copp, C1; cbn [fst snd];
    replace (2 * t / 2) with t by lra;
    rewrite ?cos_2a, ?sin_2a, ?cos_neg, ?sin_neg;
    generalize dependent (cos t); generalize dependent (sin t);
    intros s c Hcs; apply C_eq; nsatz.
Qed.

End TwoQubitLabels.

Lemma length_forward_order self :
  List.length (forward_order self) = n_spins self - 1.
Proof.
  unfold forward_order, pass, range3.
  rewrite length_app, !length_map, !length_seq.
  change (0 mod 2) with 0; change (1 mod 2) with 1; change (2 - 1) with 1.
  destruct (n_spins self - 1) as [|m]; [reflexivity|].
  replace (S m - 0 + 1) with (m + 1 * 2) by lia.
  replace (S m - 1 + 1) with (m + 1) by lia.
  rewrite Nat.div_add by lia.
  pose proof (Nat.div_mod_eq m 2); pose proof (Nat.mod_upper_bound m 2).
  pose proof (Nat.div_mod_eq (m + 1) 2); pose proof (Nat.mod_upper_bound (m + 1) 2).
  assert (m mod 2 = 0 /\ (m + 1) mod 2 = 1 \/ m mod 2 = 1 /\ (m + 1) mod 2 = 0).
  { destruct (Nat.eq_dec (m mod 2) 0) as [E|E].
    - left; split; [exact E|].
      rewrite Nat.Div0.add_mod, E by lia; reflexivity.
    - right; split; [lia|].
      rewrite Nat.Div0.add_mod by lia.
      replace (m mod 2) with 1 by lia; reflexivity. }
  lia.
Qed.

Lemma length_steps k (step : list instr) :
  List.length (steps k step) = k * List.length step.
Proof.
  unfold steps; induction k as [|k IH]; simpl; [reflexivity|].
  rewrite length_app, IH; reflexivity.
Qed.

Lemma length_coupling_layer self gate order :
  List.length (coupling_layer self gate order) = List.length order.
Proof. apply length_map. Qed.

Lemma length_rotation_layer self rot angle :
  List.length (rotation_layer self rot angle) = n_spins self.
Proof. unfold rotation_layer, range; rewrite length_map; apply length_seq. Qed.

(** ** Separate-axis mode: the plain steps of the quasi-inverse *)

Lemma flip_below_involutive n x : flip_below n (flip_below n x) = x.
Proof.
  apply functional_extensionality; intros k; unfold flip_below.
  destruct (k <? n); [apply negb_involutive | reflexivity].
Qed.

Lemma flip_below_at n x q : q < n -> flip_below n x q = negb (x q).
Proof.
  intros Hq; unfold flip_below.
  apply Nat.ltb_lt in Hq; rewrite Hq; reflexivity.
Qed.

Lemma flip_below_upd n x q v :
  q < n -> flip_below n (upd x q v) = upd (flip_below n x) q (negb v).
Proof.
  intros Hq; apply functional_extensionality; intros k; unfold flip_below, upd.
  destruct (Nat.eqb_spec k q) as [->|Hk]; [|reflexivity].
  apply Nat.ltb_lt in Hq; rewrite Hq; reflexivity.
Qed.

Lemma flip_in_flip_below n l x :
  flip_in l (flip_below n x) = flip_below n (flip_in l x).
Proof.
  apply functional_extensionality; intros k; unfold flip_in, flip_below.
  destruct (existsb (Nat.eqb k) l), (k <? n); reflexivity.
Qed.

Lemma apply1_flip_equivariant U q n :
  q < n -> m11 U = m00 U -> m10 U = m01 U ->
  flip_equivariant n (apply1 U q).
Proof.
  intros Hq H0 H1 psi; apply functional_extensionality; intros x.
  unfold apply1.
  rewrite flip_below_at, !flip_below_upd by assumption.
  destruct (x q); simpl; rewrite ?H0, ?H1; ring.
Qed.

Lemma flip_equivariant_nil n : flip_equivariant n (run_gates []).
Proof. intros psi; reflexivity. Qed.

Lemma flip_equivariant_app n l1 l2 :
  flip_equivariant n (run_gates l1) -> flip_equivariant n (run_gates l2) ->
  flip_equivariant n (run_gates (l1 ++ l2)).
Proof.
  intros H1 H2 psi; rewrite run_gates_app, H1, H2.
  apply functional_extensionality; intros x; rewrite run_gates_app; reflexivity.
Qed.

Lemma flip_equivariant_flat_map {A : Type} n (f : A -> list instr) (l : list A) :
  (forall a, In a l -> flip_equivariant n (run_gates (f a))) ->
  flip_equivariant n (run_gates (flat_map f l)).
Proof.
  induction l as [|a l IH]; intros H; [apply flip_equivariant_nil|].
  simpl; apply flip_equivariant_app.
  - apply H; left; reflexivity.
  - apply IH; intros a' Ha'; apply H; right; assumption.
Qed.

Lemma flip_equivariant_steps n k step :
  flip_equivariant n (run_gates step) ->
  flip_equivariant n (run_gates (steps k step)).
Proof.
  intros H; unfold steps; induction k as [|k IH]; simpl;
    [apply flip_equivariant_nil | apply flip_equivariant_app; assumption].
Qed.

Lemma flip_equivariant_barrier n : flip_equivariant n (run_gates [qc_barrier]).
Proof. intros psi; reflexivity. Qed.

Section SeparateAxes.
Local Open Scope R_scope.

Lemma yy_mirror_run a b tau psi :
  a <> b ->
  run_gates (on_pair (data (yy_gate_mirror tau)) a b) psi
  = state_add (state_scale (cos (- PI * tau / 2), 0) psi)
      (state_scale (0, - sin (- PI * tau / 2))
         (apply1 SdgXS b (apply1 SdgXS a psi))).
Proof.
  intros Hab.
  change (on_pair (data (yy_gate_mirror tau)) a b)
    with ([qc_s a; qc_s b] ++ on_pair (data (xx_gate_mirror tau)) a b
          ++ [qc_sdg a; qc_sdg b]).
  rewrite !run_gates_app, xx_mirror_run by assumption.
  fold (xx_op a b (- PI * tau) (run_gates [qc_s a; qc_s b] psi)).
  rewrite xx_op_split by assumption.
  change (run_gates [qc_s a; qc_s b] psi) with (apply1 SGate b (apply1 SGate a psi)).
  change (run_gates [qc_sdg a; qc_sdg b] ?phi)
    with (apply1 SdgGate b (apply1 SdgGate a phi)).
  rewrite !apply1_state_add, !apply1_state_scale.
  f_equal; f_equal.
  - rewrite (apply1_comm SdgGate SGate a b) by assumption.
    rewrite !sdg_s; reflexivity.
  - rewrite (apply1_comm XGate SGate a b) by assumption.
    rewrite (apply1_comm SdgGate XGate a b) by assumption.
    rewrite (apply1_comm SdgGate SGate a b) by assumption.
    rewrite !sdg_x_s; reflexivity.
Qed.

Lemma apply1_same_comm U q q' psi :
  apply1 U q (apply1 U q' psi) = apply1 U q' (apply1 U q psi).
Proof.
  destruct (Nat.eq_dec q q') as [->|Hq]; [reflexivity | apply apply1_comm, Hq].
Qed.

(** Two operators [k + s U U] built from one single-qubit operator commute,
    wherever their pairs lie. *)
Lemma pair_forms_commute U a b c d (k1 s1 k2 s2 : C) :
  commute
    (fun psi => state_add (state_scale k1 psi)
                  (state_scale s1 (apply1 U b (apply1 U a psi))))
    (fun psi => state_add (state_scale k2 psi)
                  (state_scale s2 (apply1 U d (apply1 U c psi)))).
Proof.
  intros psi; cbv beta.
  rewrite !apply1_state_add, !apply1_state_scale.
  rewrite (apply1_same_comm U a d), (apply1_same_comm U a c).
  rewrite (apply1_same_comm U b d), (apply1_same_comm U b c).
  apply functional_extensionality; intros x.
  unfold state_add, state_scale; ring.
Qed.

Lemma xx_block_run a b tau psi x :
  a <> b ->
  run_gates (on_pair (data (xx_gate tau)) a b) psi x
  = Cadd (Cmul (cos (PI * tau / 2), 0) (psi x))
         (Cmul (0, - sin (PI * tau / 2)) (psi (flip_in [a; b] x))).
Proof.
  intros Hab.
  rewrite xx_run by assumption.
  fold (xx_op a b (PI * tau) psi).
  rewrite xx_op_split by assumption.
  unfold state_add, state_scale.
  rewrite xx_pointwise by assumption.
  reflexivity.
Qed.

Lemma yy_block_run a b tau psi x :
  a <> b ->
  run_gates (on_pair (data (yy_gate tau)) a b) psi x
  = Cadd (Cmul (cos (PI * tau / 2), 0) (psi x))
         (Cmul (0, - sin (PI * tau / 2))
            (Cmul (if xorb (x a) (x b) then C1 else Copp C1)
               (psi (flip_in [a; b] x)))).
Proof.
  intros Hab.
  rewrite yy_run by assumption.
  unfold state_add, state_scale.
  rewrite yy_pointwise by assumption.
  reflexivity.
Qed.

Lemma zz_block_equivariant n a b tau :
  a <> b -> (a < n)%nat -> (b < n)%nat ->
  flip_equivariant n (run_gates (on_pair (data (zz_gate tau)) a b)).
Proof.
  intros Hab Ha Hb psi.
  rewrite !zz_run by assumption.
  apply functional_extensionality; intros x; unfold diag; f_equal.
  unfold zz_phase; rewrite !flip_below_at by assumption.
  destruct (x a), (x b); reflexivity.
Qed.

Lemma xx_block_equivariant n a b tau :
  a <> b ->
  flip_equivariant n (run_gates (on_pair (data (xx_gate tau)) a b)).
Proof.
  intros Hab psi.
  apply functional_extensionality; intros x.
  rewrite !xx_block_run by assumption.
  rewrite flip_in_flip_below; reflexivity.
Qed.

Lemma yy_block_equivariant n a b tau :
  a <> b -> (a < n)%nat -> (b < n)%nat ->
  flip_equivariant n (run_gates (on_pair (data (yy_gate tau)) a b)).
Proof.
  intros Hab Ha Hb psi.
  apply functional_extensionality; intros x.
  rewrite !yy_block_run by assumption.
  rewrite flip_in_flip_below, !flip_below_at by assumption.
  destruct (x a), (x b); reflexivity.
Qed.

Lemma rz_zero theta q psi : theta = 0 -> apply1 (RZGate theta) q psi = psi.
Proof.
  intros ->; rewrite <- (apply1_id q psi) at 2; f_equal.
  unfold RZGate, mat_id.
  replace (0 / 2) with 0 by lra.
  rewrite Ropp_0; unfold Cexp; rewrite cos_0, sin_0; reflexivity.
Qed.

End SeparateAxes.

Section SeparateQuasiInverse.
Local Open Scope R_scope.
Variable self : HamiltonianKernel.

Lemma yy_layer_cancels_same_order :
  cancels (decompose (coupling_layer self (yy_gate (tau self)) (forward_order self)))
          (decompose (coupling_layer self (yy_gate_mirror (tau self))
                        (forward_order self))).
Proof.
  rewrite !decompose_coupling_layer.
  apply cancels_same_order.
  - apply NoDup_forward_order.
  - intros i Hi; apply in_forward_order in Hi.
    rewrite !block_on_pair by assumption.
    apply yy_cancels; lia.
  - intros i j Hi Hj _ psi.
    apply in_forward_order in Hi; apply in_forward_order in Hj.
    rewrite !block_on_pair by assumption.
    rewrite !yy_run, !yy_mirror_run by lia.
    exact (pair_forms_commute SdgXS i (i + 1) j (j + 1) _ _ _ _ psi).
Qed.

Lemma separate_quasi_step_cancel :
  use_XX_YY_ZZ_gates self = true ->
  cancels (decompose (heisenberg_step self)) (decompose (separate_quasi_step self)).
Proof.
  intros Hsep.
  unfold heisenberg_step, separate_quasi_step, heisenberg_coupling; rewrite Hsep.
  replace (coupling_layer self (zz_gate_mirror (tau self)) (forward_order self)
           ++ coupling_layer self (yy_gate_mirror (tau self)) (forward_order self)
           ++ coupling_layer self (xx_gate_mirror (tau self)) (forward_order self)
           ++ [qc_barrier] ++ heisenberg_fields_inverse self ++ [qc_barrier])
    with ((coupling_layer self (zz_gate_mirror (tau self)) (forward_order self)
           ++ coupling_layer self (yy_gate_mirror (tau self)) (forward_order self)
           ++ coupling_layer self (xx_gate_mirror (tau self)) (forward_order self))
          ++ [qc_barrier] ++ heisenberg_fields_inverse self ++ [qc_barrier])
    by (rewrite <- !app_assoc; reflexivity).
  rewrite !decompose_step.
  apply cancels_around_barriers; [apply heisenberg_fields_cancel|].
  rewrite !decompose_app.
  rewrite (app_assoc (decompose (coupling_layer self (zz_gate_mirror _) _))).
  apply cancels_app; [apply xx_layer_cancels|].
  apply cancels_app; [apply yy_layer_cancels_same_order | apply zz_layer_cancels].
Qed.

Lemma coupling_layer_equivariant gate :
  (forall i, (i + 1 < n_spins self)%nat ->
             flip_equivariant (n_spins self)
               (run_gates (on_pair (data gate) i (i + 1)))) ->
  flip_equivariant (n_spins self)
    (run_gates (decompose (coupling_layer self gate (forward_order self)))).
Proof.
  intros H; rewrite decompose_coupling_layer.
  apply flip_equivariant_flat_map; intros i Hi.
  apply in_forward_order in Hi.
  rewrite block_on_pair by assumption; apply H, Hi.
Qed.

Lemma rx_layer_equivariant angle :
  flip_equivariant (n_spins self)
    (run_gates (decompose (rotation_layer self qc_rx angle))).
Proof.
  unfold decompose, rotation_layer; rewrite flat_map_map_comp.
  apply flip_equivariant_flat_map; intros i Hi.
  apply in_seq in Hi.
  apply (apply1_flip_equivariant (RXGate (angle i)) i); [lia | reflexivity..].
Qed.

Lemma rz_layer_trivial angle psi :
  (forall i, (i < n_spins self)%nat -> angle i = 0) ->
  run_gates (decompose (rotation_layer self qc_rz angle)) psi = psi.
Proof.
  intros H; unfold decompose, rotation_layer, range; rewrite flat_map_map_comp.
  assert (Hl : forall i, In i (seq 0 (n_spins self)) -> (i < n_spins self)%nat)
    by (intros i Hi; apply in_seq in Hi; lia).
  revert psi Hl; induction (seq 0 (n_spins self)) as [|i l IH]; intros psi Hl;
    [reflexivity|].
  cbn [flat_map inline]; rewrite run_gates_app.
  change (run_gates [qc_rz (angle i) i] psi) with (apply1 (RZGate (angle i)) i psi).
  rewrite rz_zero by (apply H, Hl; left; reflexivity).
  apply IH; intros j Hj; apply Hl; right; assumption.
Qed.

Lemma separate_step_equivariant :
  use_XX_YY_ZZ_gates self = true ->
  (forall i, (i < n_spins self)%nat -> w self * hz_at self i = 0) ->
  flip_equivariant (n_spins self) (run_gates (decompose (heisenberg_step self))).
Proof.
  intros Hsep Hz.
  unfold heisenberg_step, heisenberg_coupling, heisenberg_fields; rewrite Hsep.
  rewrite !decompose_app.
  repeat apply flip_equivariant_app; try apply flip_equivariant_barrier.
  - apply rx_layer_equivariant.
  - intros psi; rewrite !rz_layer_trivial; [reflexivity | |];
      intros i Hi; rewrite Rmult_assoc, (Hz i Hi); ring.
  - apply coupling_layer_equivariant; intros i Hi.
    apply xx_block_equivariant; lia.
  - apply coupling_layer_equivariant; intros i Hi.
    apply yy_block_equivariant; lia.
  - apply coupling_layer_equivariant; intros i Hi.
    apply zz_block_equivariant; lia.
Qed.

Lemma leading_twirl_all_x coin :
  (forall i, (i < n_spins self)%nat -> coin i = true) ->
  leading_twirl self coin = map qc_x (seq 0 (n_spins self)).
Proof.
  intros H; unfold leading_twirl, range.
  apply map_ext_in; intros i Hi; apply in_seq in Hi.
  unfold twirl_gate; rewrite H by lia; reflexivity.
Qed.

End SeparateQuasiInverse.


(* ================================================================== *)
(** * The claims *)
(* ================================================================== *)

(** C1.  For every chain length and number of Trotter steps, in particular
    for n_spins in {2,4,5,6} and K in {1,2,3}, and for the Heisenberg kernel
    in fused and in separate-axis mode as well as for the TFIM kernel: when
    the field arrays cover the chain, [create_hamiltonian] and
    [create_inverse_hamiltonian] both return, and the gates of the first
    followed by the gates of the second act as the identity up to a global
    phase on every state. *)
Theorem forward_then_inverse_is_identity (self : HamiltonianKernel) :
  fields_cover self ->
  composes_to_identity (Heisenberg.create_hamiltonian self)
                       (Heisenberg.create_inverse_hamiltonian self)
  /\ composes_to_identity (Tfim.create_hamiltonian self)
                          (Tfim.create_inverse_hamiltonian self).
Proof.
  intros Hc; split.
  - pose proof (heisenberg_forward_inverse_exact self Hc) as Hid.
    unfold Heisenberg.create_hamiltonian, Heisenberg.create_inverse_hamiltonian in *.
    rewrite (emits_gates _ _ _ (heisenberg_create_hamiltonian_emits self Hc)) in *.
    rewrite (emits_gates _ _ _ (heisenberg_create_inverse_hamiltonian_emits self Hc)) in *.
    eexists _, _; repeat split.
    apply identity_is_up_to_phase, Hid.
  - pose proof (tfim_forward_inverse_exact self) as Hid.
    unfold Tfim.create_hamiltonian, Tfim.create_inverse_hamiltonian in *.
    rewrite (emits_gates _ _ _ (tfim_create_hamiltonian_emits self)) in *.
    rewrite (emits_gates _ _ _ (tfim_create_inverse_hamiltonian_emits self)) in *.
    eexists _, _; repeat split.
    apply identity_is_up_to_phase, Hid.
Qed.

Lemma uniform_kernel_covered n k separate :
  fields_cover (uniform_kernel n k separate).
Proof. split; simpl; rewrite repeat_length; lia. Qed.

Lemma forward_then_inverse_is_identity_witness :
  composes_to_identity (Heisenberg.create_hamiltonian (uniform_kernel 4 2 false))
    (Heisenberg.create_inverse_hamiltonian (uniform_kernel 4 2 false))
  /\ composes_to_identity (Tfim.create_hamiltonian (uniform_kernel 4 2 false))
       (Tfim.create_inverse_hamiltonian (uniform_kernel 4 2 false)).
Proof.
  apply (forward_then_inverse_is_identity (uniform_kernel 4 2 false)).
  split; simpl; lia.
Defined.

(** C9.  For every angle tau, the fused block followed by its mirror block is
    the identity, and so is the mirror followed by the fused block: the
    mirror is the inverse, hence the adjoint, of the fused block; its gate
    list is the fused list reversed with every rotation angle negated. *)
Theorem xxyyzz_mirror_is_adjoint (tau : R) :
  identity_up_to_phase
    (run (data (xxyyzz_opt_gate tau) ++ data (xxyyzz_opt_gate_mirror tau)))
  /\ identity_up_to_phase
       (run (data (xxyyzz_opt_gate_mirror tau) ++ data (xxyyzz_opt_gate tau)))
  /\ data (xxyyzz_opt_gate_mirror tau) = dagger_list (data (xxyyzz_opt_gate tau)).
Proof.
  assert (H01 : 0 <> 1) by discriminate.
  split; [|split].
  - apply identity_is_up_to_phase; intros psi; rewrite run_app.
    apply (xxyyzz_cancels 0 1 tau H01).
  - apply identity_is_up_to_phase; intros psi; rewrite run_app.
    apply (xxyyzz_cancels_rev 0 1 tau H01).
  - apply (xxyyzz_mirror_dagger 0 1 tau).
Qed.

(** C7.  For every angle tau and tags pauli1, pauli2 in {x, z}: the
    quasi-mirror block is, on qubit 0, H, Z, Rx(pi/2), H for pauli1 = x and
    H, X, Rx(pi/2), H for pauli1 = z; then on qubit 1 a bare X for
    pauli2 = x and a bare Z for pauli2 = z; then the gates of the mirror
    block without its leading Rz(pi/2) on qubit 0. *)
Theorem quasi_mirror_block_structure (tau : R) (pauli1 pauli2 : string) :
  In pauli1 ["x"; "z"] -> In pauli2 ["x"; "z"] ->
  hd_error (data (xxyyzz_opt_gate_mirror tau)) = Some (qc_rz (PI / 2) 0)
  /\ data (xxyyzz_opt_gate_quasi_mirror tau pauli1 pauli2)
     = (if (pauli1 =? "x")%string
        then [qc_h 0; qc_z 0; qc_rx (PI / 2) 0; qc_h 0]
        else [qc_h 0; qc_x 0; qc_rx (PI / 2) 0; qc_h 0])
       ++ [if (pauli2 =? "x")%string then qc_x 1 else qc_z 1]
       ++ tl (data (xxyyzz_opt_gate_mirror tau)).
Proof.
  intros [<-|[<-|[]]] [<-|[<-|[]]]; split; reflexivity.
Qed.

Lemma quasi_mirror_block_structure_witness :
  hd_error (data (xxyyzz_opt_gate_mirror 1)) = Some (qc_rz (PI / 2) 0)
  /\ data (xxyyzz_opt_gate_quasi_mirror 1 "x" "z")
     = [qc_h 0; qc_z 0; qc_rx (PI / 2) 0; qc_h 0]
       ++ [qc_z 1]
       ++ tl (data (xxyyzz_opt_gate_mirror 1)).
Proof.
  apply (quasi_mirror_block_structure 1 "x" "z"); simpl; auto.
Defined.

(** C8.  The ResultantState is a function of n_spins alone: an X gate on
    every qubit 0 .. n_spins-1 (and a closing barrier), whatever tags are
    drawn.  Whenever the quasi-inverse build of the Heisenberg kernel returns
    (fields covering the chain, and at least one qubit in fused mode), the
    last instruction of its circuit is that same ResultantState on all
    qubits, for every draw. *)
Theorem resultant_state_is_twirl_independent
    (self : HamiltonianKernel) (coin : nat -> bool) :
  data (ResultantPauli self) = map qc_x (range (n_spins self)) ++ [qc_barrier]
  /\ (fields_cover self ->
      (use_XX_YY_ZZ_gates self = false -> 1 <= n_spins self) ->
      exists before,
        Heisenberg.create_quasi_inverse_hamiltonian self coin
        = Ok ("QuasiInverseHeisenberg",
              before ++ [to_instruction (ResultantPauli self)
                           (range (n_spins self))])).
Proof.
  split; [apply ResultantPauli_gates|].
  intros Hc Hn.
  exists (leading_twirl self coin ++ [qc_barrier] ++ quasi_inverse_steps self coin).
  unfold Heisenberg.create_quasi_inverse_hamiltonian.
  rewrite (emits_gates _ _ _ (quasi_inverse_emits self coin Hc Hn)).
  unfold quasi_inverse_gates, resultant_instruction.
  rewrite <- !app_assoc; reflexivity.
Qed.

Lemma resultant_state_is_twirl_independent_witness :
  data (ResultantPauli (uniform_kernel 3 1 false)) = [qc_x 0; qc_x 1; qc_x 2; qc_barrier]
  /\ exists before,
       Heisenberg.create_quasi_inverse_hamiltonian (uniform_kernel 3 1 false)
         alternating_coin
       = Ok ("QuasiInverseHeisenberg",
             before ++ [to_instruction (ResultantPauli (uniform_kernel 3 1 false))
                          (range 3)]).
Proof.
  destruct (resultant_state_is_twirl_independent (uniform_kernel 3 1 false)
              alternating_coin) as [Hdata Hlast].
  split; [exact Hdata|].
  apply Hlast.
  - split; simpl; lia.
  - intros _; simpl; lia.
Defined.

(** C10.  In separate-axis mode the quasi-inverse build of the Heisenberg
    kernel returns exactly: the random twirl gate of every qubit and a
    barrier; then, for each of the K steps, the ZZ-mirror, YY-mirror and
    XX-mirror blocks, each in forward pass and pair order, a barrier, the
    negated Rz and Rx rotations and a barrier; then the ResultantState.  No
    quasi-mirror block occurs in it, and its only X or Z gates are the
    n_spins leading twirl gates: no boundary twirl gate is emitted. *)
Theorem separate_axis_quasi_inverse_is_plain (self : HamiltonianKernel)
    (coin : nat -> bool) :
  fields_cover self -> use_XX_YY_ZZ_gates self = true ->
  Heisenberg.create_quasi_inverse_hamiltonian self coin
  = Ok ("QuasiInverseHeisenberg",
        leading_twirl self coin ++ [qc_barrier]
        ++ steps (K self)
             (coupling_layer self (zz_gate_mirror (tau self)) (forward_order self)
              ++ coupling_layer self (yy_gate_mirror (tau self)) (forward_order self)
              ++ coupling_layer self (xx_gate_mirror (tau self)) (forward_order self)
              ++ [qc_barrier] ++ heisenberg_fields_inverse self ++ [qc_barrier])
        ++ [to_instruction (ResultantPauli self) (range (n_spins self))])
  /\ existsb is_quasi_mirror
       (gates (Heisenberg.create_quasi_inverse_hamiltonian self coin)) = false
  /\ filter is_pauli_gate
       (gates (Heisenberg.create_quasi_inverse_hamiltonian self coin))
     = leading_twirl self coin.
Proof.
  intros Hc Hsep.
  assert (E : Heisenberg.create_quasi_inverse_hamiltonian self coin
              = Ok ("QuasiInverseHeisenberg",
                    leading_twirl self coin ++ [qc_barrier]
                    ++ steps (K self) (separate_quasi_step self)
                    ++ [resultant_instruction self])).
  { unfold Heisenberg.create_quasi_inverse_hamiltonian.
    rewrite (emits_gates _ _ _ (quasi_inverse_emits self coin Hc
               (fun Hf => False_ind _ (eq_true_false_abs _ Hsep Hf)))).
    unfold quasi_inverse_gates, quasi_inverse_steps; rewrite Hsep; reflexivity. }
  split; [exact E|]; rewrite E; unfold gates, data; cbn [snd]; split.
  - rewrite !existsb_app, leading_twirl_no_quasi_mirror.
    rewrite existsb_steps by apply separate_quasi_step_no_quasi_mirror.
    reflexivity.
  - rewrite !filter_app, leading_twirl_all_pauli.
    rewrite filter_steps by apply separate_quasi_step_no_pauli.
    simpl; rewrite app_nil_r; reflexivity.
Qed.

Lemma separate_axis_quasi_inverse_is_plain_witness :
  existsb is_quasi_mirror
    (gates (Heisenberg.create_quasi_inverse_hamiltonian (uniform_kernel 4 2 true)
              alternating_coin)) = false
  /\ filter is_pauli_gate
       (gates (Heisenberg.create_quasi_inverse_hamiltonian (uniform_kernel 4 2 true)
                 alternating_coin))
     = [qc_x 0; qc_z 1; qc_x 2; qc_z 3].
Proof.
  apply (separate_axis_quasi_inverse_is_plain (uniform_kernel 4 2 true)
           alternating_coin).
  - split; simpl; lia.
  - reflexivity.
Defined.

(** C6, as stated, fails on a chain of 3 with one step: the first
    instruction after the leading twirl and its barrier is the quasi-mirror
    block of pair (1,2), not the twirl gate of qubit 0. *)
Lemma boundary_twirl_not_before_coupling :
  ~ spec_boundary_twirl_before_coupling (uniform_kernel 3 1 false) alternating_coin.
Proof.
  intros [rest E].
  unfold Heisenberg.create_quasi_inverse_hamiltonian in E.
  rewrite (emits_gates _ _ _
             (quasi_inverse_emits (uniform_kernel 3 1 false) alternating_coin
                (uniform_kernel_covered 3 1 false) (fun _ => le_S _ _ (le_S _ _ (le_n 1)))))
    in E.
  unfold gates, data, quasi_inverse_gates in E; cbn [snd] in E.
  apply app_inv_head in E; apply app_inv_head in E.
  apply (f_equal (@hd_error instr)) in E.
  discriminate E.
Qed.

(** C6, amended.  In every fused-mode Heisenberg quasi-inverse build with at
    least one step (fields covering a chain of at least one qubit), the
    boundary twirl gates are emitted inside the first reversed step, after
    its quasi-mirror pass (pass 1) and before its mirror pass (pass 0): for
    odd n_spins exactly one, on qubit 0, and for even n_spins exactly two, on
    qubits 0 and n_spins-1, each an X for the tag "x" and a Z for the tag
    "z" of that qubit. *)
Theorem boundary_twirl_between_passes (self : HamiltonianKernel)
    (coin : nat -> bool) :
  fields_cover self -> use_XX_YY_ZZ_gates self = false ->
  1 <= n_spins self -> 1 <= K self ->
  Heisenberg.create_quasi_inverse_hamiltonian self coin
  = Ok ("QuasiInverseHeisenberg",
        leading_twirl self coin ++ [qc_barrier]
        ++ (quasi_mirror_layer self coin (rev (pass self 1))
            ++ boundary_twirl_gates self coin
            ++ coupling_layer self (xxyyzz_opt_gate_mirror (tau self))
                 (rev (pass self 0))
            ++ [qc_barrier] ++ heisenberg_fields_inverse self ++ [qc_barrier])
        ++ steps (K self - 1) (fused_inverse_step self)
        ++ [resultant_instruction self])
  /\ (n_spins self mod 2 = 1 ->
      boundary_twirl_gates self coin = [twirl_gate coin 0])
  /\ (n_spins self mod 2 = 0 ->
      boundary_twirl_gates self coin
      = [twirl_gate coin 0; twirl_gate coin (n_spins self - 1)])
  /\ (forall q, twirl_gate coin q
                = if (tag coin q =? "x")%string then qc_x q else qc_z q).
Proof.
  intros Hc Hfused Hn HK; repeat split.
  - unfold Heisenberg.create_quasi_inverse_hamiltonian.
    rewrite (emits_gates _ _ _ (quasi_inverse_emits self coin Hc (fun _ => Hn))).
    unfold quasi_inverse_gates, quasi_inverse_steps; rewrite Hfused.
    destruct (K self) as [|k]; [lia|].
    simpl Nat.sub; rewrite Nat.sub_0_r.
    unfold quasi_first_step; rewrite <- !app_assoc; reflexivity.
  - intros Hodd; unfold boundary_twirl_gates; rewrite Hodd; reflexivity.
  - intros Heven; unfold boundary_twirl_gates; rewrite Heven; reflexivity.
  - intros q; unfold twirl_gate, tag; destruct (coin q); reflexivity.
Qed.

Lemma boundary_twirl_between_passes_witness :
  Heisenberg.create_quasi_inverse_hamiltonian (uniform_kernel 5 1 false)
    alternating_coin
  = Ok ("QuasiInverseHeisenberg",
        leading_twirl (uniform_kernel 5 1 false) alternating_coin ++ [qc_barrier]
        ++ (quasi_mirror_layer (uniform_kernel 5 1 false) alternating_coin
              (rev (pass (uniform_kernel 5 1 false) 1))
            ++ boundary_twirl_gates (uniform_kernel 5 1 false) alternating_coin
            ++ coupling_layer (uniform_kernel 5 1 false)
                 (xxyyzz_opt_gate_mirror (tau (uniform_kernel 5 1 false)))
                 (rev (pass (uniform_kernel 5 1 false) 0))
            ++ [qc_barrier]
            ++ heisenberg_fields_inverse (uniform_kernel 5 1 false)
            ++ [qc_barrier])
        ++ steps (1 - 1) (fused_inverse_step (uniform_kernel 5 1 false))
        ++ [resultant_instruction (uniform_kernel 5 1 false)])
  /\ (5 mod 2 = 1 ->
      boundary_twirl_gates (uniform_kernel 5 1 false) alternating_coin
      = [twirl_gate alternating_coin 0])
  /\ (5 mod 2 = 0 ->
      boundary_twirl_gates (uniform_kernel 5 1 false) alternating_coin
      = [twirl_gate alternating_coin 0; twirl_gate alternating_coin (5 - 1)])
  /\ (forall q, twirl_gate alternating_coin q
                = if (tag alternating_coin q =? "x")%string
                  then qc_x q else qc_z q).
Proof.
  apply (boundary_twirl_between_passes (uniform_kernel 5 1 false) alternating_coin).
  - split; simpl; lia.
  - reflexivity.
  - simpl; lia.
  - simpl; lia.
Defined.

(** C3, as stated, fails for the TFIM kernel on a chain of 3 with one step:
    [create_inverse_hamiltonian] appends the ZZ-mirror block of pair (0,1)
    (pass 0) first, where the reversed order starts with pair (1,2)
    (pass 1). *)
Lemma tfim_inverse_not_in_reverse_order :
  gates (Tfim.create_inverse_hamiltonian (uniform_kernel 3 1 false))
  <> steps (K (uniform_kernel 3 1 false))
       (spec_tfim_inverse_step (uniform_kernel 3 1 false)).
Proof.
  intros E.
  unfold Tfim.create_inverse_hamiltonian in E.
  rewrite (emits_gates _ _ _
             (tfim_create_inverse_hamiltonian_emits (uniform_kernel 3 1 false)))
    in E.
  apply (f_equal (fun c => map qubits (firstn 1 c))) in E.
  discriminate E.
Qed.

(** C3, amended.  When the field arrays cover the chain, every one of the K
    steps of [create_inverse_hamiltonian] is:
    - Heisenberg, fused mode: the mirror blocks in reverse pass order (pass 1
      before pass 0) with the pair order reversed within each pass, a
      barrier, then Rz and Rx with negated angles (Rz first), a barrier, as
      the specification words it;
    - Heisenberg, separate-axis mode: the ZZ-mirror blocks in forward pass
      and pair order, the YY-mirror blocks in reverse pass and pair order,
      the XX-mirror blocks in forward pass and pair order, a barrier, then Rz
      and Rx with negated angles, a barrier;
    - TFIM: the ZZ-mirror blocks in forward pass and pair order, a barrier,
      then Rx with the negated angle on every qubit, a barrier. *)
Theorem exact_inverse_step_structure (self : HamiltonianKernel) :
  fields_cover self ->
  Heisenberg.create_inverse_hamiltonian self
  = Ok ("InverseHeisenberg",
        steps (K self)
          ((if use_XX_YY_ZZ_gates self then
              coupling_layer self (zz_gate_mirror (tau self)) (forward_order self)
              ++ coupling_layer self (yy_gate_mirror (tau self)) (reversed_order self)
              ++ coupling_layer self (xx_gate_mirror (tau self)) (forward_order self)
            else
              coupling_layer self (xxyyzz_opt_gate_mirror (tau self))
                (reversed_order self))
           ++ [qc_barrier]
           ++ (rotation_layer self qc_rz
                 (fun i => (-2 * tau self * w self * hz_at self i)%R)
               ++ rotation_layer self qc_rx
                    (fun i => (-2 * tau self * w self * hx_at self i)%R))
           ++ [qc_barrier]))
  /\ Tfim.create_inverse_hamiltonian self
     = Ok ("InverseTFIM",
           steps (K self)
             (coupling_layer self (zz_gate_mirror (tau self)) (forward_order self)
              ++ [qc_barrier]
              ++ rotation_layer self qc_rx (fun _ => (-2 * tau self * Tfim.h)%R)
              ++ [qc_barrier]))
  /\ (use_XX_YY_ZZ_gates self = false ->
      gates (Heisenberg.create_inverse_hamiltonian self)
      = steps (K self) (spec_heisenberg_inverse_step self)).
Proof.
  intros Hc.
  pose proof (emits_gates "InverseHeisenberg" _ _
                (heisenberg_create_inverse_hamiltonian_emits self Hc)) as EH.
  pose proof (emits_gates "InverseTFIM" _ _
                (tfim_create_inverse_hamiltonian_emits self)) as ET.
  split; [exact EH | split; [exact ET|]].
  intros Hfused; unfold Heisenberg.create_inverse_hamiltonian; rewrite EH.
  unfold gates, data, heisenberg_inverse_step, spec_heisenberg_inverse_step,
    heisenberg_coupling_inverse; rewrite Hfused; reflexivity.
Qed.

Lemma exact_inverse_step_structure_witness :
  Heisenberg.create_inverse_hamiltonian (uniform_kernel 3 1 false)
  = Ok ("InverseHeisenberg",
        steps 1
          (coupling_layer (uniform_kernel 3 1 false)
             (xxyyzz_opt_gate_mirror (tau (uniform_kernel 3 1 false)))
             (reversed_order (uniform_kernel 3 1 false))
           ++ [qc_barrier]
           ++ heisenberg_fields_inverse (uniform_kernel 3 1 false)
           ++ [qc_barrier]))
  /\ reversed_order (uniform_kernel 3 1 false) = [1; 0]
  /\ forward_order (uniform_kernel 3 1 false) = [0; 1].
Proof.
  split; [|split; reflexivity].
  apply (exact_inverse_step_structure (uniform_kernel 3 1 false)).
  split; simpl; lia.
Defined.

(** C2, as stated, fails on a chain of 4 with one step: neither the
    Heisenberg nor the TFIM forward circuit has a block that joins qubit 3 to
    qubit 0. *)
Lemma wraparound_pair_not_coupled :
  ~ spec_wraparound_coupled (uniform_kernel 4 1 false)
      (gates (Heisenberg.create_hamiltonian (uniform_kernel 4 1 false)))
  /\ ~ spec_wraparound_coupled (uniform_kernel 4 1 false)
         (gates (Tfim.create_hamiltonian (uniform_kernel 4 1 false))).
Proof.
  assert (H4 : 3 <= n_spins (uniform_kernel 4 1 false)) by (simpl; lia).
  unfold spec_wraparound_coupled, Heisenberg.create_hamiltonian,
    Tfim.create_hamiltonian.
  rewrite (emits_gates _ _ _
             (heisenberg_create_hamiltonian_emits _ (uniform_kernel_covered 4 1 false))).
  rewrite (emits_gates _ _ _ (tfim_create_hamiltonian_emits (uniform_kernel 4 1 false))).
  unfold gates, data; cbn [snd].
  rewrite (heisenberg_forward_no_wraparound _ H4).
  rewrite (tfim_forward_no_wraparound _ H4).
  split; discriminate.
Qed.

(** C2, amended.  When the field arrays cover the chain, every Trotter step
    of the forward circuit of either kernel couples the pairs of pass 0 and
    then those of pass 1, where pass 0 holds exactly the pairs (i, i+1) with
    i even and i+1 <= n_spins-1 and pass 1 exactly those with i odd and
    i+1 <= n_spins-1: every pair (i, i+1) of the open chain is listed once,
    the modulus in the second qubit index never wraps, and on a chain of at
    least 3 qubits no block joins qubit n_spins-1 to qubit 0. *)
Theorem brick_passes_cover_open_chain (self : HamiltonianKernel) :
  fields_cover self ->
  Heisenberg.create_hamiltonian self
  = Ok ("Heisenberg",
        steps (K self)
          (heisenberg_fields self ++ [qc_barrier]
           ++ (if use_XX_YY_ZZ_gates self then
                 coupling_layer self (xx_gate (tau self)) (pass self 0 ++ pass self 1)
                 ++ coupling_layer self (yy_gate (tau self)) (pass self 0 ++ pass self 1)
                 ++ coupling_layer self (zz_gate (tau self)) (pass self 0 ++ pass self 1)
               else
                 coupling_layer self (xxyyzz_opt_gate (tau self))
                   (pass self 0 ++ pass self 1))
           ++ [qc_barrier]))
  /\ Tfim.create_hamiltonian self
     = Ok ("TFIM",
           steps (K self)
             (tfim_fields self ++ [qc_barrier]
              ++ coupling_layer self (zz_gate (tau self)) (pass self 0 ++ pass self 1)
              ++ [qc_barrier]))
  /\ (forall i, In i (pass self 0) <-> i + 1 < n_spins self /\ Nat.even i = true)
  /\ (forall i, In i (pass self 1) <-> i + 1 < n_spins self /\ Nat.odd i = true)
  /\ (forall i, In i (pass self 0 ++ pass self 1) <-> i + 1 < n_spins self)
  /\ NoDup (pass self 0 ++ pass self 1)
  /\ (forall i, In i (pass self 0 ++ pass self 1) -> pair_at self i = [i; i + 1])
  /\ (3 <= n_spins self ->
      ~ spec_wraparound_coupled self (gates (Heisenberg.create_hamiltonian self))
      /\ ~ spec_wraparound_coupled self (gates (Tfim.create_hamiltonian self))).
Proof.
  intros Hc.
  pose proof (emits_gates "Heisenberg" _ _
                (heisenberg_create_hamiltonian_emits self Hc)) as EH.
  pose proof (emits_gates "TFIM" _ _ (tfim_create_hamiltonian_emits self)) as ET.
  split; [exact EH|]. split; [exact ET|].
  split; [apply in_pass_0|]. split; [apply in_pass_1|].
  split; [apply in_forward_order_iff|].
  split; [apply NoDup_forward_order|].
  split; [intros i Hi; apply pair_at_inner, in_forward_order, Hi|].
  intros Hn.
  unfold spec_wraparound_coupled, Heisenberg.create_hamiltonian,
    Tfim.create_hamiltonian.
  rewrite EH, ET; unfold gates, data; cbn [snd].
  rewrite (heisenberg_forward_no_wraparound _ Hn).
  rewrite (tfim_forward_no_wraparound _ Hn).
  split; discriminate.
Qed.

Lemma brick_passes_cover_open_chain_witness :
  fields_cover (uniform_kernel 4 1 false)
  /\ NoDup (pass (uniform_kernel 4 1 false) 0 ++ pass (uniform_kernel 4 1 false) 1)
  /\ ~ spec_wraparound_coupled (uniform_kernel 4 1 false)
         (gates (Heisenberg.create_hamiltonian (uniform_kernel 4 1 false))).
Proof.
  assert (Hc : fields_cover (uniform_kernel 4 1 false)) by (split; simpl; lia).
  destruct (brick_passes_cover_open_chain (uniform_kernel 4 1 false) Hc)
    as (_ & _ & _ & _ & _ & Hnd & _ & Hwrap).
  split; [exact Hc | split; [exact Hnd|]].
  apply Hwrap; simpl; lia.
Defined.

(** C4: what the code does.  For every TFIM kernel and every draw,
    [create_quasi_inverse_hamiltonian] returns the gates of
    [create_inverse_hamiltonian] and nothing else: K steps of ZZ-mirror
    blocks, a barrier, negated Rx rotations and a barrier.  This is never a
    circuit that starts with the twirl gates and ends with the
    ResultantState. *)
Theorem tfim_quasi_inverse_has_no_twirl (self : HamiltonianKernel)
    (coin : nat -> bool) :
  gates (Tfim.create_quasi_inverse_hamiltonian self)
  = gates (Tfim.create_inverse_hamiltonian self)
  /\ Tfim.create_quasi_inverse_hamiltonian self
     = Ok ("QuasiInverseTFIM", steps (K self) (tfim_inverse_step self))
  /\ ~ spec_tfim_quasi_inverse_twirls self coin.
Proof.
  pose proof (emits_gates "QuasiInverseTFIM" _ _
                (tfim_create_quasi_inverse_hamiltonian_emits self)) as EQ.
  pose proof (emits_gates "InverseTFIM" _ _
                (tfim_create_inverse_hamiltonian_emits self)) as EI.
  split; [|split; [exact EQ|]].
  { unfold Tfim.create_quasi_inverse_hamiltonian, Tfim.create_inverse_hamiltonian.
    rewrite EQ, EI; reflexivity. }
  intros [steps_part E].
  unfold Tfim.create_quasi_inverse_hamiltonian in E; rewrite EQ in E.
  unfold gates, data in E; cbn [snd] in E.
  apply (f_equal (existsb is_resultant)) in E.
  rewrite !existsb_app in E; cbn [existsb resultant_instruction to_instruction] in E.
  change (is_resultant (qc_append (circuit_name (ResultantPauli self)) _ _))
    with true in E.
  rewrite !orb_true_r in E.
  rewrite existsb_steps in E; [discriminate E|].
  unfold tfim_inverse_step, tfim_fields_inverse, rotation_layer, coupling_layer.
  rewrite !existsb_app; simpl.
  rewrite !orb_false_r.
  apply orb_false_iff; split;
    match goal with
    | |- existsb _ (map _ ?order) = false =>
        induction order as [|i l IH]; simpl; [reflexivity | exact IH]
    end.
Qed.

(** C5, as stated, fails on the specification's own scenario, h_x of length
    2 on a chain of 4: the build raises, and at that moment two Rx gates have
    been appended to the circuit under construction. *)
Lemma short_hx_raises_after_two_gates :
  ~ spec_fails_before_any_gate (Heisenberg.create_hamiltonian_body short_hx_kernel).
Proof.
  intros Hclean.
  assert (HK : 1 <= K short_hx_kernel) by (simpl; lia).
  assert (Hx : List.length (h_x short_hx_kernel) < n_spins short_hx_kernel)
    by (simpl; lia).
  specialize (Hclean IndexError).
  unfold emitted in Hclean.
  rewrite (heisenberg_short_hx short_hx_kernel [] HK Hx) in Hclean.
  specialize (Hclean eq_refl).
  discriminate Hclean.
Qed.

(** C5, amended.  In every Heisenberg forward build with at least one step in
    which h_x or h_z is shorter than n_spins, [create_hamiltonian] raises
    IndexError when it reads the first missing entry, in the first step;
    nothing is validated before that, so the circuit under construction
    already holds the Rx rotations of the qubits that h_x covers (all
    n_spins of them, followed by the Rz rotations of the qubits that h_z
    covers, when only h_z is short). *)
Theorem short_fields_raise_midway (self : HamiltonianKernel) :
  1 <= K self ->
  List.length (h_x self) < n_spins self \/ List.length (h_z self) < n_spins self ->
  Heisenberg.create_hamiltonian self = Raise IndexError
  /\ emitted (Heisenberg.create_hamiltonian_body self)
     = if List.length (h_x self) <? n_spins self then
         map (fun i => qc_rx (2 * tau self * w self * hx_at self i)%R i)
             (range (List.length (h_x self)))
       else
         rotation_layer self qc_rx
           (fun i => (2 * tau self * w self * hx_at self i)%R)
         ++ map (fun i => qc_rz (2 * tau self * w self * hz_at self i)%R i)
              (range (List.length (h_z self))).
Proof.
  intros HK Hshort.
  unfold Heisenberg.create_hamiltonian, build, emitted.
  destruct (Nat.ltb_spec (List.length (h_x self)) (n_spins self)) as [Hx|Hx].
  - rewrite (heisenberg_short_hx self [] HK Hx); split; reflexivity.
  - destruct Hshort as [Hx'|Hz]; [lia|].
    rewrite (heisenberg_short_hz self [] HK Hx Hz); split; reflexivity.
Qed.

Lemma short_fields_raise_midway_witness :
  Heisenberg.create_hamiltonian short_hx_kernel = Raise IndexError
  /\ emitted (Heisenberg.create_hamiltonian_body short_hx_kernel)
     = [qc_rx (2 * tau short_hx_kernel * w short_hx_kernel
               * hx_at short_hx_kernel 0)%R 0;
        qc_rx (2 * tau short_hx_kernel * w short_hx_kernel
               * hx_at short_hx_kernel 1)%R 1].
Proof.
  apply (short_fields_raise_midway short_hx_kernel).
  - simpl; lia.
  - left; simpl; lia.
Defined.

(* ================================================================== *)
(** * Further properties of the kernel *)
(* ================================================================== *)

(** X1.  Fused mode, at least one qubit and one step, fields covering the
    chain: for every draw of the twirl, the forward circuit followed by the
    quasi-inverse circuit sends the amplitude of every label to the label
    with all n_spins bits flipped.  The random Paulis cancel inside the
    circuit; what is left is the X on every qubit of the ResultantState. *)
Theorem fused_quasi_inverse_flips_every_qubit (self : HamiltonianKernel)
    (coin : nat -> bool) :
  fields_cover self -> use_XX_YY_ZZ_gates self = false ->
  1 <= n_spins self -> 1 <= K self ->
  exists fwd qinv,
    Heisenberg.create_hamiltonian self = Ok fwd
    /\ Heisenberg.create_quasi_inverse_hamiltonian self coin = Ok qinv
    /\ forall psi b,
         run (data fwd ++ data qinv) psi b = psi (flip_below (n_spins self) b).
Proof.
  intros Hc Hfused Hn HK.
  exists ("Heisenberg", steps (K self) (heisenberg_step self)).
  exists ("QuasiInverseHeisenberg", quasi_inverse_gates self coin).
  split; [apply emits_gates, heisenberg_create_hamiltonian_emits, Hc|].
  split; [apply emits_gates, quasi_inverse_emits; auto|].
  intros psi b; unfold data; cbn [snd].
  rewrite run_app, (fused_quasi_inverse_run self coin Hn _ Hfused HK).
  rewrite <- (run_app (steps (K self) (heisenberg_step self))).
  rewrite (steps_cancel (K self) _ _ (heisenberg_step_cancel self)).
  rewrite resultant_run; reflexivity.
Qed.

Lemma fused_quasi_inverse_flips_every_qubit_witness :
  exists fwd qinv,
    Heisenberg.create_hamiltonian (uniform_kernel 4 2 false) = Ok fwd
    /\ Heisenberg.create_quasi_inverse_hamiltonian (uniform_kernel 4 2 false)
         alternating_coin = Ok qinv
    /\ forall psi b, run (data fwd ++ data qinv) psi b = psi (flip_below 4 b).
Proof.
  apply (fused_quasi_inverse_flips_every_qubit (uniform_kernel 4 2 false)
           alternating_coin).
  - split; simpl; lia.
  - reflexivity.
  - simpl; lia.
  - simpl; lia.
Defined.

(** X2.  For every angle and both tags of either wire, the quasi-mirror block
    acts as the Pauli of the first tag on qubit 0 and the Pauli of the second
    tag on qubit 1, followed by the mirror block: H, Z, Rx(pi/2), H is X then
    Rz(pi/2), and H, X, Rx(pi/2), H is Z then Rz(pi/2). *)
Theorem quasi_mirror_is_pauli_then_mirror (tau : R) (x0 x1 : bool) (psi : state) :
  run (data (xxyyzz_opt_gate_quasi_mirror tau
               (if x0 then "x" else "z") (if x1 then "x" else "z"))) psi
  = run (data (xxyyzz_opt_gate_mirror tau))
      (run [if x0 then qc_x 0 else qc_z 0; if x1 then qc_x 1 else qc_z 1] psi).
Proof.
  pose proof (quasi_block_run (fun q => if q =? 0 then x0 else x1) 0 1 tau psi
                (Nat.neq_0_succ 0)) as E.
  destruct x0, x1; exact E.
Qed.

(** X3.  The circuit of [ResultantPauli] moves the amplitude of every label
    to the label with the bits of qubits 0 .. n_spins-1 flipped and all other
    bits unchanged. *)
Theorem resultant_pauli_flips_chain (self : HamiltonianKernel) (psi : state)
    (b : basis) :
  run (data (ResultantPauli self)) psi b = psi (flip_below (n_spins self) b).
Proof.
  unfold run; rewrite ResultantPauli_gates.
  rewrite decompose_elementary, run_gates_app, run_barrier, x_layer_flips.
  - reflexivity.
  - apply Forall_app; split; [|repeat constructor].
    apply Forall_map, Forall_forall; intros q _; exact I.
Qed.

(** X4.  Method 3 without the random-Pauli flag, either kernel, fields
    covering a chain of at least one qubit: [overall_circuit] raises nothing;
    [self.qc] is the initial state, the forward circuit and the exact inverse,
    each appended on all qubits, followed by the measurement of qubit i into
    bit i for every i; and before the measurements the circuit acts on every
    state as the initial-state circuit alone. *)
Theorem overall_circuit_exact_mirror (cls : kernel_class) (coin : nat -> bool)
    (self : HamiltonianKernel) :
  method self = 3 -> random_pauli_flag self = false ->
  fields_cover self -> 1 <= n_spins self ->
  exists fwd inv,
    create_hamiltonian cls self = Ok fwd
    /\ create_inverse_hamiltonian cls self = Ok inv
    /\ overall_circuit cls coin self
       = ([op_instr (to_instruction (initial_state self) (range (n_spins self)));
           op_instr (to_instruction fwd (range (n_spins self)));
           op_instr (to_instruction inv (range (n_spins self)))]
          ++ map (fun i => op_measure i i) (range (n_spins self)),
          Ok tt)
    /\ forall psi,
         run (unitary_part (fst (overall_circuit cls coin self))) psi
         = run (data (initial_state self)) psi.
Proof.
  intros Hm Hflag Hc Hn.
  destruct (forward_inverse_built cls self Hc)
    as (fwd & inv & Efwd & Einv & Wfwd & Winv & Hcancel).
  exists fwd, inv.
  assert (E : overall_circuit cls coin self
              = ([op_instr (to_instruction (initial_state self) (range (n_spins self)));
                  op_instr (to_instruction fwd (range (n_spins self)));
                  op_instr (to_instruction inv (range (n_spins self)))]
                 ++ map (fun i => op_measure i i) (range (n_spins self)),
                 Ok tt)).
  { unfold overall_circuit; rewrite Efwd, Hm, Hflag, Einv; reflexivity. }
  repeat split; try assumption.
  intros psi; rewrite E; cbn [fst].
  rewrite unitary_part_app, unitary_part_measures, app_nil_r.
  cbn [unitary_part flat_map app].
  rewrite run_cons, (run_cons _ [_]), (run_cons _ []), run_nil.
  rewrite !run_on_register by (assumption || apply within_initial_state, Hn).
  apply Hcancel.
Qed.

Lemma overall_circuit_exact_mirror_witness :
  exists fwd inv,
    create_hamiltonian HeisenbergHamiltonianKernel
      (init 4 2 1 "heisenberg" 1 [1; 1; 1; 1]%R [1; 1; 1; 1]%R false 3 false "ghz")
    = Ok fwd
    /\ create_inverse_hamiltonian HeisenbergHamiltonianKernel
         (init 4 2 1 "heisenberg" 1 [1; 1; 1; 1]%R [1; 1; 1; 1]%R false 3 false "ghz")
       = Ok inv
    /\ snd (overall_circuit HeisenbergHamiltonianKernel alternating_coin
              (init 4 2 1 "heisenberg" 1 [1; 1; 1; 1]%R [1; 1; 1; 1]%R false 3 false
                 "ghz"))
       = Ok tt.
Proof.
  destruct (overall_circuit_exact_mirror HeisenbergHamiltonianKernel alternating_coin
              (init 4 2 1 "heisenberg" 1 [1; 1; 1; 1]%R [1; 1; 1; 1]%R false 3 false
                 "ghz"))
    as (fwd & inv & Efwd & Einv & E & _).
  - reflexivity.
  - reflexivity.
  - split; simpl; lia.
  - simpl; lia.
  - exists fwd, inv; rewrite E; auto.
Defined.

(** X5.  Method 3 with the random-Pauli flag, Heisenberg kernel in fused
    mode, fields covering a chain of at least one qubit, at least one step:
    [overall_circuit] raises nothing, and before the measurements its circuit
    acts on every state as the initial-state circuit followed by a flip of
    all n_spins qubits, whatever twirl is drawn. *)
Theorem overall_circuit_quasi_mirror (coin : nat -> bool)
    (self : HamiltonianKernel) :
  method self = 3 -> random_pauli_flag self = true ->
  use_XX_YY_ZZ_gates self = false ->
  fields_cover self -> 1 <= n_spins self -> 1 <= K self ->
  snd (overall_circuit HeisenbergHamiltonianKernel coin self) = Ok tt
  /\ forall psi b,
       run (unitary_part (fst (overall_circuit HeisenbergHamiltonianKernel coin self)))
         psi b
       = run (data (initial_state self)) psi (flip_below (n_spins self) b).
Proof.
  intros Hm Hflag Hfused Hc Hn HK.
  pose proof (emits_gates "Heisenberg" _ _
                (heisenberg_create_hamiltonian_emits self Hc)) as Efwd.
  pose proof (emits_gates "QuasiInverseHeisenberg" _ _
                (quasi_inverse_emits self coin Hc (fun _ => Hn))) as Eq.
  unfold overall_circuit, create_hamiltonian, create_quasi_inverse_hamiltonian,
    Heisenberg.create_hamiltonian, Heisenberg.create_quasi_inverse_hamiltonian.
  rewrite Efwd, Hm, Hflag, Eq; cbn [Nat.eqb fst snd]; split; [reflexivity|].
  intros psi b.
  rewrite !unitary_part_app, unitary_part_measures, app_nil_r.
  cbn [unitary_part flat_map app].
  rewrite run_cons, (run_cons _ [_]), (run_cons _ []), run_nil.
  rewrite !run_on_register;
    try (apply within_initial_state, Hn);
    try (apply Forall_steps, within_heisenberg_step);
    try (apply within_quasi_inverse_gates, Hn).
  unfold data; cbn [snd].
  rewrite (fused_quasi_inverse_run self coin Hn _ Hfused HK).
  rewrite <- (run_app (steps (K self) (heisenberg_step self))).
  rewrite (steps_cancel (K self) _ _ (heisenberg_step_cancel self)).
  rewrite resultant_run; reflexivity.
Qed.

Lemma overall_circuit_quasi_mirror_witness :
  snd (overall_circuit HeisenbergHamiltonianKernel alternating_coin
         (uniform_kernel 5 2 false)) = Ok tt
  /\ forall psi b,
       run (unitary_part (fst (overall_circuit HeisenbergHamiltonianKernel
                                 alternating_coin (uniform_kernel 5 2 false))))
         psi b
       = run (data (initial_state (uniform_kernel 5 2 false))) psi (flip_below 5 b).
Proof.
  apply (overall_circuit_quasi_mirror alternating_coin (uniform_kernel 5 2 false));
    try reflexivity; try (simpl; lia).
  split; simpl; lia.
Defined.

(** X6.  With the TFIM kernel the random-Pauli flag changes nothing in method
    3: on a chain of at least one qubit [overall_circuit] raises nothing, and
    before the measurements its circuit acts as the initial-state circuit
    alone; no qubit is flipped and no field array is read. *)
Theorem overall_circuit_tfim_ignores_flag (coin : nat -> bool)
    (self : HamiltonianKernel) :
  method self = 3 -> 1 <= n_spins self ->
  snd (overall_circuit TfimHamiltonianKernel coin self) = Ok tt
  /\ forall psi,
       run (unitary_part (fst (overall_circuit TfimHamiltonianKernel coin self))) psi
       = run (data (initial_state self)) psi.
Proof.
  intros Hm Hn.
  pose proof (emits_gates "TFIM" _ _ (tfim_create_hamiltonian_emits self)) as Efwd.
  pose proof (emits_gates "InverseTFIM" _ _
                (tfim_create_inverse_hamiltonian_emits self)) as Einv.
  pose proof (emits_gates "QuasiInverseTFIM" _ _
                (tfim_create_quasi_inverse_hamiltonian_emits self)) as Eq.
  unfold overall_circuit, create_hamiltonian, create_quasi_inverse_hamiltonian,
    create_inverse_hamiltonian, Tfim.create_hamiltonian,
    Tfim.create_quasi_inverse_hamiltonian, Tfim.create_inverse_hamiltonian.
  rewrite Efwd, Hm, Eq, Einv; cbn [Nat.eqb].
  destruct (random_pauli_flag self); cbn [fst snd]; (split; [reflexivity|]);
    intros psi;
    rewrite !unitary_part_app, unitary_part_measures, app_nil_r;
    cbn [unitary_part flat_map app];
    rewrite run_cons, (run_cons _ [_]), (run_cons _ []), run_nil;
    rewrite !run_on_register;
    try (apply within_initial_state, Hn);
    try (apply Forall_steps, within_tfim_step);
    try (apply Forall_steps, within_tfim_inverse_step);
    unfold data; cbn [snd];
    rewrite <- (run_app (steps (K self) (tfim_step self)));
    apply steps_cancel, tfim_step_cancel.
Qed.

Lemma overall_circuit_tfim_ignores_flag_witness :
  snd (overall_circuit TfimHamiltonianKernel alternating_coin
         (sample_kernel 4 2 false [] [])) = Ok tt
  /\ forall psi,
       run (unitary_part (fst (overall_circuit TfimHamiltonianKernel
                                 alternating_coin (sample_kernel 4 2 false [] []))))
         psi
       = run (data (initial_state (sample_kernel 4 2 false [] []))) psi.
Proof.
  apply (overall_circuit_tfim_ignores_flag alternating_coin
           (sample_kernel 4 2 false [] [])).
  - reflexivity.
  - simpl; lia.
Defined.

(** X7.  Heisenberg kernel, at least one step, h_x or h_z shorter than
    n_spins: [overall_circuit] raises IndexError out of [create_hamiltonian],
    and at that moment [self.qc] holds exactly one instruction, the initial
    state appended on all qubits; no measurement has been added. *)
Theorem overall_circuit_short_fields (coin : nat -> bool)
    (self : HamiltonianKernel) :
  1 <= K self ->
  List.length (h_x self) < n_spins self \/ List.length (h_z self) < n_spins self ->
  overall_circuit HeisenbergHamiltonianKernel coin self
  = ([op_instr (to_instruction (initial_state self) (range (n_spins self)))],
     Raise IndexError).
Proof.
  intros HK Hshort; unfold overall_circuit, create_hamiltonian.
  rewrite (heisenberg_forward_raises self HK Hshort); reflexivity.
Qed.

Lemma overall_circuit_short_fields_witness :
  overall_circuit HeisenbergHamiltonianKernel alternating_coin short_hx_kernel
  = ([op_instr (to_instruction (initial_state short_hx_kernel) (range 4))],
     Raise IndexError).
Proof.
  apply (overall_circuit_short_fields alternating_coin short_hx_kernel).
  - simpl; lia.
  - left; simpl; lia.
Defined.

(** X8.  For the kinds "checkerboard" and "neele", the initial-state circuit
    moves the amplitude of every label to the label with the even-numbered
    bits below n_spins flipped: from the register at 0 it prepares
    1, 0, 1, 0, ... *)
Theorem checkerboard_flips_even_qubits (self : HamiltonianKernel) (psi : state)
    (b : basis) :
  init_state self = "checkerboard" \/ init_state self = "neele" ->
  run (data (initial_state self)) psi b = psi (flip_even_below (n_spins self) b).
Proof.
  intros Hkind; rewrite initial_state_gates.
  replace ((init_state self =? "checkerboard") || (init_state self =? "neele"))%string
    with true by (destruct Hkind as [-> | ->]; reflexivity).
  unfold run; rewrite decompose_elementary
    by (apply Forall_map, Forall_forall; intros q _; exact I).
  rewrite x_gates_flip by apply NoDup_range3_2.
  rewrite flip_in_checkerboard; reflexivity.
Qed.

Lemma checkerboard_flips_even_qubits_witness :
  run (data (initial_state (uniform_kernel 4 1 false))) (ket0 4) (fun _ => false)
  = ket0 4 (flip_even_below 4 (fun _ => false)).
Proof.
  apply (checkerboard_flips_even_qubits (uniform_kernel 4 1 false) (ket0 4)
           (fun _ => false)).
  left; reflexivity.
Defined.

(** X9.  For the kind "ghz" on a chain of at least one qubit, the
    initial-state circuit takes the register at 0 to the GHZ state: amplitude
    1/sqrt 2 on the two labels whose n_spins bits are all 0 or all 1, and 0
    elsewhere. *)
Theorem ghz_circuit_prepares_ghz (self : HamiltonianKernel) :
  init_state self = "ghz" -> 1 <= n_spins self ->
  run (data (initial_state self)) (ket0 (n_spins self)) = ghz_state (n_spins self).
Proof.
  intros Hkind Hn; rewrite initial_state_gates, Hkind.
  change (("ghz" =? "checkerboard")%string || ("ghz" =? "neele")%string) with false.
  change ("ghz" =? "ghz")%string with true; cbv iota.
  unfold run; rewrite decompose_elementary.
  - unfold range2; rewrite ghz_prefix by lia.
    apply ghz_partial_full, Hn.
  - constructor; [exact I|].
    apply Forall_map, Forall_forall; intros k Hk.
    unfold range2 in Hk; apply in_seq in Hk; simpl; lia.
Qed.

Lemma ghz_circuit_prepares_ghz_witness :
  run (data (initial_state
               (init 3 1 1 "heisenberg" 1 [1; 1; 1]%R [1; 1; 1]%R false 3 false "ghz")))
      (ket0 3)
  = ghz_state 3.
Proof.
  apply (ghz_circuit_prepares_ghz
           (init 3 1 1 "heisenberg" 1 [1; 1; 1]%R [1; 1; 1]%R false 3 false "ghz")).
  - reflexivity.
  - simpl; lia.
Defined.

Section CouplingBlocks.
Local Open Scope R_scope.

(** X10.  Wired to two distinct qubits a and b, the ZZ block changes no
    label: it multiplies the amplitude of a label by exp(-i pi tau / 2) when
    bits a and b are equal and by exp(i pi tau / 2) when they differ, which
    is exp(-i (pi tau / 2) Z Z).  The mirror block has the two phases
    exchanged. *)
Theorem zz_block_is_parity_phase (a b : nat) (tau : R) (psi : state) (x : basis) :
  a <> b ->
  run_gates (on_pair (data (zz_gate tau)) a b) psi x
  = Cmul (Cexp (if xorb (x a) (x b) then PI * tau / 2 else - (PI * tau / 2)))
         (psi x)
  /\ run_gates (on_pair (data (zz_gate_mirror tau)) a b) psi x
     = Cmul (Cexp (if xorb (x a) (x b) then - (PI * tau / 2) else PI * tau / 2))
            (psi x).
Proof.
  intros Hab.
  rewrite zz_run, zz_mirror_run by assumption.
  unfold diag, zz_phase.
  split; destruct (x a), (x b); cbn [negb xorb entry RZGate m00 m11];
    do 2 f_equal; lra.
Qed.

Lemma zz_block_is_parity_phase_witness :
  run_gates (on_pair (data (zz_gate (1 / 2))) 0 1) (ket0 2) (fun _ => false)
  = Cmul (Cexp (if xorb false false
                then PI * (1 / 2) / 2 else - (PI * (1 / 2) / 2)))
         (ket0 2 (fun _ => false))
  /\ run_gates (on_pair (data (zz_gate_mirror (1 / 2))) 0 1) (ket0 2)
       (fun _ => false)
     = Cmul (Cexp (if xorb false false
                   then - (PI * (1 / 2) / 2) else PI * (1 / 2) / 2))
            (ket0 2 (fun _ => false)).
Proof.
  apply (zz_block_is_parity_phase 0 1 (1 / 2) (ket0 2) (fun _ => false)).
  discriminate.
Defined.

(** X11.  Wired to two distinct qubits a and b, the XX block takes a state to
    cos(pi tau / 2) times the state minus i sin(pi tau / 2) times the state
    with bits a and b both flipped, which is exp(-i (pi tau / 2) X X). *)
Theorem xx_block_closed_form (a b : nat) (tau : R) (psi : state) (x : basis) :
  a <> b ->
  run_gates (on_pair (data (xx_gate tau)) a b) psi x
  = Cadd (Cmul (cos (PI * tau / 2), 0) (psi x))
         (Cmul (0, - sin (PI * tau / 2)) (psi (flip_in [a; b] x))).
Proof.
  intros Hab.
  rewrite xx_run by assumption.
  fold (xx_op a b (PI * tau) psi).
  rewrite xx_op_split by assumption.
  unfold state_add, state_scale.
  rewrite xx_pointwise by assumption.
  reflexivity.
Qed.

Lemma xx_block_closed_form_witness :
  run_gates (on_pair (data (xx_gate (1 / 2))) 0 1) (ket0 2) (fun _ => false)
  = Cadd (Cmul (cos (PI * (1 / 2) / 2), 0) (ket0 2 (fun _ => false)))
         (Cmul (0, - sin (PI * (1 / 2) / 2))
            (ket0 2 (flip_in [0; 1]%nat (fun _ => false)))).
Proof.
  apply (xx_block_closed_form 0 1 (1 / 2) (ket0 2) (fun _ => false)).
  discriminate.
Defined.

(** X12.  Wired to two distinct qubits a and b, the YY block takes a state to
    cos(pi tau / 2) times the state minus i sin(pi tau / 2) times Y Y of the
    state; Y Y moves the amplitude of the label with bits a and b both
    flipped to this label, with sign +1 when the two bits of this label
    differ and -1 when they are equal.  This is exp(-i (pi tau / 2) Y Y). *)
Theorem yy_block_closed_form (a b : nat) (tau : R) (psi : state) (x : basis) :
  a <> b ->
  run_gates (on_pair (data (yy_gate tau)) a b) psi x
  = Cadd (Cmul (cos (PI * tau / 2), 0) (psi x))
         (Cmul (0, - sin (PI * tau / 2))
            (Cmul (if xorb (x a) (x b) then C1 else Copp C1)
               (psi (flip_in [a; b] x)))).
Proof.
  intros Hab.
  rewrite yy_run by assumption.
  unfold state_add, state_scale.
  rewrite yy_pointwise by assumption.
  reflexivity.
Qed.

Lemma yy_block_closed_form_witness :
  run_gates (on_pair (data (yy_gate (1 / 2))) 0 1) (ket0 2) (fun _ => false)
  = Cadd (Cmul (cos (PI * (1 / 2) / 2), 0) (ket0 2 (fun _ => false)))
         (Cmul (0, - sin (PI * (1 / 2) / 2))
            (Cmul (if xorb false false then C1 else Copp C1)
               (ket0 2 (flip_in [0; 1]%nat (fun _ => false))))).
Proof.
  apply (yy_block_closed_form 0 1 (1 / 2) (ket0 2) (fun _ => false)).
  discriminate.
Defined.

(** X13.  Wired to two distinct qubits a and b, the fused XXYYZZ block
    multiplies the amplitude of a label whose bits a and b are equal by
    exp(i (pi / 4 - pi tau / 2)); on a label whose two bits differ it gives
    exp(i (pi / 4 + pi tau / 2)) times the sum of -cos(pi tau) times the
    amplitude of the label and -i sin(pi tau) times the amplitude of the
    label with the two bits exchanged. *)
Theorem fused_block_closed_form (a b : nat) (tau : R) (psi : state) (x : basis) :
  a <> b ->
  run_gates (on_pair (data (xxyyzz_opt_gate tau)) a b) psi x
  = if Bool.eqb (x a) (x b)
    then Cmul (Cexp (PI / 4 - PI * tau / 2)) (psi x)
    else Cmul (Cexp (PI / 4 + PI * tau / 2))
           (Cadd (Cmul (- cos (PI * tau), 0) (psi x))
                 (Cmul (0, - sin (PI * tau)) (psi (flip_in [a; b] x)))).
Proof.
  intros Hab.
  rewrite flip_in_two by assumption.
  pose proof (fused_run_two a b tau psi x (x a) (x b) Hab) as H.
  rewrite two_id in H; exact H.
Qed.

Lemma fused_block_closed_form_witness :
  run_gates (on_pair (data (xxyyzz_opt_gate (1 / 2))) 0 1) (ket0 2)
    (fun _ => false)
  = if Bool.eqb false false
    then Cmul (Cexp (PI / 4 - PI * (1 / 2) / 2)) (ket0 2 (fun _ => false))
    else Cmul (Cexp (PI / 4 + PI * (1 / 2) / 2))
           (Cadd (Cmul (- cos (PI * (1 / 2)), 0) (ket0 2 (fun _ => false)))
                 (Cmul (0, - sin (PI * (1 / 2)))
                    (ket0 2 (flip_in [0; 1]%nat (fun _ => false))))).
Proof.
  apply (fused_block_closed_form 0 1 (1 / 2) (ket0 2) (fun _ => false)).
  discriminate.
Defined.

(** X14.  On one pair of distinct qubits, the fused XXYYZZ block is the XX,
    YY and ZZ blocks one after the other up to a global phase exactly when
    cos(pi tau) = 0.  For every other tau the two coupling modes give
    different operators: on labels whose two bits differ, the amplitude that
    stays in place has the opposite sign. *)
Theorem fused_matches_separate_axes_iff (a b : nat) (tau : R) :
  a <> b ->
  (exists phi : R, forall psi x,
      run_gates (on_pair (data (xxyyzz_opt_gate tau)) a b) psi x
      = Cmul (Cexp phi)
          (run_gates (on_pair (data (xx_gate tau)) a b
                      ++ on_pair (data (yy_gate tau)) a b
                      ++ on_pair (data (zz_gate tau)) a b) psi x))
  <-> cos (PI * tau) = 0.
Proof.
  intros Hab; split.
  - intros [phi H].
    pose (x0 := (fun _ => false) : basis).
    pose proof (H (fun _ => C1) x0) as He.
    pose proof (H (fun _ => C1) (upd x0 a true)) as Ho.
    rewrite fused_run, xx_yy_zz_run in He, Ho by assumption.
    rewrite upd_same, upd_other in Ho by congruence.
    cbn [x0 Bool.eqb] in He, Ho.
    revert He Ho.
    set (t := PI * tau / 2).
    replace (PI * tau) with (2 * t) by (unfold t; lra).
    clearbody t.
    generalize (cos phi) (sin phi); intros p q.
    quarter_turns t.
    intros s c r Hcs Hr He Ho.
    injection He as He1 He2; injection Ho as Ho1 Ho2.
    nsatz.
  - intros Hk; exists (PI / 4); intros psi x.
    rewrite fused_run, xx_yy_zz_run by assumption.
    revert Hk.
    set (t := PI * tau / 2).
    replace (PI * tau) with (2 * t) by (unfold t; lra).
    clearbody t.
    generalize (psi x) (psi (flip_in [a; b] x)); intros [p1 p2] [q1 q2].
    destruct (Bool.eqb (x a) (x b));
      quarter_turns t; intros s c r Hcs Hr Hk; apply C_eq; nsatz.
Qed.

Lemma fused_matches_separate_axes_iff_witness :
  (exists phi : R, forall psi x,
      run_gates (on_pair (data (xxyyzz_opt_gate (1 / 2))) 0 1) psi x
      = Cmul (Cexp phi)
          (run_gates (on_pair (data (xx_gate (1 / 2))) 0 1
                      ++ on_pair (data (yy_gate (1 / 2))) 0 1
                      ++ on_pair (data (zz_gate (1 / 2))) 0 1) psi x))
  <-> cos (PI * (1 / 2)) = 0.
Proof.
  apply (fused_matches_separate_axes_iff 0 1 (1 / 2)).
  discriminate.
Defined.

End CouplingBlocks.

(** X15.  With field arrays that cover the chain, the forward Heisenberg
    circuit holds K (2 n + 2 + g (n - 1)) instructions, barriers included,
    with g = 3 coupling blocks per pair in separate-axis mode and g = 1 in
    fused mode; the forward TFIM circuit holds K (n + 2 + (n - 1)). *)
Theorem forward_circuit_size (self : HamiltonianKernel) :
  fields_cover self ->
  List.length (gates (Heisenberg.create_hamiltonian self))
  = K self * (2 * n_spins self + 2
              + (if use_XX_YY_ZZ_gates self then 3 else 1) * (n_spins self - 1))
  /\ List.length (gates (Tfim.create_hamiltonian self))
     = K self * (n_spins self + 2 + (n_spins self - 1)).
Proof.
  intros Hc.
  unfold Heisenberg.create_hamiltonian, Tfim.create_hamiltonian.
  rewrite (emits_gates "Heisenberg" _ _ (heisenberg_create_hamiltonian_emits self Hc)).
  rewrite (emits_gates "TFIM" _ _ (tfim_create_hamiltonian_emits self)).
  cbn [gates data snd].
  rewrite !length_steps.
  unfold heisenberg_step, heisenberg_fields, heisenberg_coupling, tfim_step,
    tfim_fields.
  split; f_equal.
  - destruct (use_XX_YY_ZZ_gates self);
      rewrite ?length_app, ?length_rotation_layer, ?length_coupling_layer,
        ?length_forward_order; cbn [List.length]; lia.
  - rewrite ?length_app, ?length_rotation_layer, ?length_coupling_layer,
      ?length_forward_order; cbn [List.length]; lia.
Qed.

Lemma forward_circuit_size_witness :
  List.length (gates (Heisenberg.create_hamiltonian (uniform_kernel 4 2 false)))
  = K (uniform_kernel 4 2 false)
    * (2 * n_spins (uniform_kernel 4 2 false) + 2
       + (if use_XX_YY_ZZ_gates (uniform_kernel 4 2 false) then 3 else 1)
         * (n_spins (uniform_kernel 4 2 false) - 1))
  /\ List.length (gates (Tfim.create_hamiltonian (uniform_kernel 4 2 false)))
     = K (uniform_kernel 4 2 false)
       * (n_spins (uniform_kernel 4 2 false) + 2
          + (n_spins (uniform_kernel 4 2 false) - 1)).
Proof.
  apply (forward_circuit_size (uniform_kernel 4 2 false)).
  split; simpl; lia.
Defined.

(** X16.  In separate-axis mode the quasi-inverse does not undo the random
    Paulis.  With field arrays that cover the chain, no field along z
    (w * h_z[i] = 0 on every qubit) and a draw in which every tag is x, both
    builds return and the forward circuit followed by the quasi-inverse
    circuit is the identity: the register comes back to its initial state,
    not to the state with every bit flipped that ResultantPauli prepares. *)
Theorem separate_axis_all_x_twirl_stays (self : HamiltonianKernel)
    (coin : nat -> bool) :
  fields_cover self -> use_XX_YY_ZZ_gates self = true ->
  (forall i, i < n_spins self -> (w self * hz_at self i = 0)%R) ->
  (forall i, i < n_spins self -> coin i = true) ->
  exists fwd qinv,
    Heisenberg.create_hamiltonian self = Ok fwd
    /\ Heisenberg.create_quasi_inverse_hamiltonian self coin = Ok qinv
    /\ forall psi b, run (data fwd ++ data qinv) psi b = psi b.
Proof.
  intros Hc Hsep Hz Hx.
  exists ("Heisenberg", steps (K self) (heisenberg_step self)).
  exists ("QuasiInverseHeisenberg", quasi_inverse_gates self coin).
  split; [apply emits_gates, heisenberg_create_hamiltonian_emits, Hc|].
  split; [apply emits_gates, quasi_inverse_emits; [exact Hc | congruence]|].
  intros psi b; unfold data; cbn [snd].
  unfold quasi_inverse_gates, quasi_inverse_steps; rewrite Hsep.
  rewrite !run_app, resultant_run.
  rewrite (leading_twirl_all_x self coin Hx).
  unfold run at 2 3 4.
  rewrite (decompose_elementary (map qc_x _))
    by (apply Forall_map, Forall_forall; intros q _; exact I).
  change (decompose [qc_barrier]) with [qc_barrier].
  rewrite run_barrier, x_layer_flips.
  unfold run; rewrite !decompose_steps.
  rewrite <- (flip_equivariant_steps _ _ _ (separate_step_equivariant self Hsep Hz)).
  unfold steps.
  rewrite (cancels_concat_repeat _ _ (K self) (separate_quasi_step_cancel self Hsep)).
  rewrite flip_below_involutive; reflexivity.
Qed.

Lemma separate_axis_all_x_twirl_stays_witness :
  exists fwd qinv,
    Heisenberg.create_hamiltonian
      (init 3 2 1 "heisenberg" 1 [1; 1; 1]%R [0; 0; 0]%R true 3 true "checkerboard")
    = Ok fwd
    /\ Heisenberg.create_quasi_inverse_hamiltonian
         (init 3 2 1 "heisenberg" 1 [1; 1; 1]%R [0; 0; 0]%R true 3 true "checkerboard")
         (fun _ => true)
       = Ok qinv
    /\ forall psi b, run (data fwd ++ data qinv) psi b = psi b.
Proof.
  apply (separate_axis_all_x_twirl_stays
           (init 3 2 1 "heisenberg" 1 [1; 1; 1]%R [0; 0; 0]%R true 3 true "checkerboard")
           (fun _ => true)).
  - split; simpl; lia.
  - reflexivity.
  - intros i Hi; unfold hz_at; simpl in *.
    destruct i as [|[|[|i]]]; simpl; try lra; lia.
  - reflexivity.
Defined.
